(** * specialize: the type-list expander, the identifier deriver and the
      cross-product builder of [cmd/specialize/main.go]

    The development has three layers.

    - A model of the parts of the Go standard library that [main.go] calls
      ([unicode/utf8], [unicode], [strings], [path/filepath] on a Unix
      system).  A Go [string] is a sequence of bytes; the functions that
      are Unicode aware in Go ([strings.TrimSpace], [strings.ToLower],
      [strings.Title]) decode UTF-8 here as they do there.  The large
      Unicode tables (case mappings, letter and digit categories) are not
      part of the repository: they are parameters of the development and
      are only ever consulted for runes above U+007F.
    - The program itself: [macros], [expand], [makeName], the part of
      [main] that runs before the template engine is called, and [main]
      as a whole with the template engine, the file system and the
      command line taken as given.
    - The properties of the program. *)

From Stdlib Require Import Ascii String List ZArith Lia Bool Arith.
From Equations Require Import Equations.
Import ListNotations.

Local Open Scope string_scope.
Local Open Scope list_scope.
Local Open Scope Z_scope.

(** ** Go strings *)

(** A Go string is an immutable sequence of bytes. *)
Definition gostring := list ascii.

(** String literals of the source are written ["..."] and read as their
    bytes. *)
Definition go (s : string) : gostring := list_ascii_of_string s.
Coercion go : string >-> gostring.

(** [b] as a number, Go's [int(b)] or [rune(b)]. *)
Definition byteZ (b : ascii) : Z := Z.of_N (N_of_ascii b).

(** Go's conversion [byte(r)]: the low eight bits. *)
Definition byte (r : Z) : ascii := ascii_of_N (Z.to_N (r mod 256)).

(** [s[i]] for an index in range. *)
Definition at_ (s : gostring) (i : Z) : ascii := nth (Z.to_nat i) s zero.

(** [s[i:]] *)
Definition from (i : nat) (s : gostring) : gostring := skipn i s.

(** [s[:i]] *)
Definition upto (i : nat) (s : gostring) : gostring := firstn i s.

(** [s == t] *)
Fixpoint gostring_eqb (s t : gostring) : bool :=
  match s, t with
  | [], [] => true
  | a :: s', b :: t' => Ascii.eqb a b && gostring_eqb s' t'
  | _, _ => false
  end.

(** A value together with the equation that names it, for definitions
    whose termination argument needs the value of an intermediate call. *)
Definition inspect {A : Type} (a : A) : {b : A | a = b} := exist _ a eq_refl.

(** ** unicode/utf8 *)

Module utf8.

Definition RuneError : Z := 0xFFFD.
Definition RuneSelf : Z := 0x80.
Definition MaxRune : Z := 0x10FFFF.
Definition UTFMax : nat := 4.

Definition surrogateMin : Z := 0xD800.
Definition surrogateMax : Z := 0xDFFF.

Definition tx : Z := 0x80.
Definition t2 : Z := 0xC0.
Definition t3 : Z := 0xE0.
Definition t4 : Z := 0xF0.

Definition maskx : Z := 0x3F.
Definition mask2 : Z := 0x1F.
Definition mask3 : Z := 0x0F.
Definition mask4 : Z := 0x07.

Definition rune1Max : Z := 0x7F.
Definition rune2Max : Z := 0x7FF.
Definition rune3Max : Z := 0xFFFF.

Definition locb : Z := 0x80.
Definition hicb : Z := 0xBF.

(** The codes of the table [first]: the high nibble indexes
    [acceptRanges], the low nibble is the length of the sequence. *)
Definition xx : Z := 0xF1.
Definition as_ : Z := 0xF0.
Definition s1 : Z := 0x02.
Definition s2 : Z := 0x13.
Definition s3 : Z := 0x03.
Definition s4 : Z := 0x23.
Definition s5 : Z := 0x34.
Definition s6 : Z := 0x04.
Definition s7 : Z := 0x44.

(** The 256-entry table [first], row by row. *)
Definition first (b : Z) : Z :=
  if b <? 0x80 then as_
  else if b <? 0xC2 then xx
  else if b <? 0xE0 then s1
  else if b =? 0xE0 then s2
  else if b <? 0xED then s3
  else if b =? 0xED then s4
  else if b <? 0xF0 then s3
  else if b =? 0xF0 then s5
  else if b <? 0xF4 then s6
  else if b =? 0xF4 then s7
  else xx.

Definition acceptRanges (i : Z) : Z * Z :=
  if i =? 0 then (locb, hicb)
  else if i =? 1 then (0xA0, hicb)
  else if i =? 2 then (locb, 0x9F)
  else if i =? 3 then (0x90, hicb)
  else if i =? 4 then (locb, 0x8F)
  else (0, 0).

(** [utf8.DecodeRuneInString]: the first rune of [s] and its width in
    bytes; [(RuneError, 1)] for an invalid encoding, [(RuneError, 0)] for
    the empty string. *)
Definition DecodeRuneInString (s : gostring) : Z * nat :=
  match s with
  | [] => (RuneError, 0%nat)
  | c0 :: _ =>
    let s0 := byteZ c0 in
    let x := first s0 in
    if as_ <=? x then
      ((if x =? xx then RuneError else s0), 1%nat)
    else
      let sz := Z.land x 7 in
      let '(lo, hi) := acceptRanges (Z.shiftr x 4) in
      if Z.of_nat (length s) <? sz then (RuneError, 1%nat)
      else
        let s1 := byteZ (at_ s 1) in
        if (s1 <? lo) || (hi <? s1) then (RuneError, 1%nat)
        else if sz <=? 2 then
          (Z.lor (Z.shiftl (Z.land s0 mask2) 6) (Z.land s1 maskx), 2%nat)
        else
          let s2 := byteZ (at_ s 2) in
          if (s2 <? locb) || (hicb <? s2) then (RuneError, 1%nat)
          else if sz <=? 3 then
            (Z.lor (Z.lor (Z.shiftl (Z.land s0 mask3) 12)
                          (Z.shiftl (Z.land s1 maskx) 6))
                   (Z.land s2 maskx), 3%nat)
          else
            let s3 := byteZ (at_ s 3) in
            if (s3 <? locb) || (hicb <? s3) then (RuneError, 1%nat)
            else
              (Z.lor (Z.lor (Z.lor (Z.shiftl (Z.land s0 mask4) 18)
                                   (Z.shiftl (Z.land s1 maskx) 12))
                            (Z.shiftl (Z.land s2 maskx) 6))
                     (Z.land s3 maskx), 4%nat)
  end.

(** [utf8.RuneStart]: [b] is not a continuation byte. *)
Definition RuneStart (b : ascii) : bool :=
  negb (Z.land (byteZ b) 0xC0 =? 0x80).

(** The loop [for start--; start >= lim; start-- { if RuneStart(s[start])
    { break } }] of [DecodeLastRuneInString]; it runs at most [UTFMax]
    times because [lim >= end - UTFMax]. *)
Fixpoint backToRuneStart (n : nat) (s : gostring) (lim start : Z) : Z :=
  match n with
  | O => start
  | S n' =>
    if start <? lim then start
    else if RuneStart (at_ s start) then start
    else backToRuneStart n' s lim (start - 1)
  end.

(** [utf8.DecodeLastRuneInString]: the last rune of [s] and its width. *)
Definition DecodeLastRuneInString (s : gostring) : Z * nat :=
  let end_ := Z.of_nat (length s) in
  if end_ =? 0 then (RuneError, 0%nat)
  else
    let start := end_ - 1 in
    let r := byteZ (at_ s start) in
    if r <? RuneSelf then (r, 1%nat)
    else
      let lim := Z.max 0 (end_ - Z.of_nat UTFMax) in
      let start := backToRuneStart UTFMax s lim (start - 1) in
      let start := Z.max 0 start in
      let '(r, size) := DecodeRuneInString (from (Z.to_nat start) s) in
      if start + Z.of_nat size =? end_ then (r, size)
      else (RuneError, 1%nat).

(** [utf8.EncodeRune] (and [AppendRune], [Builder.WriteRune]): the UTF-8
    encoding of [r]; a rune out of range or a surrogate half is written as
    [RuneError]. *)
Definition EncodeRune (r : Z) : gostring :=
  let i := r mod 2 ^ 32 in
  if i <=? rune1Max then [byte r]
  else if i <=? rune2Max then
    [byte (Z.lor t2 (Z.shiftr r 6)); byte (Z.lor tx (Z.land r maskx))]
  else
    let three (r : Z) :=
      [byte (Z.lor t3 (Z.shiftr r 12));
       byte (Z.lor tx (Z.land (Z.shiftr r 6) maskx));
       byte (Z.lor tx (Z.land r maskx))] in
    if (MaxRune <? i) || ((surrogateMin <=? i) && (i <=? surrogateMax))
    then three RuneError
    else if i <=? rune3Max then three r
    else
      [byte (Z.lor t4 (Z.shiftr r 18));
       byte (Z.lor tx (Z.land (Z.shiftr r 12) maskx));
       byte (Z.lor tx (Z.land (Z.shiftr r 6) maskx));
       byte (Z.lor tx (Z.land r maskx))].

End utf8.

Arguments utf8.DecodeRuneInString : simpl never.
Arguments utf8.DecodeLastRuneInString : simpl never.
Arguments utf8.EncodeRune : simpl never.

(** ** unicode *)

Module unicode.

Definition MaxASCII : Z := 0x7F.
Definition MaxLatin1 : Z := 0xFF.

Inductive Case := UpperCase | LowerCase | TitleCase.

(** The tables of the package that are generated from the Unicode
    database: [To] is the lookup in [CaseRanges], [IsLetter] and [IsDigit]
    the lookups in the category tables.  The program reaches them only
    with runes above [MaxASCII]. *)
Class Tables := {
  To : Case -> Z -> Z;
  IsLetter : Z -> bool;
  IsDigit : Z -> bool
}.

(** [unicode.IsSpace]: the Latin-1 switch, then the [White_Space] range
    table. *)
Definition IsSpace (r : Z) : bool :=
  if (0 <=? r) && (r <=? MaxLatin1) then
    (r =? 0x09) || (r =? 0x0A) || (r =? 0x0B) || (r =? 0x0C) || (r =? 0x0D)
    || (r =? 0x20) || (r =? 0x85) || (r =? 0xA0)
  else
    (r =? 0x1680) || ((0x2000 <=? r) && (r <=? 0x200A))
    || ((0x2028 <=? r) && (r <=? 0x2029)) || (r =? 0x202F) || (r =? 0x205F)
    || (r =? 0x3000).

Definition ToLower `{Tables} (r : Z) : Z :=
  if r <=? MaxASCII then
    if (0x41 <=? r) && (r <=? 0x5A) then r + (0x61 - 0x41) else r
  else To LowerCase r.

Definition ToTitle `{Tables} (r : Z) : Z :=
  if r <=? MaxASCII then
    if (0x61 <=? r) && (r <=? 0x7A) then r - (0x61 - 0x41) else r
  else To TitleCase r.

End unicode.

(** ** strings *)

Module strings.

(** [strings.HasPrefix] *)
Definition HasPrefix (s prefix : gostring) : bool :=
  (length prefix <=? length s)%nat
  && gostring_eqb (upto (length prefix) s) prefix.

(** [strings.Index] for a one-byte [substr]: the index of its first
    occurrence in [s], or -1. *)
Fixpoint Index (s : gostring) (substr : ascii) : Z :=
  match s with
  | [] => -1
  | b :: s' =>
    if Ascii.eqb b substr then 0
    else let i := Index s' substr in if i <? 0 then -1 else i + 1
  end.

(** [strings.Split] for a one-byte [sep]: the pieces of [s] between the
    occurrences of [sep]; one empty piece for the empty string. *)
Fixpoint Split (s : gostring) (sep : ascii) : list gostring :=
  match s with
  | [] => [[]]
  | b :: s' =>
    if Ascii.eqb b sep then [] :: Split s' sep
    else match Split s' sep with
         | piece :: pieces => (b :: piece) :: pieces
         | [] => [[b]]
         end
  end.

(** [strings.Join] *)
Fixpoint Join (elems : list gostring) (sep : gostring) : gostring :=
  match elems with
  | [] => []
  | [e] => e
  | e :: rest => e ++ sep ++ Join rest sep
  end.

(** [strings.Replace] for one-byte [old] and [new]: the first [n]
    occurrences are replaced, all of them when [n < 0]. *)
Fixpoint Replace (s : gostring) (old new : ascii) (n : Z) : gostring :=
  match s with
  | [] => []
  | b :: s' =>
    if n =? 0 then s
    else if Ascii.eqb b old then new :: Replace s' old new (n - 1)
    else b :: Replace s' old new n
  end.

(** [indexFunc]: [for i, r := range s { if f(r) == truth { return i } }
    return -1].  [skip] counts the bytes of the current rune that the
    range loop still has to step over. *)
Fixpoint indexFunc_from (f : Z -> bool) (truth : bool) (skip : nat) (i : Z)
  (s : gostring) : Z :=
  match s with
  | [] => -1
  | _ :: s' =>
    match skip with
    | S k => indexFunc_from f truth k (i + 1) s'
    | O =>
      let '(r, width) := utf8.DecodeRuneInString s in
      if Bool.eqb (f r) truth then i
      else indexFunc_from f truth (width - 1) (i + 1) s'
    end
  end.

Definition indexFunc (s : gostring) (f : Z -> bool) (truth : bool) : Z :=
  indexFunc_from f truth 0 0 s.

(** [lastIndexFunc]: [for i := len(s); i > 0; { r, size :=
    utf8.DecodeLastRuneInString(s[0:i]); i -= size; if f(r) == truth
    { return i } } return -1].  The argument is the prefix [s[0:i]]. *)
Equations? lastIndexFunc (s : gostring) (f : Z -> bool) (truth : bool) : Z
  by wf (length s) lt :=
  lastIndexFunc [] f truth := -1;
  lastIndexFunc (b :: s') f truth
    with inspect (utf8.DecodeLastRuneInString (b :: s')) := {
    | exist _ (r, size) E with Bool.eqb (f r) truth := {
      | true := Z.of_nat (length (b :: s') - size);
      | false := lastIndexFunc (upto (length (b :: s') - size) (b :: s'))
                               f truth } }.
Proof.
  assert (Hsz : forall (t : gostring) r0 n0, t <> [] ->
             utf8.DecodeLastRuneInString t = (r0, n0) -> (1 <= n0)%nat).
  { intros t r0 n0 Ht. unfold utf8.DecodeLastRuneInString.
    assert (Hn : (1 <= length t)%nat) by (destruct t; simpl; [easy|lia]).
    destruct (Z.of_nat (length t) =? 0) eqn:E0; [lia|].
    destruct (_ <? utf8.RuneSelf); [intros [= _ <-]; lia|].
    set (start := Z.max 0 _).
    assert (Hstart : start <= Z.of_nat (length t) - 1).
    { subst start. apply Z.max_lub; [lia|].
      unfold utf8.UTFMax. cbn [utf8.backToRuneStart].
      repeat match goal with |- context [if ?c then _ else _] =>
        destruct c end; lia. }
    destruct (utf8.DecodeRuneInString _) as [r1 n1].
    destruct (start + Z.of_nat n1 =? Z.of_nat (length t)) eqn:E1;
      intros [= _ <-]; lia. }
  apply Hsz in E; [|discriminate].
  unfold upto. rewrite length_firstn. simpl length.
  destruct size as [|l]; lia.
Qed.

(** [strings.TrimLeftFunc] *)
Definition TrimLeftFunc (s : gostring) (f : Z -> bool) : gostring :=
  let i := indexFunc s f false in
  if i =? -1 then [] else from (Z.to_nat i) s.

(** [strings.TrimRightFunc] *)
Definition TrimRightFunc (s : gostring) (f : Z -> bool) : gostring :=
  let i := lastIndexFunc s f false in
  let i :=
    if (0 <=? i) && (utf8.RuneSelf <=? byteZ (at_ s i)) then
      let '(_, wid) := utf8.DecodeRuneInString (from (Z.to_nat i) s) in
      i + Z.of_nat wid
    else i + 1 in
  upto (Z.to_nat i) s.

(** [strings.TrimFunc] *)
Definition TrimFunc (s : gostring) (f : Z -> bool) : gostring :=
  TrimRightFunc (TrimLeftFunc s f) f.

(** [strings.TrimSpace]: [TrimFunc(s, unicode.IsSpace)]; the loops over
    leading and trailing ASCII bytes that newer releases run first return
    the same substring. *)
Definition TrimSpace (s : gostring) : gostring := TrimFunc s unicode.IsSpace.

(** [strings.Map], with the variable that the closure [mapping] captures
    made an explicit state [st]: every rune of [s] (an invalid byte reads
    as [RuneError]) is mapped in order; a negative result is dropped, any
    other is written in UTF-8. *)
Fixpoint MapState {St : Type} (mapping : St -> Z -> St * Z) (st : St)
  (skip : nat) (s : gostring) : gostring :=
  match s with
  | [] => []
  | _ :: s' =>
    match skip with
    | S k => MapState mapping st k s'
    | O =>
      let '(c, width) := utf8.DecodeRuneInString s in
      let '(st', r) := mapping st c in
      (if 0 <=? r then utf8.EncodeRune r else [])
      ++ MapState mapping st' (width - 1) s'
    end
  end.

Definition Map (mapping : Z -> Z) (s : gostring) : gostring :=
  MapState (fun (_ : unit) r => (tt, mapping r)) tt 0 s.

(** [strings.ToLower]: [Map(unicode.ToLower, s)]. *)
Definition ToLower `{unicode.Tables} (s : gostring) : gostring :=
  Map unicode.ToLower s.

(** [isSeparator]: ASCII letters, digits and the underscore are not
    separators, every other ASCII character is; above ASCII, letters and
    digits are not, spaces are. *)
Definition isSeparator `{unicode.Tables} (r : Z) : bool :=
  if r <=? 0x7F then
    if (0x30 <=? r) && (r <=? 0x39) then false
    else if (0x61 <=? r) && (r <=? 0x7A) then false
    else if (0x41 <=? r) && (r <=? 0x5A) then false
    else if r =? 0x5F then false
    else true
  else if unicode.IsLetter r || unicode.IsDigit r then false
  else unicode.IsSpace r.

(** [strings.Title]: [prev := ' '; Map(func(r) { if isSeparator(prev)
    { prev = r; return unicode.ToTitle(r) }; prev = r; return r }, s)]. *)
Definition Title `{unicode.Tables} (s : gostring) : gostring :=
  MapState (fun prev r =>
              if isSeparator prev then (r, unicode.ToTitle r) else (r, r))
           0x20 0 s.

End strings.

Arguments strings.Index s substr%_char.
Arguments strings.Split s sep%_char.
Arguments strings.Replace s (old new)%_char n%_Z.

(** ** path/filepath, on a Unix system

    [Separator] is ['/'], there are no volume names and [FromSlash] is the
    identity. *)

Module filepath.

Definition Separator : ascii := "/"%char.

(** [os.IsPathSeparator] *)
Definition IsPathSeparator (c : ascii) : bool := Ascii.eqb c Separator.

(** The loop [for w > dotdot && !os.IsPathSeparator(out.index(w)) { w-- }]
    of [Clean]. *)
Fixpoint backtrack (out : gostring) (dotdot w : nat) : nat :=
  match w with
  | O => O
  | S w' =>
    if (dotdot <? w)%nat && negb (IsPathSeparator (at_ out (Z.of_nat w)))
    then backtrack out dotdot w'
    else w
  end.

(** The [..] case of [Clean]: the buffer and [dotdot] after it. *)
Definition cleanDotDot (rooted : bool) (out : gostring) (dotdot : nat)
  : gostring * nat :=
  if (dotdot <? length out)%nat then
    (upto (backtrack out dotdot (length out - 1)) out, dotdot)
  else if negb rooted then
    let out := if (0 <? length out)%nat then out ++ [Separator] else out in
    let out := out ++ ["."%char; "."%char] in
    (out, length out)
  else (out, dotdot).

(** The main loop of [Clean] over the unread part [path[r:]]; [out] is the
    buffer written so far and [copying] says that the loop which copies a
    path element is running. *)
Fixpoint cleanLoop (rooted copying : bool) (out : gostring) (dotdot : nat)
  (rest : gostring) : gostring :=
  match rest with
  | [] => out
  | c :: rest' =>
    let element :=
      let out :=
        if rooted && negb (length out =? 1)%nat
           || negb rooted && negb (length out =? 0)%nat
        then out ++ [Separator] else out in
      cleanLoop rooted true (out ++ [c]) dotdot rest' in
    if copying then
      if IsPathSeparator c then cleanLoop rooted false out dotdot rest'
      else cleanLoop rooted true (out ++ [c]) dotdot rest'
    else if IsPathSeparator c then cleanLoop rooted false out dotdot rest'
    else if Ascii.eqb c "." then
      match rest' with
      | [] => cleanLoop rooted false out dotdot rest'
      | c1 :: rest'' =>
        if IsPathSeparator c1 then cleanLoop rooted false out dotdot rest'
        else if Ascii.eqb c1 "."
                && match rest'' with
                   | [] => true
                   | c2 :: _ => IsPathSeparator c2
                   end
        then
          let '(out, dotdot) := cleanDotDot rooted out dotdot in
          cleanLoop rooted false out dotdot rest''
        else element
      end
    else element
  end.

(** [filepath.Clean] *)
Definition Clean (path : gostring) : gostring :=
  match path with
  | [] => "."
  | c :: _ =>
    let rooted := IsPathSeparator c in
    let out :=
      if rooted then cleanLoop rooted false [Separator] 1 (from 1 path)
      else cleanLoop rooted false [] 0 path in
    if (length out =? 0)%nat then "." else out
  end.

(** [for n > 0 && os.IsPathSeparator(path[n-1]) { n-- }] *)
Fixpoint stripTrailingSeparators (path : gostring) (n : nat) : nat :=
  match n with
  | O => O
  | S n' =>
    if IsPathSeparator (at_ path (Z.of_nat n'))
    then stripTrailingSeparators path n' else n
  end.

(** [i := n - 1; for i >= 0 && !os.IsPathSeparator(path[i]) { i-- }]; the
    result is [i + 1]. *)
Fixpoint afterLastSeparator (path : gostring) (n : nat) : nat :=
  match n with
  | O => O
  | S n' =>
    if IsPathSeparator (at_ path (Z.of_nat n'))
    then n else afterLastSeparator path n'
  end.

(** [filepath.Base] *)
Definition Base (path : gostring) : gostring :=
  if gostring_eqb path "" then "."
  else
    let path := upto (stripTrailingSeparators path (length path)) path in
    let path := from (afterLastSeparator path (length path)) path in
    if gostring_eqb path "" then [Separator] else path.

(** [filepath.Dir] *)
Definition Dir (path : gostring) : gostring :=
  Clean (upto (afterLastSeparator path (length path)) path).

(** [filepath.Join] *)
Fixpoint Join (elem : list gostring) : gostring :=
  match elem with
  | [] => ""
  | e :: rest =>
    if gostring_eqb e "" then Join rest
    else Clean (strings.Join elem [Separator])
  end.

End filepath.

(** ** The program: [cmd/specialize/main.go] *)

(** The structs handed to the template.  A slice of pointers such as
    [[]*Y] is a list of the structs pointed to: nothing writes to them
    after they are built, so a slice that several parents share is the
    same list in each of them. *)
Module Tmpl.

Record Z := { Z_Name : gostring; Z_Type : gostring }.

Record Y := { Y_Name : gostring; Y_Type : gostring; Y_Z : list Z }.

Record X := { X_Name : gostring; X_Type : gostring; X_Y : list Y }.

Record Top := { Top_Name : gostring; Top_X : list X }.

End Tmpl.

(** The command line flags. *)
Record Flags := {
  x : gostring;
  y : gostring;
  z : gostring;
  input : gostring;
  output : gostring
}.

(** What [main] has reached when it hands over to [text/template]:
    [log.Fatalf] with its message, or the output path and the value the
    template is executed with. *)
Inductive Outcome :=
| Fatalf (msg : gostring)
| Execute (output : gostring) (top : Tmpl.Top).

(** [var macros = map[string][]string{...}], as the list of its entries. *)
Definition macros : list (gostring * list gostring) :=
  [ ("integers" : gostring,
     ["int" : gostring; "int8" : gostring; "int16" : gostring;
      "int32" : gostring; "int64" : gostring; "uint" : gostring;
      "uint8" : gostring; "uint16" : gostring; "uint32" : gostring;
      "uint64" : gostring]);
    ("floats" : gostring, ["float32" : gostring; "float64" : gostring]) ].

(** The map index expression [exp, ok := m[key]]. *)
Fixpoint lookup (m : list (gostring * list gostring)) (key : gostring)
  : option (list gostring) :=
  match m with
  | [] => None
  | (k, v) :: m' => if gostring_eqb k key then Some v else lookup m' key
  end.

(** The number of times [t] starts with ["[]"] over again. *)
Fixpoint slicePrefixes (t : gostring) : nat :=
  match t with
  | c0 :: c1 :: t' =>
    if Ascii.eqb c0 "[" && Ascii.eqb c1 "]" then S (slicePrefixes t') else O
  | _ => O
  end.

Section Specialize.

Context {U : unicode.Tables}.

(** One round of the loop of [expand]: [ret] after the piece [xt]. *)
Definition expandPiece (ret : list gostring) (xt : gostring)
  : list gostring :=
  let xt := strings.TrimSpace xt in
  if gostring_eqb xt "" then ret
  else
    match lookup macros (strings.ToLower xt) with
    | Some exp => fold_left (fun ret t => ret ++ [t]) exp ret
    | None => ret ++ [xt]
    end.

(** [expand] parses, cleans up and expands macros for a comma-separated
    list. *)
Definition expand (list : gostring) : Datatypes.list gostring :=
  fold_left expandPiece (strings.Split list ",") [].

(** [makeName] creates a capitalized identifier from a type.  The
    recursive call is not on a part of [t]; it is accepted because
    [slicePrefixes] decreases. *)
Equations? makeName (t : gostring) : gostring by wf (slicePrefixes t) lt :=
  makeName t with inspect (strings.HasPrefix t "[]") := {
    | exist _ true E := makeName (from 2 t ++ go "Slice");
    | exist _ false E :=
      let t := strings.Replace t "." "_" (-1) in
      let t := strings.Replace t "[" "_" (-1) in
      let t := strings.Replace t "]" "_" (-1) in
      strings.Title t }.
Proof.
  assert (Happ : forall n (u : gostring), (length u <= n)%nat ->
             slicePrefixes (u ++ go "Slice") = slicePrefixes u).
  { induction n as [|n IH]; intros u Hu.
    - destruct u; [reflexivity|simpl in Hu; lia].
    - destruct u as [|c1 [|c2 u]]; [reflexivity| |].
      + simpl. now rewrite andb_false_r.
      + simpl in *. destruct (_ && _); [|reflexivity].
        f_equal. apply IH. lia. }
  unfold strings.HasPrefix in E.
  destruct t as [|c1 [|c2 t]]; try discriminate.
  simpl in E. rewrite andb_true_r in E.
  unfold from. simpl skipn. rewrite (Happ (length t)) by lia.
  simpl. rewrite E. lia.
Qed.

(** [makeName] with its calls counted: [None] when [fuel] calls were not
    enough to reach the [return] of the last line. *)
Fixpoint makeNameWithin (fuel : nat) (t : gostring) : option gostring :=
  match fuel with
  | O => None
  | S fuel' =>
    if strings.HasPrefix t "[]"
    then makeNameWithin fuel' (from 2 t ++ go "Slice")
    else
      let t := strings.Replace t "." "_" (-1) in
      let t := strings.Replace t "[" "_" (-1) in
      let t := strings.Replace t "]" "_" (-1) in
      Some (strings.Title t)
  end.

(** Lines 92 to 95 of [main]: the base form of the file name. *)
Definition baseName (input : gostring) : gostring :=
  let name := filepath.Base input in
  let index := strings.Index name "." in
  if 0 <? index then upto (Z.to_nat index) name else name.

(** Lines 100 to 115 of [main]: the value passed to the template. *)
Definition build (name x y z : gostring) : Tmpl.Top :=
  let ys :=
    if negb (gostring_eqb y "") then
      let zs :=
        if negb (gostring_eqb z "") then
          map (fun zt => {| Tmpl.Z_Name := makeName zt; Tmpl.Z_Type := zt |})
              (expand z)
        else [] in
      map (fun yt => {| Tmpl.Y_Name := makeName yt; Tmpl.Y_Type := yt;
                        Tmpl.Y_Z := zs |})
          (expand y)
    else [] in
  {| Tmpl.Top_Name := name;
     Tmpl.Top_X :=
       map (fun xt => {| Tmpl.X_Name := makeName xt; Tmpl.X_Type := xt;
                         Tmpl.X_Y := ys |})
           (expand x) |}.

(** [main], up to the call of the template engine. *)
Definition main (flags : Flags) : Outcome :=
  if gostring_eqb (input flags) "" then Fatalf "no template file"
  else if gostring_eqb (x flags) "" then Fatalf "no specialization types"
  else
    let name := baseName (input flags) in
    let output :=
      if gostring_eqb (output flags) ""
      then filepath.Join [filepath.Dir (input flags); name ++ go ".go"]
      else output flags in
    Execute output (build name (x flags) (y flags) (z flags)).

End Specialize.

(** ** The effects of [main]

    What [main] does once the flags are parsed, as a function of the
    world it runs in: the name the program was called by, the text that
    [flag.PrintDefaults] prints, and the outcomes of the three calls
    that leave the program, [template.ParseFiles], [Template.Execute] and
    [ioutil.WriteFile]. *)

(** The new line that Go writes [\n]. *)
Definition newline : ascii := "010"%char.

(** The mode [0644]. *)
Definition mode0644 : Z := 6 * 64 + 4 * 8 + 4.

Record World := {
  Template : Type;
  (** [os.Args[0]] *)
  Args0 : gostring;
  (** the text of [flag.PrintDefaults()] *)
  Defaults : gostring;
  (** [template.ParseFiles(filename)]: the template or the error *)
  ParseFiles : gostring -> Template + gostring;
  (** [tmpl.Execute(&buf, top)]: what is written to the buffer, and the
      error if there is one *)
  ExecuteTemplate : Template -> Tmpl.Top -> gostring * option gostring;
  (** [ioutil.WriteFile(filename, data, perm)]: the error if there is
      one *)
  WriteFile : gostring -> gostring -> Z -> option gostring
}.

(** A call of [ioutil.WriteFile]. *)
Record FileWrite := {
  Filename : gostring;
  Data : gostring;
  Perm : Z
}.

(** A run of the program: what it wrote on standard error, its calls of
    [ioutil.WriteFile] and its exit status. *)
Record Run := {
  Stderr : gostring;
  Writes : list FileWrite;
  Status : Z
}.

(** [usage]: the line of [fmt.Fprintf], then [flag.PrintDefaults()]. *)
Definition usage (w : World) : gostring :=
  go "Usage: " ++ filepath.Base (Args0 w)
  ++ go " [options] --input=<filename.tmpl --x=<types>" ++ [newline]
  ++ Defaults w.

(** The line that the logger writes after [log.SetFlags(0)] and
    [log.SetPrefix("specialize: ")]: the prefix, the message, and a new
    line unless the message ends with one. *)
Definition logLine (msg : gostring) : gostring :=
  go "specialize: " ++ msg
  ++ (if (length msg =? 0)%nat
         || negb (Ascii.eqb (at_ msg (Z.of_nat (length msg) - 1)) newline)
      then [newline] else []).

(** [log.Fatalf]: the line is written and the program exits with status
    1; [before] is what standard error already holds and [writes] the
    calls of [ioutil.WriteFile] so far. *)
Definition fatal (before msg : gostring) (writes : list FileWrite) : Run :=
  {| Stderr := before ++ logLine msg; Writes := writes; Status := 1 |}.

(** The first line of every generated file. *)
Definition header : gostring :=
  go "// File generated by specialize. Do not edit." ++ [newline; newline].

Section Effects.

Context {U : unicode.Tables}.

(** [main] from its first line to its last. *)
Definition run (w : World) (flags : Flags) : Run :=
  match main flags with
  | Fatalf msg => fatal (usage w) msg []
  | Execute output top =>
    match ParseFiles w (input flags) with
    | inr err => fatal [] (go "template parse failed: " ++ err) []
    | inl tmpl =>
      let '(text, err) := ExecuteTemplate w tmpl top in
      let buf := header ++ text in
      match err with
      | Some err => fatal [] (go "specialization failed: " ++ err) []
      | None =>
        let file := {| Filename := output; Data := buf; Perm := mode0644 |} in
        match WriteFile w output buf mode0644 with
        | Some err => fatal [] (go "write failed: " ++ err) [file]
        | None => {| Stderr := []; Writes := [file]; Status := 0 |}
        end
      end
    end
  end.

End Effects.

(** ** Notions used in the statements and proofs *)

(** [s] does not start in the middle of a UTF-8 sequence: it is empty or
    its first byte is not a continuation byte. *)
Definition atRuneStart (s : gostring) : Prop :=
  match s with
  | [] => True
  | c :: _ => ~ (0x80 <= byteZ c < 0xC0)
  end.

(** The pieces of a comma-separated list once each is trimmed and the
    empty ones are dropped. *)
Definition cleanPieces (list : gostring) : Datatypes.list gostring :=
  filter (fun piece => negb (gostring_eqb piece ""))
         (map strings.TrimSpace (strings.Split list ",")).

(** The number of Z entries under a tree, counted along every branch. *)
Definition zLeaves (top : Tmpl.Top) : nat :=
  list_sum
    (map (fun xe =>
            list_sum (map (fun ye => length (Tmpl.Y_Z ye)) (Tmpl.X_Y xe)))
         (Tmpl.Top_X top)).

(** The output path of an [Outcome]. *)
Definition outputPath (o : Outcome) : option gostring :=
  match o with
  | Fatalf _ => None
  | Execute output _ => Some output
  end.

(** A file name stripped at its extensions: what comes before its first
    dot. *)
Fixpoint stripExtensions (base : gostring) : gostring :=
  match base with
  | [] => []
  | c :: rest =>
    if Ascii.eqb c "." then [] else c :: stripExtensions rest
  end.

(** A path element that [Clean] copies as it is: a non-empty name
    without separator, other than [.] and [..]. *)
Definition pathElement (name : gostring) : Prop :=
  name <> []
  /\ (forall c, In c name -> c <> filepath.Separator)
  /\ name <> go "." /\ name <> go "..".

(** [Clean] writes a separator before an element unless the buffer holds
    nothing yet, or only the leading separator of a rooted path. *)
Definition withSeparator (rooted : bool) (out : gostring) : gostring :=
  if rooted && negb (length out =? 1)%nat
     || negb rooted && negb (length out =? 0)%nat
  then out ++ [filepath.Separator] else out.

(** In a rooted path the buffer of [Clean] keeps its leading separator,
    below which [..] does not go. *)
Definition rootedBuffer (rooted : bool) (out : gostring) (dotdot : nat)
  : Prop :=
  rooted = true -> dotdot = 1%nat /\ exists o, out = filepath.Separator :: o.

Section Notions.

Context {U : unicode.Tables}.

(** What [makeName] returns for a type that does not start with ["[]"]:
    the last four lines of the function. *)
Definition capitalize (t : gostring) : gostring :=
  strings.Title
    (strings.Replace
       (strings.Replace (strings.Replace t "." "_" (-1)) "[" "_" (-1))
       "]" "_" (-1)).

(** The entries of the cartesian product of three lists of types: one Z
    entry for each type of [z]; one Y entry for each type of [y], each
    with all the Z entries; one X entry for each type of [x], each with
    all the Y entries. *)
Definition zEntries (z : gostring) : list Tmpl.Z :=
  map (fun zt => {| Tmpl.Z_Name := makeName zt; Tmpl.Z_Type := zt |})
      (expand z).

Definition yEntries (y z : gostring) : list Tmpl.Y :=
  map (fun yt => {| Tmpl.Y_Name := makeName yt; Tmpl.Y_Type := yt;
                    Tmpl.Y_Z := zEntries z |})
      (expand y).

Definition xEntries (x y z : gostring) : list Tmpl.X :=
  map (fun xt => {| Tmpl.X_Name := makeName xt; Tmpl.X_Type := xt;
                    Tmpl.X_Y := yEntries y z |})
      (expand x).

End Notions.

(** The bytes of an ASCII identifier: letters, digits and the
    underscore. *)
Definition identByte (c : ascii) : bool :=
  let r := byteZ c in
  ((0x30 <=? r) && (r <=? 0x39)) || ((0x41 <=? r) && (r <=? 0x5A))
  || ((0x61 <=? r) && (r <=? 0x7A)) || (r =? 0x5F).

(** An ASCII letter in upper case, any other byte as it is. *)
Definition upperByte (c : ascii) : ascii :=
  let r := byteZ c in
  if (0x61 <=? r) && (r <=? 0x7A) then byte (r - 0x20) else c.

(** [s] with the letters at the places marked in [mask] in upper case. *)
Fixpoint withCase (mask : list bool) (s : gostring) : gostring :=
  match mask, s with
  | upper :: mask', c :: s' =>
    (if upper then upperByte c else c) :: withCase mask' s'
  | _, _ => s
  end.

(** A name that can be part of an identifier: not empty and free of the
    characters that [makeName] replaces. *)
Definition identifierSafe (name : gostring) : Prop :=
  name <> []
  /\ ~ In "."%char name /\ ~ In "["%char name /\ ~ In "]"%char name.

(** A byte, and a rune, other than ['.'], ['['] and [']']. *)
Definition plainByte (c : ascii) : Prop :=
  c <> "."%char /\ c <> "["%char /\ c <> "]"%char.

Definition plainRune (r : Z) : Prop :=
  0 <= r <= utf8.MaxRune /\ r <> 0x2E /\ r <> 0x5B /\ r <> 0x5D.

(** What the statements about arbitrary type expressions need of the
    title-case table: the title case of a code point above ASCII is a
    code point, and none of ['.'], ['['] and [']']. *)
Definition titleCaseOfRunes (U : unicode.Tables) : Prop :=
  forall r : Z,
    0x7F < r <= utf8.MaxRune ->
    plainRune (unicode.To unicode.TitleCase r).

(** The tables cut down to Latin-1: the case pairs and the letters of
    U+0080 to U+00FF; every rune above is left alone.  They serve as the
    concrete tables of the examples. *)
Definition latin1Tables : unicode.Tables := {|
  unicode.To := fun c r =>
    match c with
    | unicode.LowerCase =>
      if (0xC0 <=? r) && (r <=? 0xDE) && negb (r =? 0xD7) then r + 0x20
      else r
    | _ =>
      if r =? 0xB5 then 0x39C
      else if r =? 0xFF then 0x178
      else if (0xE0 <=? r) && (r <=? 0xFE) && negb (r =? 0xF7)
      then r - 0x20
      else r
    end;
  unicode.IsLetter := fun r =>
    ((0x41 <=? r) && (r <=? 0x5A)) || ((0x61 <=? r) && (r <=? 0x7A))
    || (r =? 0xAA) || (r =? 0xB5) || (r =? 0xBA)
    || ((0xC0 <=? r) && (r <=? 0xFF) && negb (r =? 0xD7)
        && negb (r =? 0xF7));
  unicode.IsDigit := fun r => (0x30 <=? r) && (r <=? 0x39)
|}.

(** The white space of ASCII: tab, line feed, vertical tab, form feed,
    carriage return and space. *)
Definition asciiSpace (c : ascii) : bool :=
  let r := byteZ c in
  (r =? 0x09) || (r =? 0x0A) || (r =? 0x0B) || (r =? 0x0C) || (r =? 0x0D)
  || (r =? 0x20).

(** What a trimmed, non-empty piece of a list stands for: the types of
    the macro it names, or itself. *)
Definition macroOrType `{unicode.Tables} (piece : gostring)
  : list gostring :=
  match lookup macros (strings.ToLower piece) with
  | Some exp => exp
  | None => [piece]
  end.

(** ["Slice"] written [n] times. *)
Fixpoint slices (n : nat) : gostring :=
  match n with
  | O => []
  | S n' => go "Slice" ++ slices n'
  end.

(** The bytes of the type expressions that [makeName] turns into
    identifiers: those of an identifier, the dot of a qualified name and
    the brackets of slices, arrays and maps. *)
Definition typeByte (c : ascii) : bool :=
  identByte c || Ascii.eqb c "." || Ascii.eqb c "[" || Ascii.eqb c "]".

(** The three replacements of [makeName] on one byte. *)
Definition underscore (c : ascii) : ascii :=
  if Ascii.eqb c "." || Ascii.eqb c "[" || Ascii.eqb c "]" then "_"%char
  else c.

(** An ASCII byte that [makeName] has no reason to touch: not one of the
    three it replaces and not a lower-case letter. *)
Definition keptByte (c : ascii) : bool :=
  let r := byteZ c in
  (r <? 0x80) && negb ((0x61 <=? r) && (r <=? 0x7A))
  && negb (Ascii.eqb c "." || Ascii.eqb c "[" || Ascii.eqb c "]").

(** [strings.Title] on ASCII bytes: the first byte of every word in
    upper case, a word being a run of letters, digits and underscores;
    [start] says that a word starts here. *)
Fixpoint titleBytes (start : bool) (s : gostring) : gostring :=
  match s with
  | [] => []
  | c :: s' =>
    (if start then upperByte c else c) :: titleBytes (negb (identByte c)) s'
  end.

(** The states of the buffer of [Clean] between two path elements: the
    root in a rooted path; in another path nothing, one [..] after the
    other as long as there is no element to go back over, and from then
    on the elements that were kept, each after a separator. *)
Inductive cleanState : bool -> gostring -> nat -> Prop :=
| cleanState_root : cleanState true [filepath.Separator] 1
| cleanState_empty : cleanState false [] 0
| cleanState_dotdot (out : gostring) :
    cleanState false out (length out) ->
    cleanState false
      ((if (0 <? length out)%nat then out ++ [filepath.Separator] else out)
       ++ ["."%char; "."%char])
      (length
         ((if (0 <? length out)%nat then out ++ [filepath.Separator]
           else out)
          ++ ["."%char; "."%char]))
| cleanState_element (rooted : bool) (out : gostring) (dotdot : nat)
    (name : gostring) :
    cleanState rooted out dotdot -> pathElement name ->
    cleanState rooted (withSeparator rooted out ++ name) dotdot.

(** What is left to read is nothing or begins with a separator: the
    element before it is complete. *)
Definition atElementEnd (rest : gostring) : Prop :=
  rest = [] \/ exists rest', rest = filepath.Separator :: rest'.

(** The buffer and the part of the path that [Clean] starts with. *)
Definition cleanStart (rooted : bool) : gostring :=
  if rooted then [filepath.Separator] else [].

Definition cleanBody (rooted : bool) (path : gostring) : gostring :=
  if rooted then from 1 path else path.

(** A world in which no file can be opened. *)
Definition noFiles : World := {|
  Template := unit;
  Args0 := "/usr/local/bin/specialize";
  Defaults := "";
  ParseFiles := fun filename =>
    inr (go "open " ++ filename ++ go ": no such file or directory");
  ExecuteTemplate := fun _ _ => ([], None);
  WriteFile := fun filename _ _ =>
    Some (go "open " ++ filename ++ go ": permission denied")
|}.


(** * Properties *)

(** ** Bytes *)

Lemma byteZ_range (c : ascii) : 0 <= byteZ c < 256.
Proof.
  unfold byteZ. pose proof (N_ascii_bounded c). lia.
Qed.

Lemma byte_byteZ (c : ascii) : byte (byteZ c) = c.
Proof.
  unfold byte. pose proof (byteZ_range c) as H.
  rewrite Z.mod_small by lia. unfold byteZ.
  rewrite N2Z.id. apply ascii_N_embedding.
Qed.

Lemma byteZ_byte (r : Z) : byteZ (byte r) = r mod 256.
Proof.
  unfold byte, byteZ.
  assert (H : 0 <= r mod 256 < 256) by (apply Z.mod_pos_bound; lia).
  rewrite N_ascii_embedding by lia. lia.
Qed.

Lemma byteZ_inj (a b : ascii) : byteZ a = byteZ b -> a = b.
Proof.
  intros H. rewrite <- (byte_byteZ a), <- (byte_byteZ b). now rewrite H.
Qed.

Lemma gostring_eqb_eq (s t : gostring) : gostring_eqb s t = true <-> s = t.
Proof.
  revert t. induction s as [|a s IH]; intros [|b t]; simpl;
    try (split; [discriminate|discriminate]); [tauto|].
  rewrite andb_true_iff, Ascii.eqb_eq, IH.
  split; [intros [-> ->]; reflexivity|intros [= -> ->]; auto].
Qed.

Lemma gostring_eqb_neq (s t : gostring) : gostring_eqb s t = false <-> s <> t.
Proof.
  rewrite <- gostring_eqb_eq. destruct (gostring_eqb s t); split;
    congruence.
Qed.

Lemma lor_lower (a b : Z) : 0 <= b -> a <= Z.lor a b.
Proof.
  intros Hb. pose proof (Zbitwise.Z.sub_lor_l_same_l b a) as H.
  assert (0 <= Z.land b (Z.lnot a)) by (apply Z.land_nonneg; auto).
  lia.
Qed.

(** ** UTF-8 *)

(** Case analysis on the row of [utf8.first] that a byte falls in. *)
Ltac first_row s0 :=
  unfold utf8.first;
  repeat match goal with
  | |- context [s0 <? ?k] => destruct (Z.ltb_spec s0 k); try lia
  | |- context [s0 =? ?k] => destruct (Z.eqb_spec s0 k); try lia
  end.

Ltac decode_consts :=
  cbv [utf8.as_ utf8.xx utf8.s1 utf8.s2 utf8.s3 utf8.s4 utf8.s5 utf8.s6
       utf8.s7 utf8.locb utf8.hicb utf8.acceptRanges utf8.RuneError
       utf8.maskx utf8.mask2 utf8.mask3 utf8.mask4].

(** Evaluates the tests and the bit operations between literals. *)
Ltac eval_closed :=
  repeat match goal with
  | |- context [Z.land (Zpos ?p) (Zpos ?q)] =>
    let v := eval vm_compute in (Z.land (Zpos p) (Zpos q)) in
    change (Z.land (Zpos p) (Zpos q)) with v
  | |- context [Z.shiftr (Zpos ?p) (Zpos ?q)] =>
    let v := eval vm_compute in (Z.shiftr (Zpos p) (Zpos q)) in
    change (Z.shiftr (Zpos p) (Zpos q)) with v
  end;
  repeat match goal with
  | |- context [?a <=? ?b] =>
    let v := eval vm_compute in (a <=? b) in
    match v with true => idtac | false => idtac end;
    change (a <=? b) with v
  | |- context [?a =? ?b] =>
    let v := eval vm_compute in (a =? b) in
    match v with true => idtac | false => idtac end;
    change (a =? b) with v
  end;
  cbv beta iota.

Ltac decode_cases c0 rest :=
  unfold utf8.DecodeRuneInString;
  let s0 := fresh "s0" in
  let n := fresh "n" in
  let Hs0 := fresh "Hs0" in
  let Es0 := fresh "Es0" in
  let En := fresh "En" in
  pose proof (byteZ_range c0) as Hs0;
  remember (byteZ c0) as s0 eqn:Es0;
  remember (Z.of_nat (length (c0 :: rest))) as n eqn:En;
  first_row s0; decode_consts; eval_closed.

Ltac split_ifs :=
  repeat match goal with
  | |- context [if ?c then _ else _] => destruct c eqn:?
  end.

Lemma decode_width (s : gostring) :
  s <> [] ->
  (1 <= snd (utf8.DecodeRuneInString s) <= 4)%nat.
Proof.
  destruct s as [|c0 rest]; [congruence|intros _].
  decode_cases c0 rest; split_ifs; simpl; lia.
Qed.

Lemma decode_ascii (c0 : ascii) (rest : gostring) :
  byteZ c0 < 0x80 ->
  utf8.DecodeRuneInString (c0 :: rest) = (byteZ c0, 1%nat).
Proof.
  intros H. decode_cases c0 rest; try lia. congruence.
Qed.

Lemma decode_continuation_first (c0 : ascii) (rest : gostring) :
  0x80 <= byteZ c0 < 0xC0 ->
  utf8.DecodeRuneInString (c0 :: rest) = (utf8.RuneError, 1%nat).
Proof.
  intros H. decode_cases c0 rest; try lia. reflexivity.
Qed.

Lemma at_app (t q : gostring) (i : Z) :
  0 <= i < Z.of_nat (length t) -> at_ (t ++ q) i = at_ t i.
Proof.
  intros H. unfold at_. apply app_nth1. lia.
Qed.

Lemma decode_prefix (t q : gostring) :
  t <> [] ->
  utf8.DecodeRuneInString (t ++ q) = utf8.DecodeRuneInString t
  \/ utf8.DecodeRuneInString t = (utf8.RuneError, 1%nat).
Proof.
  destruct t as [|c0 rest]; [congruence|intros _].
  rewrite <- app_comm_cons.
  assert (H1 : 1 < Z.of_nat (length (c0 :: rest)) ->
               at_ (c0 :: rest ++ q) 1 = at_ (c0 :: rest) 1).
  { intros. rewrite app_comm_cons. apply at_app. lia. }
  assert (H2 : 2 < Z.of_nat (length (c0 :: rest)) ->
               at_ (c0 :: rest ++ q) 2 = at_ (c0 :: rest) 2).
  { intros. rewrite app_comm_cons. apply at_app. lia. }
  assert (H3 : 3 < Z.of_nat (length (c0 :: rest)) ->
               at_ (c0 :: rest ++ q) 3 = at_ (c0 :: rest) 3).
  { intros. rewrite app_comm_cons. apply at_app. lia. }
  assert (Hn : Z.of_nat (length (c0 :: rest))
               <= Z.of_nat (length (c0 :: rest ++ q))).
  { rewrite app_comm_cons, length_app. lia. }
  revert H1 H2 H3 Hn.
  unfold utf8.DecodeRuneInString.
  generalize (Z.of_nat (length (c0 :: rest ++ q))).
  generalize (Z.of_nat (length (c0 :: rest))).
  generalize (at_ (c0 :: rest ++ q) 1), (at_ (c0 :: rest ++ q) 2),
    (at_ (c0 :: rest ++ q) 3).
  generalize (at_ (c0 :: rest) 1), (at_ (c0 :: rest) 2),
    (at_ (c0 :: rest) 3).
  intros b1 b2 b3 b1' b2' b3' n n' H1 H2 H3 Hn.
  pose proof (byteZ_range c0) as Hs0.
  remember (byteZ c0) as s0 eqn:Es0.
  first_row s0; decode_consts; eval_closed.
  all: try (left; reflexivity).
  all: match goal with _ : ?m <= ?m' |- context [?m <? ?k] =>
         destruct (Z.ltb_spec m k); [right; reflexivity|];
         destruct (Z.ltb_spec m' k); [lia|] end.
  all: rewrite H1 by lia.
  all: destruct (_ || _); [left; reflexivity|]; try (left; reflexivity).
  all: rewrite H2 by lia.
  all: destruct (_ || _); [left; reflexivity|]; try (left; reflexivity).
  all: rewrite H3 by lia.
  all: left; reflexivity.
Qed.

Ltac bool_hyps :=
  repeat match goal with
  | H : _ || _ = false |- _ => apply orb_false_elim in H; destruct H
  | H : _ || _ = true |- _ => apply orb_true_iff in H; destruct H
  | H : _ && _ = true |- _ => apply andb_true_iff in H; destruct H
  | H : _ && _ = false |- _ => apply andb_false_iff in H; destruct H
  | H : negb _ = true |- _ => apply negb_true_iff in H
  | H : negb _ = false |- _ => apply negb_false_iff in H
  | H : (_ <? _) = false |- _ => apply Z.ltb_ge in H
  | H : (_ <? _) = true |- _ => apply Z.ltb_lt in H
  | H : (_ <=? _) = false |- _ => apply Z.leb_gt in H
  | H : (_ <=? _) = true |- _ => apply Z.leb_le in H
  | H : (_ =? _) = false |- _ => apply Z.eqb_neq in H
  | H : (_ =? _) = true |- _ => apply Z.eqb_eq in H
  end.

Lemma decode_multibyte (s : gostring) (r : Z) (w : nat) :
  utf8.DecodeRuneInString s = (r, w) ->
  (2 <= w)%nat ->
  (w <= length s)%nat
  /\ 0xC2 <= byteZ (at_ s 0)
  /\ 0x80 <= byteZ (at_ s 1) <= 0xBF.
Proof.
  destruct s as [|c0 rest]; [intros [= <- <-]; lia|].
  change (at_ (c0 :: rest) 0) with c0.
  decode_cases c0 rest; split_ifs; intros [= <- <-] Hw; bool_hyps;
    try lia.
Qed.

Lemma lor_bounds (a b : Z) :
  0 <= a -> 0 <= b -> a <= Z.lor a b /\ b <= Z.lor a b.
Proof.
  intros Ha Hb. split; [|rewrite Z.lor_comm]; now apply lor_lower.
Qed.

Ltac lor_facts :=
  repeat match goal with
  | |- context [Z.lor ?a ?b] =>
    lazymatch goal with
    | _ : 0 <= a -> 0 <= b -> a <= Z.lor a b /\ _ |- _ => fail
    | _ => pose proof (lor_bounds a b)
    end
  end.

Lemma land_low (a : Z) (k : Z) :
  0 <= k -> Z.land a (Z.ones k) = a mod 2 ^ k.
Proof. intros. now apply Z.land_ones. Qed.

Lemma decode_nonascii (c0 : ascii) (rest : gostring) :
  0x80 <= byteZ c0 ->
  0x80 <= fst (utf8.DecodeRuneInString (c0 :: rest)).
Proof.
  intros H0.
  decode_cases c0 rest; split_ifs; bool_hyps; cbn [fst]; try lia.
  all: change 63 with (Z.ones 6); change 31 with (Z.ones 5);
    change 15 with (Z.ones 4); change 7 with (Z.ones 3).
  all: rewrite !land_low, !Z.shiftl_mul_pow2 by lia.
  all: repeat match goal with |- context [2 ^ (Zpos ?k)] =>
         let v := eval vm_compute in (2 ^ (Zpos k)) in
         change (2 ^ (Zpos k)) with v end.
  all: lor_facts; Z.to_euclidean_division_equations; lia.
Qed.

Lemma from_last (s : gostring) :
  s <> [] ->
  from (length s - 1) s = [at_ s (Z.of_nat (length s) - 1)].
Proof.
  intros Hs. destruct (exists_last Hs) as [p [c ->]].
  unfold from, at_. rewrite length_app. simpl length.
  replace (length p + 1 - 1)%nat with (length p) by lia.
  replace (Z.to_nat (Z.of_nat (length p + 1) - 1)) with (length p) by lia.
  rewrite skipn_app, skipn_all, Nat.sub_diag, nth_middle. reflexivity.
Qed.

Lemma backToRuneStart_le (n : nat) (s : gostring) (lim start : Z) :
  utf8.backToRuneStart n s lim start <= start.
Proof.
  revert start. induction n as [|n IH]; intros start; simpl; [lia|].
  destruct (start <? lim); [lia|].
  destruct (utf8.RuneStart _); [lia|].
  specialize (IH (start - 1)). lia.
Qed.

(** The last rune is either the error rune of width one or what
    [DecodeRuneInString] reads in the last [size] bytes. *)
Lemma decodeLast_cases (s : gostring) (r : Z) (size : nat) :
  s <> [] ->
  utf8.DecodeLastRuneInString s = (r, size) ->
  (1 <= size <= length s)%nat
  /\ ((r, size) = (utf8.RuneError, 1%nat)
      \/ utf8.DecodeRuneInString (from (length s - size) s) = (r, size)).
Proof.
  intros Hs. unfold utf8.DecodeLastRuneInString.
  assert (Hn : (1 <= length s)%nat) by (destruct s; simpl; [easy|lia]).
  destruct (Z.of_nat (length s) =? 0) eqn:E0; [lia|].
  destruct (_ <? utf8.RuneSelf) eqn:Easc.
  - intros [= <- <-]. split; [lia|right].
    rewrite from_last by assumption. apply decode_ascii.
    unfold utf8.RuneSelf in Easc. lia.
  - set (start := Z.max 0 _).
    assert (Hstart : 0 <= start <= Z.of_nat (length s) - 1).
    { subst start. split; [lia|]. apply Z.max_lub; [lia|].
      pose proof (backToRuneStart_le utf8.UTFMax s
        (Z.max 0 (Z.of_nat (length s) - Z.of_nat utf8.UTFMax))
        (Z.of_nat (length s) - 1 - 1)). lia. }
    destruct (utf8.DecodeRuneInString _) as [r1 n1] eqn:Ed.
    destruct (start + Z.of_nat n1 =? Z.of_nat (length s)) eqn:E1;
      intros [= <- <-].
    + split; [lia|right].
      replace (length s - n1)%nat with (Z.to_nat start) by lia.
      exact Ed.
    + split; [lia|left; reflexivity].
Qed.

Lemma lor_upper (a b : Z) : 0 <= a -> 0 <= b -> Z.lor a b <= a + b.
Proof.
  intros Ha Hb. pose proof (Zbitwise.Z.add_lor_land a b) as H.
  assert (0 <= Z.land a b) by (apply Z.land_nonneg; auto). lia.
Qed.

Ltac lor_upper_facts :=
  repeat match goal with
  | |- context [Z.lor ?a ?b] =>
    lazymatch goal with
    | _ : 0 <= a -> 0 <= b -> Z.lor a b <= a + b |- _ => fail
    | _ => pose proof (lor_upper a b)
    end
  end.

Lemma decode_range (s : gostring) :
  0 <= fst (utf8.DecodeRuneInString s) <= utf8.MaxRune.
Proof.
  unfold utf8.MaxRune.
  destruct s as [|c0 rest]; [vm_compute; split; congruence|].
  pose proof (byteZ_range (at_ (c0 :: rest) 1)).
  pose proof (byteZ_range (at_ (c0 :: rest) 2)).
  pose proof (byteZ_range (at_ (c0 :: rest) 3)).
  decode_cases c0 rest; split_ifs; bool_hyps; cbn [fst]; try lia.
  all: change 63 with (Z.ones 6); change 31 with (Z.ones 5);
    change 15 with (Z.ones 4); change 7 with (Z.ones 3).
  all: rewrite !land_low, !Z.shiftl_mul_pow2 by lia.
  all: repeat match goal with |- context [2 ^ (Zpos ?k)] =>
         let v := eval vm_compute in (2 ^ (Zpos k)) in
         change (2 ^ (Zpos k)) with v end.
  all: lor_facts; lor_upper_facts; Z.to_euclidean_division_equations; lia.
Qed.

Lemma high_bit (t x : Z) :
  Z.testbit t 7 = true -> 0x80 <= byteZ (byte (Z.lor t x)).
Proof.
  intros Ht. rewrite byteZ_byte.
  assert (Hb : Z.testbit (Z.lor t x) 7 = true)
    by (rewrite Z.lor_spec, Ht; reflexivity).
  apply Z.testbit_true in Hb; [|lia].
  change (2 ^ 7) with 128 in Hb.
  Z.to_euclidean_division_equations; lia.
Qed.

Lemma encode_not_nil (r : Z) : utf8.EncodeRune r <> [].
Proof.
  unfold utf8.EncodeRune. split_ifs; discriminate.
Qed.

Lemma encode_ascii (r : Z) :
  0 <= r < 0x80 -> utf8.EncodeRune r = [byte r].
Proof.
  intros H. unfold utf8.EncodeRune, utf8.rune1Max.
  rewrite Z.mod_small by lia.
  replace (r <=? 127) with true by lia. reflexivity.
Qed.

Lemma encode_high (r : Z) (c : ascii) :
  0x80 <= r < 2 ^ 32 -> In c (utf8.EncodeRune r) -> 0x80 <= byteZ c.
Proof.
  intros H. unfold utf8.EncodeRune, utf8.rune1Max.
  rewrite Z.mod_small by lia.
  replace (r <=? 127) with false by lia.
  split_ifs; cbn [In]; intros Hin;
    repeat (destruct Hin as [<-|Hin];
            [first [now apply high_bit|vm_compute; discriminate]|]);
    destruct Hin.
Qed.

(** ** strings.TrimSpace *)

Lemma indexFunc_from_spec (f : Z -> bool) (truth : bool) (s : gostring) :
  forall (skip : nat) (i : Z),
    strings.indexFunc_from f truth skip i s = -1
    \/ exists k : nat,
         strings.indexFunc_from f truth skip i s = i + Z.of_nat k
         /\ (k < length s)%nat
         /\ Bool.eqb (f (fst (utf8.DecodeRuneInString (from k s)))) truth
            = true.
Proof.
  induction s as [|c s IH]; intros skip i; simpl; [now left|].
  destruct skip as [|skip].
  - destruct (utf8.DecodeRuneInString (c :: s)) as [r w] eqn:Ed.
    destruct (Bool.eqb (f r) truth) eqn:Ef.
    + right. exists 0%nat. unfold from. simpl skipn. rewrite Ed.
      split; [lia|split; [simpl; lia|exact Ef]].
    + destruct (IH (w - 1)%nat (i + 1)) as [->|[k [-> [Hk Hf]]]];
        [now left|right].
      exists (S k). split; [lia|split; [simpl; lia|exact Hf]].
  - destruct (IH skip (i + 1)) as [->|[k [-> [Hk Hf]]]]; [now left|right].
    exists (S k). split; [lia|split; [simpl; lia|exact Hf]].
Qed.

(** [TrimLeftFunc] returns a suffix of its argument that is empty or
    starts with a rune outside [f]. *)
Lemma TrimLeftFunc_spec (s : gostring) (f : Z -> bool) :
  (exists p, s = p ++ strings.TrimLeftFunc s f)
  /\ (strings.TrimLeftFunc s f = []
      \/ f (fst (utf8.DecodeRuneInString (strings.TrimLeftFunc s f)))
         = false).
Proof.
  unfold strings.TrimLeftFunc, strings.indexFunc.
  destruct (indexFunc_from_spec f false s 0 0) as [->|[k [-> [Hk Hf]]]].
  - simpl. split; [exists s; now rewrite app_nil_r|now left].
  - replace (0 + Z.of_nat k =? -1) with false by lia.
    replace (Z.to_nat (0 + Z.of_nat k)) with k by lia.
    split.
    + exists (upto k s). unfold upto, from. now rewrite firstn_skipn.
    + right. now destruct (f _).
Qed.

Lemma TrimLeftFunc_fixed (s : gostring) (f : Z -> bool) :
  s = [] \/ f (fst (utf8.DecodeRuneInString s)) = false ->
  strings.TrimLeftFunc s f = s.
Proof.
  unfold strings.TrimLeftFunc, strings.indexFunc.
  intros [->|Hf]; [reflexivity|].
  destruct s as [|c s]; [reflexivity|].
  simpl strings.indexFunc_from.
  destruct (utf8.DecodeRuneInString (c :: s)) as [r w].
  simpl in Hf. rewrite Hf. reflexivity.
Qed.

Lemma decode_atRuneStart (s : gostring) (r : Z) (w : nat) :
  utf8.DecodeRuneInString s = (r, w) -> r <> utf8.RuneError ->
  atRuneStart s.
Proof.
  destruct s as [|c rest]; [easy|]. simpl. intros Hd Hr Hc.
  rewrite decode_continuation_first in Hd by assumption. congruence.
Qed.

Lemma lastIndexFunc_spec (s : gostring) (f : Z -> bool) (truth : bool) :
  truth = false -> f utf8.RuneError = false ->
  forall tail, atRuneStart tail ->
    strings.lastIndexFunc s f truth = -1
    \/ exists (e : nat) (r : Z) (size : nat),
         strings.lastIndexFunc s f truth = Z.of_nat (e - size)
         /\ (1 <= size <= e)%nat /\ (e <= length s)%nat
         /\ utf8.DecodeLastRuneInString (upto e s) = (r, size)
         /\ f r = false
         /\ atRuneStart (from e (s ++ tail)).
Proof.
  apply (strings.lastIndexFunc_elim
    (fun s f truth res =>
       truth = false -> f utf8.RuneError = false ->
       forall tail, atRuneStart tail ->
         res = -1
         \/ exists (e : nat) (r : Z) (size : nat),
              res = Z.of_nat (e - size)
              /\ (1 <= size <= e)%nat /\ (e <= length s)%nat
              /\ utf8.DecodeLastRuneInString (upto e s) = (r, size)
              /\ f r = false
              /\ atRuneStart (from e (s ++ tail)))); clear s f truth.
  - intros f truth _ _ tail _. now left.
  - intros b s' r size E f truth Hf _ -> Herr tail Htail. right.
    destruct (decodeLast_cases (b :: s') r size) as [Hsz _];
      [discriminate|exact E|].
    exists (length (b :: s')), r, size.
    unfold upto, from. rewrite firstn_all, skipn_app, skipn_all.
    rewrite Nat.sub_diag. simpl skipn.
    repeat split; try lia; try assumption.
    now destruct (f r).
  - intros b s' r size E f truth IH Hf _ -> Herr tail Htail.
    assert (Hfr : f r = true) by now destruct (f r).
    destruct (decodeLast_cases (b :: s') r size) as [Hsz Hd];
      [discriminate|exact E|].
    set (s := b :: s') in *. set (m := (length s - size)%nat) in *.
    assert (Hsplit : s = upto m s ++ from m s)
      by (unfold upto, from; now rewrite firstn_skipn).
    assert (Hstart : atRuneStart (from m s ++ tail)).
    { destruct Hd as [[= -> ->]|Hd]; [congruence|].
      assert (Hr : r <> utf8.RuneError) by congruence.
      pose proof (decode_atRuneStart _ _ _ Hd Hr) as Hs.
      assert (Hne : from m s <> []).
      { intros Hnil. rewrite Hnil in Hd.
        unfold utf8.DecodeRuneInString in Hd. injection Hd as _ <-. lia. }
      destruct (from m s); [congruence|exact Hs]. }
    destruct (IH eq_refl Herr (from m s ++ tail) Hstart)
      as [->|[e [r' [size' [-> [Hsz' [He [Hd' [Hf' Hst]]]]]]]]];
      [now left|right].
    assert (Hlen : length (upto m s) = m)
      by (unfold upto; rewrite length_firstn; lia).
    exists e, r', size'. split; [reflexivity|]. split; [lia|].
    split; [lia|]. split; [|split; [exact Hf'|]].
    + rewrite <- Hd'. unfold upto. rewrite firstn_firstn.
      f_equal. f_equal. lia.
    + rewrite app_assoc, <- Hsplit in Hst. exact Hst.
Qed.

Lemma lastIndexFunc_unfold (s : gostring) (f : Z -> bool) (truth : bool) :
  s <> [] ->
  strings.lastIndexFunc s f truth =
  let '(r, size) := utf8.DecodeLastRuneInString s in
  if Bool.eqb (f r) truth then Z.of_nat (length s - size)
  else strings.lastIndexFunc (upto (length s - size) s) f truth.
Proof.
  apply (strings.lastIndexFunc_elim
    (fun s f truth res =>
       s <> [] ->
       res = let '(r, size) := utf8.DecodeLastRuneInString s in
             if Bool.eqb (f r) truth then Z.of_nat (length s - size)
             else strings.lastIndexFunc (upto (length s - size) s) f truth));
    clear s f truth.
  - intros f truth H. congruence.
  - intros b s' r size E f truth Hf _ _. now rewrite E, Hf.
  - intros b s' r size E f truth _ Hf _ _. now rewrite E, Hf.
Qed.

Lemma from_upto_split (s : gostring) (i e : nat) :
  (i <= e)%nat -> from i s = from i (upto e s) ++ from e s.
Proof.
  intros H. unfold from, upto.
  destruct (Nat.le_gt_cases e (length s)) as [He|He].
  - rewrite <- (firstn_skipn e s) at 1.
    rewrite skipn_app, length_firstn.
    replace (i - Nat.min e (length s))%nat with 0%nat by lia.
    reflexivity.
  - rewrite (skipn_all2 (n := e)) by lia.
    rewrite app_nil_r, firstn_all2 by lia. reflexivity.
Qed.

(** A sequence that starts with a byte above ASCII and is followed by
    the start of a rune decodes with width one when its first byte alone
    is not a rune. *)
Lemma decode_single (c : ascii) (q : gostring) :
  atRuneStart q ->
  snd (utf8.DecodeRuneInString (c :: q)) = 1%nat.
Proof.
  intros Hq.
  destruct (utf8.DecodeRuneInString (c :: q)) as [r w] eqn:Hd.
  pose proof (decode_width (c :: q)) as Hw. rewrite Hd in Hw.
  specialize (Hw ltac:(discriminate)). simpl in *.
  destruct (Nat.le_gt_cases 2 w) as [H2|H2]; [|lia].
  destruct (decode_multibyte _ _ _ Hd H2) as [Hlen [_ Hc]].
  destruct q as [|c1 q]; [simpl in Hlen; lia|].
  change (at_ (c :: c1 :: q) 1) with c1 in Hc. simpl in Hq. lia.
Qed.

(** The index at which [TrimRightFunc] cuts: one past the rune that
    [lastIndexFunc] found. *)
Lemma trimRight_end (s : gostring) (e : nat) (r : Z) (size : nat) :
  (1 <= size <= e)%nat -> (e <= length s)%nat ->
  utf8.DecodeLastRuneInString (upto e s) = (r, size) ->
  atRuneStart (from e s) ->
  (let i := Z.of_nat (e - size) in
   if (0 <=? i) && (utf8.RuneSelf <=? byteZ (at_ s i)) then
     let '(_, wid) := utf8.DecodeRuneInString (from (Z.to_nat i) s) in
     i + Z.of_nat wid
   else i + 1) = Z.of_nat e.
Proof.
  intros Hsz He Hd Hq. cbv zeta.
  assert (Hlen : length (upto e s) = e)
    by (unfold upto; rewrite length_firstn; lia).
  destruct (decodeLast_cases (upto e s) r size) as [_ Hc];
    [intros Hnil; rewrite Hnil in Hlen; simpl in Hlen; lia|exact Hd|].
  rewrite Hlen in Hc.
  rewrite Nat2Z.id.
  set (i := (e - size)%nat) in *.
  set (t := from i (upto e s)) in *.
  assert (Hsplit : from i s = t ++ from e s)
    by (apply from_upto_split; lia).
  assert (Ht : length t = size).
  { subst t. unfold from. rewrite length_skipn. lia. }
  destruct t as [|c t'] eqn:Et; [simpl in Ht; lia|].
  assert (Hat : at_ s (Z.of_nat i) = c).
  { unfold at_. rewrite Nat2Z.id.
    rewrite <- (firstn_skipn i s), app_nth2; rewrite length_firstn;
      [|lia].
    replace (i - Nat.min i (length s))%nat with 0%nat by lia.
    fold (from i s). rewrite Hsplit. reflexivity. }
  rewrite Hat, Hsplit.
  assert (Hone : size = 1%nat ->
            snd (utf8.DecodeRuneInString ((c :: t') ++ from e s)) = 1%nat).
  { intros ->. destruct t'; [|simpl in Ht; lia].
    now apply decode_single. }
  replace (0 <=? Z.of_nat i) with true by lia. simpl andb.
  destruct (utf8.RuneSelf <=? byteZ c) eqn:Ec.
  - destruct (utf8.DecodeRuneInString ((c :: t') ++ from e s))
      as [r1 wid] eqn:Hd1.
    simpl in Hone.
    destruct Hc as [[= -> ->]|Hc]; [rewrite Hone by reflexivity; lia|].
    destruct (decode_prefix (c :: t') (from e s)) as [Hp|Hp];
      [discriminate| |].
    + rewrite Hd1, Hc in Hp. injection Hp as _ ->. lia.
    + rewrite Hc in Hp. injection Hp as _ ->.
      rewrite Hone by reflexivity. lia.
  - destruct (Nat.le_gt_cases 2 size) as [H2|H2]; [|lia].
    destruct Hc as [[= -> ->]|Hc]; [lia|].
    destruct (decode_multibyte _ _ _ Hc H2) as [_ [Hc0 _]].
    change (at_ (c :: t') 0) with c in Hc0.
    unfold utf8.RuneSelf in Ec. lia.
Qed.

(** [TrimRightFunc] returns a prefix of its argument that is empty or
    ends with a rune outside [f]. *)
Lemma TrimRightFunc_spec (s : gostring) (f : Z -> bool) :
  f utf8.RuneError = false ->
  (exists q, s = strings.TrimRightFunc s f ++ q)
  /\ (strings.TrimRightFunc s f = []
      \/ f (fst (utf8.DecodeLastRuneInString (strings.TrimRightFunc s f)))
         = false).
Proof.
  intros Herr.
  assert (Hpre : forall n, exists q, s = upto n s ++ q).
  { intros n. exists (from n s). unfold upto, from.
    now rewrite firstn_skipn. }
  unfold strings.TrimRightFunc.
  destruct (lastIndexFunc_spec s f false eq_refl Herr [] I)
    as [->|[e [r [size [-> [Hsz [He [Hd [Hf Hst]]]]]]]]].
  - simpl. split; [exists s; reflexivity|now left].
  - rewrite app_nil_r in Hst.
    pose proof (trimRight_end s e r size Hsz He Hd Hst) as Hend.
    cbv zeta in Hend. rewrite Hend, Nat2Z.id.
    split; [apply Hpre|right]. now rewrite Hd.
Qed.

Lemma TrimRightFunc_fixed (s : gostring) (f : Z -> bool) :
  s = [] \/ f (fst (utf8.DecodeLastRuneInString s)) = false ->
  strings.TrimRightFunc s f = s.
Proof.
  intros [->|Hf]; [reflexivity|].
  destruct s as [|b s']; [reflexivity|].
  set (s := b :: s') in *.
  unfold strings.TrimRightFunc.
  rewrite lastIndexFunc_unfold by discriminate.
  destruct (utf8.DecodeLastRuneInString s) as [r size] eqn:Hd.
  simpl in Hf. rewrite Hf. simpl Bool.eqb. cbv iota.
  destruct (decodeLast_cases s r size) as [Hsz _];
    [discriminate|exact Hd|].
  assert (Hup : upto (length s) s = s) by apply firstn_all.
  assert (Hfrom : from (length s) s = []) by apply skipn_all.
  pose proof (trimRight_end s (length s) r size) as Hend.
  rewrite Hup, Hfrom in Hend.
  specialize (Hend ltac:(lia) ltac:(lia) Hd I).
  cbv zeta in Hend. rewrite Hend, Nat2Z.id. exact Hup.
Qed.

Lemma IsSpace_RuneError : unicode.IsSpace utf8.RuneError = false.
Proof. reflexivity. Qed.

(** [strings.TrimSpace] cuts a substring out of its argument. *)
Lemma TrimSpace_infix (s : gostring) :
  exists p q, s = p ++ strings.TrimSpace s ++ q.
Proof.
  unfold strings.TrimSpace, strings.TrimFunc.
  destruct (TrimLeftFunc_spec s unicode.IsSpace) as [[p Hp] _].
  destruct (TrimRightFunc_spec (strings.TrimLeftFunc s unicode.IsSpace)
              unicode.IsSpace IsSpace_RuneError) as [[q Hq] _].
  exists p, q. now rewrite <- Hq.
Qed.

(** Trimming what has been trimmed changes nothing. *)
Lemma TrimSpace_idempotent (s : gostring) :
  strings.TrimSpace (strings.TrimSpace s) = strings.TrimSpace s.
Proof.
  unfold strings.TrimSpace, strings.TrimFunc.
  set (u := strings.TrimLeftFunc s unicode.IsSpace).
  set (t := strings.TrimRightFunc u unicode.IsSpace).
  destruct (TrimLeftFunc_spec s unicode.IsSpace) as [_ Hu]. fold u in Hu.
  destruct (TrimRightFunc_spec u unicode.IsSpace IsSpace_RuneError)
    as [[q Hq] Ht]. fold t in Hq, Ht.
  assert (Hleft : strings.TrimLeftFunc t unicode.IsSpace = t).
  { apply TrimLeftFunc_fixed.
    destruct t as [|c t'] eqn:Et; [now left|right].
    destruct Hu as [Hu|Hu]; [rewrite Hu in Hq; discriminate|].
    destruct (decode_prefix (c :: t') q) as [Hp|Hp]; [discriminate| |].
    - now rewrite <- Hp, <- Hq.
    - rewrite Hp. reflexivity. }
  rewrite Hleft. now apply TrimRightFunc_fixed.
Qed.

Lemma TrimSpace_bytes (s : gostring) (c : ascii) :
  In c (strings.TrimSpace s) -> In c s.
Proof.
  destruct (TrimSpace_infix s) as [p [q Hs]]. intros Hin.
  rewrite Hs. apply in_or_app. right. apply in_or_app. now left.
Qed.

(** ** strings.Split and strings.Join *)

Lemma Split_pieces (s : gostring) (c : ascii) (piece : gostring) :
  In piece (strings.Split s c) -> ~ In c piece.
Proof.
  revert piece. induction s as [|b s IH]; intros piece; simpl.
  - intros [<-|[]]. easy.
  - destruct (Ascii.eqb_spec b c) as [->|Hbc].
    + intros [<-|H]; [easy|now apply IH].
    + destruct (strings.Split s c) as [|p ps] eqn:E.
      * intros [<-|[]]. simpl. intros [?|[]]. congruence.
      * intros [<-|H].
        -- simpl. intros [?|Hin]; [congruence|].
           apply (IH p); [now left|exact Hin].
        -- apply IH. now right.
Qed.

Lemma Split_app (e t : gostring) (c : ascii) :
  ~ In c e -> strings.Split (e ++ c :: t) c = e :: strings.Split t c.
Proof.
  induction e as [|b e IH]; intros Hc; simpl.
  - now rewrite Ascii.eqb_refl.
  - destruct (Ascii.eqb_spec b c) as [->|Hbc]; [simpl in Hc; tauto|].
    rewrite IH by (simpl in Hc; tauto). reflexivity.
Qed.

Lemma Split_whole (e : gostring) (c : ascii) :
  ~ In c e -> strings.Split e c = [e].
Proof.
  induction e as [|b e IH]; intros Hc; simpl; [reflexivity|].
  destruct (Ascii.eqb_spec b c) as [->|Hbc]; [simpl in Hc; tauto|].
  rewrite IH by (simpl in Hc; tauto). reflexivity.
Qed.

Lemma Split_Join (pieces : list gostring) (c : ascii) :
  pieces <> [] ->
  (forall piece, In piece pieces -> ~ In c piece) ->
  strings.Split (strings.Join pieces [c]) c = pieces.
Proof.
  induction pieces as [|e rest IH]; intros Hne Hc; [congruence|].
  destruct rest as [|e' rest].
  - simpl. apply Split_whole, Hc. now left.
  - change (strings.Join (e :: e' :: rest) [c])
      with (e ++ c :: strings.Join (e' :: rest) [c]).
    rewrite Split_app by (apply Hc; now left).
    f_equal. apply IH; [discriminate|].
    intros piece Hin. apply Hc. now right.
Qed.

(** ** strings.Replace *)

Lemma Replace_In (s : gostring) (old new : ascii) (n : Z) (c : ascii) :
  In c (strings.Replace s old new n) -> c = new \/ In c s.
Proof.
  revert n. induction s as [|b s IH]; intros n; simpl; [tauto|].
  destruct (n =? 0); [simpl; tauto|].
  destruct (Ascii.eqb b old); simpl; intros [<-|H]; auto;
    apply IH in H; tauto.
Qed.

Lemma Replace_all (s : gostring) (old new : ascii) (n : Z) :
  n < 0 -> old <> new -> ~ In old (strings.Replace s old new n).
Proof.
  intros Hn Hne. revert n Hn.
  induction s as [|b s IH]; intros n Hn; cbn [strings.Replace]; [easy|].
  replace (n =? 0) with false by lia.
  destruct (Ascii.eqb_spec b old) as [->|Hb]; intros [H|H].
  - congruence.
  - apply (IH (n - 1)); [lia|exact H].
  - congruence.
  - apply (IH n); [lia|exact H].
Qed.

Lemma Replace_absent (s : gostring) (old new : ascii) (n : Z) :
  ~ In old s -> strings.Replace s old new n = s.
Proof.
  revert n. induction s as [|b s IH]; intros n Hs; [reflexivity|].
  cbn [strings.Replace]. destruct (n =? 0); [reflexivity|].
  destruct (Ascii.eqb_spec b old) as [->|_]; [elim Hs; now left|].
  rewrite IH; [reflexivity|]. intros H. apply Hs. now right.
Qed.

Lemma Replace_not_nil (s : gostring) (old new : ascii) (n : Z) :
  s <> [] -> strings.Replace s old new n <> [].
Proof.
  destruct s as [|b s]; [congruence|intros _]. simpl.
  destruct (n =? 0); [discriminate|].
  destruct (Ascii.eqb b old); discriminate.
Qed.

(** ** path/filepath *)

Lemma cleanLoop_copying (rooted : bool) (dotdot : nat) (s : gostring) :
  forall out : gostring,
    (forall c, In c s -> c <> filepath.Separator) ->
    filepath.cleanLoop rooted true out dotdot s = out ++ s.
Proof.
  induction s as [|c s IH]; intros out Hs; cbn [filepath.cleanLoop].
  - now rewrite app_nil_r.
  - unfold filepath.IsPathSeparator.
    destruct (Ascii.eqb_spec c filepath.Separator) as [E|E].
    + exfalso. apply (Hs c); [now left|exact E].
    + rewrite IH by (intros; apply Hs; now right).
      now rewrite <- app_assoc.
Qed.

Lemma at_separator (s : gostring) (i : Z) :
  (forall c, In c s -> c <> filepath.Separator) ->
  filepath.IsPathSeparator (at_ s i) = false.
Proof.
  intros Hs. unfold filepath.IsPathSeparator, at_.
  destruct (nth_in_or_default (Z.to_nat i) s zero) as [H| ->];
    [|reflexivity].
  apply Ascii.eqb_neq. now apply Hs.
Qed.

Lemma afterLastSeparator_none (s : gostring) (n : nat) :
  (forall c, In c s -> c <> filepath.Separator) ->
  filepath.afterLastSeparator s n = 0%nat.
Proof.
  intros Hs. induction n as [|n IH]; [reflexivity|].
  cbn [filepath.afterLastSeparator]. now rewrite at_separator.
Qed.

Lemma Base_plain (s : gostring) :
  s <> [] -> (forall c, In c s -> c <> filepath.Separator) ->
  filepath.Base s = s.
Proof.
  intros Hne Hs. unfold filepath.Base.
  apply gostring_eqb_neq in Hne. change (go "") with (@nil ascii).
  rewrite Hne.
  assert (Hstrip : filepath.stripTrailingSeparators s (length s)
                   = length s).
  { destruct (length s) as [|n]; [reflexivity|].
    cbn [filepath.stripTrailingSeparators]. now rewrite at_separator. }
  rewrite Hstrip. unfold upto. rewrite firstn_all.
  rewrite afterLastSeparator_none by assumption.
  unfold from. cbn [skipn]. now rewrite Hne.
Qed.

Lemma Dir_plain (s : gostring) :
  (forall c, In c s -> c <> filepath.Separator) ->
  filepath.Dir s = ("." : gostring).
Proof.
  intros Hs. unfold filepath.Dir.
  now rewrite afterLastSeparator_none.
Qed.

Lemma Clean_dot_slash (name : gostring) :
  filepath.Clean ("."%char :: "/"%char :: name)
  = let out := filepath.cleanLoop false false [] 0 name in
    if (length out =? 0)%nat then "." else out.
Proof. reflexivity. Qed.


Lemma cleanLoop_element (rooted : bool) (out : gostring) (dotdot : nat)
  (name : gostring) :
  pathElement name ->
  filepath.cleanLoop rooted false out dotdot name
  = withSeparator rooted out ++ name.
Proof.
  intros [Hne [Hsep [Hdot Hdotdot]]].
  destruct name as [|c rest]; [congruence|].
  assert (Hc : filepath.IsPathSeparator c = false).
  { apply Ascii.eqb_neq, Hsep. now left. }
  assert (Hrest : forall c', In c' rest -> c' <> filepath.Separator)
    by (intros; apply Hsep; now right).
  assert (Helem : filepath.cleanLoop rooted true
                    (withSeparator rooted out ++ [c]) dotdot rest
                  = withSeparator rooted out ++ c :: rest).
  { rewrite cleanLoop_copying by assumption. now rewrite <- app_assoc. }
  cbn [filepath.cleanLoop]. rewrite Hc. fold (withSeparator rooted out).
  destruct (Ascii.eqb_spec c ".") as [->|_]; [|exact Helem].
  destruct rest as [|c1 rest']; [now elim Hdot|].
  assert (Hc1 : filepath.IsPathSeparator c1 = false).
  { apply Ascii.eqb_neq, Hrest. now left. }
  rewrite Hc1.
  destruct (Ascii.eqb_spec c1 ".") as [->|_]; [|exact Helem].
  destruct rest' as [|c2 rest'']; [now elim Hdotdot|].
  assert (Hc2 : filepath.IsPathSeparator c2 = false).
  { apply Ascii.eqb_neq, Hrest. right. now left. }
  rewrite Hc2. exact Helem.
Qed.

Lemma backtrack_bounds (out : gostring) (dotdot w : nat) :
  (dotdot <= w)%nat ->
  (dotdot <= filepath.backtrack out dotdot w <= w)%nat.
Proof.
  induction w as [|w IH]; intros H; cbn [filepath.backtrack]; [lia|].
  destruct ((dotdot <? S w)%nat && _) eqn:E; [|lia].
  apply andb_true_iff in E. destruct E as [E _].
  apply Nat.ltb_lt in E. specialize (IH ltac:(lia)). lia.
Qed.

Lemma rootedBuffer_app (rooted : bool) (out t : gostring) (dotdot : nat) :
  rootedBuffer rooted out dotdot -> rootedBuffer rooted (out ++ t) dotdot.
Proof.
  intros H Hr. destruct (H Hr) as [Hd [o ->]].
  split; [exact Hd|]. now exists (o ++ t).
Qed.

Lemma rootedBuffer_withSeparator (rooted : bool) (out : gostring)
  (dotdot : nat) :
  rootedBuffer rooted out dotdot ->
  rootedBuffer rooted (withSeparator rooted out) dotdot.
Proof.
  intros H. unfold withSeparator.
  destruct (_ || _); [now apply rootedBuffer_app|exact H].
Qed.

Lemma cleanDotDot_rooted (rooted : bool) (out : gostring) (dotdot : nat) :
  rootedBuffer rooted out dotdot ->
  rootedBuffer rooted (fst (filepath.cleanDotDot rooted out dotdot))
               (snd (filepath.cleanDotDot rooted out dotdot)).
Proof.
  intros H Hr. destruct (H Hr) as [-> [o ->]]. subst rooted.
  unfold filepath.cleanDotDot.
  destruct (1 <? length (filepath.Separator :: o))%nat eqn:E;
    cbn [fst snd negb]; [|split; [reflexivity|now exists o]].
  apply Nat.ltb_lt in E.
  pose proof (backtrack_bounds (filepath.Separator :: o) 1
                (length (filepath.Separator :: o) - 1) ltac:(lia)) as Hb.
  split; [reflexivity|]. revert Hb.
  destruct (filepath.backtrack _ _ _) as [|w]; intros Hb; [lia|].
  unfold upto. cbn [firstn]. now eexists.
Qed.

(** [Clean] ends a path whose last element is a plain name with that
    name, after a separator where there is something before it. *)
Lemma cleanLoop_last (rooted : bool) (name : gostring) :
  pathElement name ->
  forall (k : nat) (s : gostring) (copying : bool) (out : gostring)
         (dotdot : nat),
    (length s <= k)%nat ->
    rootedBuffer rooted out dotdot ->
    exists out1,
      filepath.cleanLoop rooted copying out dotdot
        (s ++ filepath.Separator :: name)
      = withSeparator rooted out1 ++ name
      /\ (rooted = true -> exists o, out1 = filepath.Separator :: o).
Proof.
  intros Hname.
  assert (Hnil : forall copying out dotdot,
            rootedBuffer rooted out dotdot ->
            exists out1,
              filepath.cleanLoop rooted copying out dotdot
                (filepath.Separator :: name)
              = withSeparator rooted out1 ++ name
              /\ (rooted = true -> exists o, out1 = filepath.Separator :: o)).
  { intros copying out dotdot Hout. exists out. split.
    - cbn [filepath.cleanLoop].
      change (filepath.IsPathSeparator filepath.Separator) with true.
      destruct copying; now apply cleanLoop_element.
    - intros Hr. now destruct (Hout Hr). }
  induction k as [|k IH]; intros s copying out dotdot Hk Hout.
  { destruct s; [|simpl in Hk; lia]. now apply Hnil. }
  destruct s as [|c s']; [now apply Hnil|].
  simpl in Hk.
  assert (Helement :
    exists out1,
      filepath.cleanLoop rooted true (withSeparator rooted out ++ [c]) dotdot
        (s' ++ filepath.Separator :: name)
      = withSeparator rooted out1 ++ name
      /\ (rooted = true -> exists o, out1 = filepath.Separator :: o)).
  { apply IH; [lia|].
    now apply rootedBuffer_app, rootedBuffer_withSeparator. }
  cbn [app filepath.cleanLoop]. fold (withSeparator rooted out).
  destruct copying.
  - destruct (filepath.IsPathSeparator c).
    + apply IH; [lia|exact Hout].
    + apply IH; [lia|now apply rootedBuffer_app].
  - destruct (filepath.IsPathSeparator c); [apply IH; [lia|exact Hout]|].
    destruct (Ascii.eqb c "."); [|exact Helement].
    destruct s' as [|c1 s'']; cbn [app].
    + change (filepath.IsPathSeparator filepath.Separator) with true.
      cbv iota. now apply Hnil.
    + destruct (filepath.IsPathSeparator c1).
      * apply (IH (c1 :: s'')); [lia|exact Hout].
      * destruct (Ascii.eqb c1 "." && _); [|exact Helement].
        pose proof (cleanDotDot_rooted rooted out dotdot Hout) as Hdd.
        destruct (filepath.cleanDotDot rooted out dotdot) as [out' dd'].
        apply IH; [cbn [length] in Hk; lia|exact Hdd].
Qed.

Lemma withSeparator_end (rooted : bool) (out : gostring) :
  (rooted = true -> exists o, out = filepath.Separator :: o) ->
  withSeparator rooted out = []
  \/ exists p, withSeparator rooted out = p ++ [filepath.Separator].
Proof.
  intros Hr. unfold withSeparator.
  destruct rooted; cbn [andb orb negb].
  - destruct (Hr eq_refl) as [o ->].
    destruct o as [|c o]; cbn [length Nat.eqb negb].
    + right. now exists [].
    + right. now eexists.
  - destruct out as [|c o]; cbn [length Nat.eqb negb]; [now left|].
    right. now eexists.
Qed.

Lemma Clean_last (d name : gostring) :
  d <> [] -> pathElement name ->
  exists p,
    filepath.Clean (d ++ filepath.Separator :: name) = p ++ name
    /\ (p = [] \/ exists p', p = p' ++ [filepath.Separator]).
Proof.
  intros Hd Hname. destruct d as [|c0 d']; [congruence|].
  unfold filepath.Clean. cbn [app].
  assert (Hout : forall out1,
            (if (length (withSeparator (filepath.IsPathSeparator c0) out1
                         ++ name) =? 0)%nat
             then go "."
             else withSeparator (filepath.IsPathSeparator c0) out1 ++ name)
            = withSeparator (filepath.IsPathSeparator c0) out1 ++ name).
  { intros out1. destruct Hname as [Hne _].
    destruct (Nat.eqb_spec
                (length (withSeparator (filepath.IsPathSeparator c0) out1
                         ++ name)) 0) as [E|E]; [|reflexivity].
    rewrite length_app in E. destruct name; [congruence|simpl in E; lia]. }
  destruct (filepath.IsPathSeparator c0) eqn:Hroot.
  - unfold from. cbn [skipn].
    destruct (cleanLoop_last true name Hname (length d') d' false
                [filepath.Separator] 1 (le_n _))
      as [out1 [-> Hr]].
    { intros _. split; [reflexivity|now exists []]. }
    rewrite Hout. eexists. split; [reflexivity|].
    now apply withSeparator_end.
  - destruct (cleanLoop_last false name Hname (length (c0 :: d'))
                (c0 :: d') false [] 0 (le_n _))
      as [out1 [Heq Hr]]; [intros H; discriminate|].
    cbn [app] in Heq. rewrite Heq, Hout.
    eexists. split; [reflexivity|]. now apply withSeparator_end.
Qed.

Lemma at_app_r (p n : gostring) (k : nat) :
  at_ (p ++ n) (Z.of_nat (length p + k)) = nth k n zero.
Proof.
  unfold at_. rewrite Nat2Z.id, app_nth2 by lia.
  f_equal. lia.
Qed.

Lemma afterLastSeparator_last (p name : gostring) (k : nat) :
  (forall c, In c name -> c <> filepath.Separator) ->
  p = [] \/ (exists p', p = p' ++ [filepath.Separator]) ->
  (k <= length name)%nat ->
  filepath.afterLastSeparator (p ++ name) (length p + k) = length p.
Proof.
  intros Hname Hp. induction k as [|k IH]; intros Hk.
  - rewrite Nat.add_0_r. destruct Hp as [->|[p' ->]]; [reflexivity|].
    rewrite length_app. cbn [length].
    replace (length p' + 1)%nat with (S (length p')) by lia.
    cbn [filepath.afterLastSeparator].
    unfold at_. rewrite Nat2Z.id, <- app_assoc. cbn [app].
    rewrite nth_middle. reflexivity.
  - replace (length p + S k)%nat with (S (length p + k)) by lia.
    cbn [filepath.afterLastSeparator]. rewrite at_app_r.
    assert (Hc : filepath.IsPathSeparator (nth k name zero) = false).
    { apply Ascii.eqb_neq, Hname, nth_In. lia. }
    rewrite Hc. apply IH. lia.
Qed.

Lemma Base_last (p name : gostring) :
  pathElement name ->
  p = [] \/ (exists p', p = p' ++ [filepath.Separator]) ->
  filepath.Base (p ++ name) = name.
Proof.
  intros [Hne [Hsep _]] Hp. unfold filepath.Base.
  assert (Hpn : p ++ name <> []).
  { intros H. apply app_eq_nil in H. destruct H. congruence. }
  apply gostring_eqb_neq in Hpn. change (go "") with (@nil ascii).
  rewrite Hpn.
  assert (Hlen : length (p ++ name) = (length p + length name)%nat)
    by apply length_app.
  assert (Hstrip : filepath.stripTrailingSeparators (p ++ name)
                     (length (p ++ name)) = length (p ++ name)).
  { rewrite Hlen. destruct name as [|c name'] eqn:En; [congruence|].
    rewrite <- En in *. destruct (length name) as [|k] eqn:Ek;
      [subst name; discriminate|].
    replace (length p + S k)%nat with (S (length p + k)) by lia.
    cbn [filepath.stripTrailingSeparators]. rewrite at_app_r.
    assert (Hc : filepath.IsPathSeparator (nth k name zero) = false).
    { apply Ascii.eqb_neq, Hsep, nth_In. lia. }
    now rewrite Hc. }
  rewrite Hstrip. unfold upto. rewrite firstn_all.
  rewrite Hlen, afterLastSeparator_last by (assumption || lia).
  unfold from. rewrite skipn_app, skipn_all, Nat.sub_diag. cbn [skipn app].
  apply gostring_eqb_neq in Hne. now rewrite Hne.
Qed.

Lemma Clean_not_nil (path : gostring) : filepath.Clean path <> [].
Proof.
  unfold filepath.Clean. destruct path as [|c path']; [discriminate|].
  cbv zeta.
  match goal with |- (if ?b then _ else ?o) <> _ =>
    destruct (Nat.eqb_spec (length o) 0) as [E|E] end;
    [discriminate|].
  intros H. rewrite H in E. now apply E.
Qed.

(** The base name of a directory joined with a plain name is the name. *)
Lemma Base_Join (d name : gostring) :
  d <> [] -> pathElement name ->
  filepath.Base (filepath.Join [d; name]) = name.
Proof.
  intros Hd Hname. cbn [filepath.Join].
  apply gostring_eqb_neq in Hd. change (go "") with (@nil ascii).
  rewrite Hd. apply gostring_eqb_neq in Hd.
  change (strings.Join [d; name] [filepath.Separator])
    with (d ++ filepath.Separator :: name).
  destruct (Clean_last d name Hd Hname) as [p [-> Hp]].
  now apply Base_last.
Qed.

Lemma afterLastSeparator_spec (p : gostring) (n j : nat) :
  (filepath.afterLastSeparator p n <= j < n)%nat ->
  filepath.IsPathSeparator (at_ p (Z.of_nat j)) = false.
Proof.
  induction n as [|n IH]; cbn [filepath.afterLastSeparator]; [lia|].
  destruct (filepath.IsPathSeparator (at_ p (Z.of_nat n))) eqn:E; [lia|].
  intros Hj. destruct (Nat.eq_dec j n) as [->|Hne]; [exact E|].
  apply IH. lia.
Qed.

Lemma In_from (p : gostring) (i : nat) (c : ascii) :
  In c (from i p) ->
  exists j, (i <= j < length p)%nat /\ at_ p (Z.of_nat j) = c.
Proof.
  unfold from. intros Hin.
  destruct (In_nth _ _ zero Hin) as [k [Hk Hnth]].
  rewrite length_skipn in Hk. rewrite nth_skipn in Hnth.
  exists (i + k)%nat. split; [lia|].
  unfold at_. now rewrite Nat2Z.id.
Qed.

(** The base name of a path is a single separator or has none. *)
Lemma Base_element (path : gostring) :
  filepath.Base path = [filepath.Separator]
  \/ (filepath.Base path <> []
      /\ forall c, In c (filepath.Base path) -> c <> filepath.Separator).
Proof.
  unfold filepath.Base.
  destruct (gostring_eqb path ""); [right|].
  { split; [discriminate|]. intros c [<-|[]]. discriminate. }
  set (p1 := upto _ path).
  set (p2 := from _ p1).
  destruct (gostring_eqb p2 "") eqn:E; [now left|right].
  split; [now apply gostring_eqb_neq in E|].
  intros c Hin ->. subst p2.
  destruct (In_from _ _ _ Hin) as [j [Hj Hat]].
  pose proof (afterLastSeparator_spec p1 (length p1) j Hj) as Hsep.
  rewrite Hat in Hsep. discriminate.
Qed.

(** ** The program *)

Section SpecializeProperties.

Context {U : unicode.Tables}.

(** *** expand *)

Lemma fold_append (exp ret : list gostring) :
  fold_left (fun ret t => ret ++ [t]) exp ret = ret ++ exp.
Proof.
  revert ret. induction exp as [|t exp IH]; intros ret; simpl.
  - now rewrite app_nil_r.
  - rewrite IH, <- app_assoc. reflexivity.
Qed.

Lemma expandPiece_app (ret : list gostring) (xt : gostring) :
  expandPiece ret xt = ret ++ expandPiece [] xt.
Proof.
  unfold expandPiece.
  destruct (gostring_eqb _ _); [now rewrite app_nil_r|].
  destruct (lookup macros _); [|reflexivity].
  now rewrite !fold_append.
Qed.

(** The loop of [expand] appends, piece by piece, what each piece stands
    for. *)
Lemma expand_flat_map (list : gostring) :
  expand list = flat_map (expandPiece []) (strings.Split list ",").
Proof.
  unfold expand.
  assert (H : forall pieces ret,
             fold_left expandPiece pieces ret
             = ret ++ flat_map (expandPiece []) pieces).
  { induction pieces as [|xt pieces IH]; intros ret; simpl.
    - now rewrite app_nil_r.
    - rewrite IH, expandPiece_app, <- app_assoc. reflexivity. }
  apply (H _ []).
Qed.

Lemma expandPiece_trimmed (xt : gostring) :
  expandPiece [] (strings.TrimSpace xt) = expandPiece [] xt.
Proof.
  unfold expandPiece. now rewrite TrimSpace_idempotent.
Qed.

Lemma expandPiece_blank (xt : gostring) :
  gostring_eqb (strings.TrimSpace xt) "" = true -> expandPiece [] xt = [].
Proof.
  unfold expandPiece. now intros ->.
Qed.

Lemma flat_map_clean (pieces : list gostring) :
  flat_map (expandPiece [])
    (filter (fun piece => negb (gostring_eqb piece ""))
            (map strings.TrimSpace pieces))
  = flat_map (expandPiece []) pieces.
Proof.
  induction pieces as [|xt pieces IH]; [reflexivity|].
  cbn [map filter flat_map].
  destruct (gostring_eqb (strings.TrimSpace xt) "") eqn:E;
    cbn [negb flat_map].
  - now rewrite IH, (expandPiece_blank xt E).
  - now rewrite IH, expandPiece_trimmed.
Qed.

Lemma cleanPieces_clean (list piece : gostring) :
  In piece (cleanPieces list) ->
  strings.TrimSpace piece = piece
  /\ piece <> []
  /\ ~ In ","%char piece.
Proof.
  unfold cleanPieces. rewrite filter_In, in_map_iff.
  intros [[xt [<- Hin]] Hne]. split; [|split].
  - apply TrimSpace_idempotent.
  - apply negb_true_iff, gostring_eqb_neq in Hne. exact Hne.
  - intros Hc. apply TrimSpace_bytes in Hc.
    now apply (Split_pieces _ _ _ Hin).
Qed.

(** C5. For every comma-separated list, whatever white space surrounds
    its pieces and however many of them are empty, [expand] returns what
    it returns for the list of the trimmed, non-empty pieces; it always
    returns a list, and [expand(" int , ,float32")] is
    [["int", "float32"]]. *)
Theorem expand_cleans_pieces :
  (forall list : gostring,
     expand list = expand (strings.Join (cleanPieces list) ","))
  /\ expand " int , ,float32" = ["int" : gostring; "float32" : gostring].
Proof.
  split; [|reflexivity].
  intros list. rewrite !expand_flat_map.
  transitivity (flat_map (expandPiece []) (cleanPieces list)).
  { unfold cleanPieces. now rewrite flat_map_clean. }
  destruct (cleanPieces list) as [|piece pieces] eqn:E; [reflexivity|].
  change (go ",") with [","%char].
  rewrite Split_Join; [reflexivity|discriminate|].
  intros p Hp. rewrite <- E in Hp. now apply cleanPieces_clean in Hp.
Qed.

Lemma expand_integers_case (mask : list bool) :
  expand (withCase mask "integers") = expand "integers".
Proof.
  do 9 (destruct mask as [|[] mask]; try reflexivity).
Qed.

Lemma expand_floats_case (mask : list bool) :
  expand (withCase mask "floats") = expand "floats".
Proof.
  do 7 (destruct mask as [|[] mask]; try reflexivity).
Qed.

(** C2. [expand] maps the macro name "integers" to the ten integer types
    and "floats" to the two floating-point types, in the order of
    [macros]; the name matches whatever the case of its letters, as for
    "Integers", and the types come out in the spelling of [macros]. *)
Theorem expand_macros :
  expand "integers"
  = ["int" : gostring; "int8" : gostring; "int16" : gostring;
     "int32" : gostring; "int64" : gostring; "uint" : gostring;
     "uint8" : gostring; "uint16" : gostring; "uint32" : gostring;
     "uint64" : gostring]
  /\ expand "floats" = ["float32" : gostring; "float64" : gostring]
  /\ expand "Integers" = expand "integers"
  /\ (forall mask, expand (withCase mask "integers") = expand "integers")
  /\ (forall mask, expand (withCase mask "floats") = expand "floats").
Proof.
  split; [reflexivity|]. split; [reflexivity|]. split; [reflexivity|].
  split; [exact expand_integers_case|exact expand_floats_case].
Qed.

(** *** makeName *)

(** The equation of the Go function. *)
Lemma makeName_eq (t : gostring) :
  makeName t =
  if strings.HasPrefix t "[]" then makeName (from 2 t ++ go "Slice")
  else capitalize t.
Proof.
  apply (makeName_elim
    (fun t res =>
       res = if strings.HasPrefix t "[]"
             then makeName (from 2 t ++ go "Slice")
             else capitalize t)).
  - intros t' E _ _. now rewrite E.
  - intros t' E _. now rewrite E.
Qed.

Lemma identByte_ascii (c : ascii) : identByte c = true -> byteZ c < 0x80.
Proof.
  unfold identByte. cbv zeta. intros H. bool_hyps; lia.
Qed.

Lemma identByte_not_separator (c : ascii) :
  identByte c = true -> strings.isSeparator (byteZ c) = false.
Proof.
  intros H. pose proof (identByte_ascii c H) as Ha.
  unfold identByte in H. cbv zeta in H. unfold strings.isSeparator.
  replace (byteZ c <=? 0x7F) with true by lia.
  destruct ((0x30 <=? byteZ c) && (byteZ c <=? 0x39)); [reflexivity|].
  destruct ((0x61 <=? byteZ c) && (byteZ c <=? 0x7A)); [reflexivity|].
  destruct ((0x41 <=? byteZ c) && (byteZ c <=? 0x5A)); [reflexivity|].
  destruct (byteZ c =? 0x5F); [reflexivity|]. discriminate.
Qed.

(** Inside a word [strings.Title] changes nothing. *)
Lemma Title_inside_word (s : gostring) :
  forall prev,
    strings.isSeparator prev = false ->
    (forall d, In d s -> identByte d = true) ->
    strings.MapState
      (fun prev r =>
         if strings.isSeparator prev then (r, unicode.ToTitle r) else (r, r))
      prev 0 s = s.
Proof.
  induction s as [|d s IH]; intros prev Hprev Hs; [reflexivity|].
  cbn [strings.MapState].
  assert (Hd : identByte d = true) by (apply Hs; now left).
  pose proof (identByte_ascii d Hd) as Ha. pose proof (byteZ_range d) as Hr.
  rewrite decode_ascii, Hprev by assumption.
  replace (0 <=? byteZ d) with true by lia.
  rewrite encode_ascii, byte_byteZ by lia.
  cbn [app Nat.sub]. f_equal.
  apply IH; [now apply identByte_not_separator|].
  intros; apply Hs; now right.
Qed.

Lemma Title_word (c : ascii) (s : gostring) :
  identByte c = true ->
  (forall d, In d s -> identByte d = true) ->
  strings.Title (c :: s) = upperByte c :: s.
Proof.
  intros Hc Hs. unfold strings.Title. cbn [strings.MapState].
  pose proof (identByte_ascii c Hc) as Ha. pose proof (byteZ_range c) as Hr.
  rewrite decode_ascii by assumption.
  change (strings.isSeparator 0x20) with true. cbv iota.
  unfold unicode.ToTitle, unicode.MaxASCII.
  replace (byteZ c <=? 0x7F) with true by lia.
  cbn [app Nat.sub]. unfold upperByte. cbv zeta.
  destruct ((0x61 <=? byteZ c) && (byteZ c <=? 0x7A)) eqn:E.
  - bool_hyps. replace (0 <=? byteZ c - (0x61 - 0x41)) with true by lia.
    rewrite encode_ascii by lia. cbn [app]. f_equal.
    now apply Title_inside_word; [apply identByte_not_separator|].
  - replace (0 <=? byteZ c) with true by lia.
    rewrite encode_ascii, byte_byteZ by lia. cbn [app]. f_equal.
    now apply Title_inside_word; [apply identByte_not_separator|].
Qed.

Lemma Replace_ident (s : gostring) (n : Z) (d : ascii) :
  n < 0 ->
  (forall d, In d s -> identByte d = true \/ d = "."%char) ->
  In d (strings.Replace s "." "_" n) -> identByte d = true.
Proof.
  intros Hn Hs Hd.
  destruct (Ascii.eqb_spec d ".") as [->|Hne].
  - exfalso. revert Hd. apply Replace_all; [exact Hn|discriminate].
  - apply Replace_In in Hd. destruct Hd as [->|Hd]; [reflexivity|].
    destruct (Hs d Hd); [assumption|contradiction].
Qed.

(** C3, as the code has it. In a qualified name every dot becomes an
    underscore and only the first letter is put in upper case, because
    [strings.Title] does not take an underscore for the end of a word:
    [makeName("a.b.c")] is ["A_b_c"]. *)
Theorem makeName_qualified :
  (forall (c : ascii) (rest : gostring),
     identByte c = true ->
     (forall d, In d rest -> identByte d = true \/ d = "."%char) ->
     makeName (c :: rest)
     = upperByte c :: strings.Replace rest "." "_" (-1))
  /\ makeName "a.b.c" = ("A_b_c" : gostring).
Proof.
  split; [|reflexivity].
  intros c rest Hc Hrest. rewrite makeName_eq.
  assert (Hpre : strings.HasPrefix (c :: rest) "[]" = false).
  { unfold strings.HasPrefix. destruct rest as [|c1 rest']; [reflexivity|].
    cbn. destruct (Ascii.eqb_spec c "[") as [->|_]; [discriminate|].
    reflexivity. }
  rewrite Hpre. unfold capitalize.
  assert (Hdot : strings.Replace (c :: rest) "." "_" (-1)
                 = c :: strings.Replace rest "." "_" (-1)).
  { cbn [strings.Replace].
    destruct (Ascii.eqb_spec c ".") as [->|_]; [discriminate|].
    reflexivity. }
  rewrite Hdot.
  set (t1 := strings.Replace rest "." "_" (-1)).
  assert (Ht1 : forall d, In d (c :: t1) -> identByte d = true).
  { intros d [<-|Hd]; [exact Hc|].
    now apply (Replace_ident rest (-1) d ltac:(lia) Hrest). }
  rewrite !Replace_absent.
  - apply Title_word; [exact Hc|]. intros d Hd. apply Ht1. now right.
  - intros H. apply Ht1 in H. discriminate.
  - rewrite Replace_absent; intros H; apply Ht1 in H; discriminate.
Qed.

(** C4. A leading slice prefix is handled by recursion: the name of
    ["[]"] followed by [t] is the name of [t] followed by ["Slice"], so
    [makeName("[]byte")] is ["ByteSlice"] and [makeName("[][]int")] is
    ["IntSliceSlice"]. *)
Theorem makeName_slices :
  (forall t : gostring,
     makeName (go "[]" ++ t) = makeName (t ++ go "Slice"))
  /\ makeName "[]byte" = ("ByteSlice" : gostring)
  /\ makeName "[][]int" = ("IntSliceSlice" : gostring).
Proof.
  split; [|split; reflexivity].
  intros t. rewrite makeName_eq at 1. reflexivity.
Qed.

(** *** Names are identifiers *)

Lemma plainByte_byteZ (c : ascii) :
  plainByte c <-> byteZ c <> 0x2E /\ byteZ c <> 0x5B /\ byteZ c <> 0x5D.
Proof.
  unfold plainByte. split; intros [H1 [H2 H3]]; repeat split; intros E.
  - apply H1, byteZ_inj. now rewrite E.
  - apply H2, byteZ_inj. now rewrite E.
  - apply H3, byteZ_inj. now rewrite E.
  - subst c. now apply H1.
  - subst c. now apply H2.
  - subst c. now apply H3.
Qed.

Lemma decode_plain (s : gostring) :
  s <> [] -> (forall c, In c s -> plainByte c) ->
  plainRune (fst (utf8.DecodeRuneInString s)).
Proof.
  destruct s as [|c0 rest]; [congruence|intros _ Hs].
  pose proof (decode_range (c0 :: rest)) as Hr.
  unfold plainRune. split; [lia|].
  destruct (Z.lt_ge_cases (byteZ c0) 0x80) as [Ha|Ha].
  - rewrite decode_ascii by assumption. cbn [fst].
    apply plainByte_byteZ, Hs. now left.
  - pose proof (decode_nonascii c0 rest Ha). lia.
Qed.

Lemma encode_plain (r : Z) (c : ascii) :
  plainRune r -> In c (utf8.EncodeRune r) -> plainByte c.
Proof.
  intros [Hr Hp] Hin. apply plainByte_byteZ.
  destruct (Z.lt_ge_cases r 0x80) as [Ha|Ha].
  - rewrite encode_ascii in Hin by lia. destruct Hin as [<-|[]].
    rewrite byteZ_byte, Z.mod_small by lia. exact Hp.
  - unfold utf8.MaxRune in Hr.
    pose proof (encode_high r c ltac:(lia) Hin). lia.
Qed.

Lemma ToTitle_plain (r : Z) :
  titleCaseOfRunes U -> plainRune r -> plainRune (unicode.ToTitle r).
Proof.
  intros HU [Hr Hp]. unfold unicode.ToTitle, unicode.MaxASCII.
  destruct (Z.leb_spec r 0x7F) as [Ha|Ha].
  - destruct (_ && _) eqn:E; unfold plainRune, utf8.MaxRune in *;
      [bool_hyps|]; lia.
  - apply HU. lia.
Qed.

Lemma Title_plain (s : gostring) :
  titleCaseOfRunes U ->
  (forall c, In c s -> plainByte c) ->
  forall c, In c (strings.Title s) -> plainByte c.
Proof.
  intros HU. unfold strings.Title.
  generalize 0x20 as prev. generalize 0%nat as skip.
  induction s as [|b s IH]; intros skip prev Hs c; simpl; [tauto|].
  assert (Hs' : forall c, In c s -> plainByte c)
    by (intros; apply Hs; now right).
  destruct skip as [|skip]; [|now apply IH].
  destruct (utf8.DecodeRuneInString (b :: s)) as [r w] eqn:Hd.
  assert (Hr : plainRune r).
  { pose proof (decode_plain (b :: s) ltac:(discriminate) Hs) as H.
    now rewrite Hd in H. }
  destruct (strings.isSeparator prev).
  - pose proof (ToTitle_plain r HU Hr) as Ht.
    replace (0 <=? unicode.ToTitle r) with true
      by (destruct Ht; lia).
    intros Hin. apply in_app_or in Hin. destruct Hin as [Hin|Hin].
    + now apply (encode_plain _ _ Ht).
    + now apply IH in Hin.
  - replace (0 <=? r) with true by (destruct Hr; lia).
    intros Hin. apply in_app_or in Hin. destruct Hin as [Hin|Hin].
    + now apply (encode_plain _ _ Hr).
    + now apply IH in Hin.
Qed.

Lemma Title_not_nil (s : gostring) :
  titleCaseOfRunes U ->
  (forall c, In c s -> plainByte c) ->
  s <> [] -> strings.Title s <> [].
Proof.
  intros HU Hs. destruct s as [|b s]; [congruence|intros _].
  unfold strings.Title. simpl.
  destruct (utf8.DecodeRuneInString (b :: s)) as [r w] eqn:Hd.
  assert (Hr : plainRune r).
  { pose proof (decode_plain (b :: s) ltac:(discriminate) Hs) as H.
    now rewrite Hd in H. }
  pose proof (ToTitle_plain r HU Hr) as Ht.
  change (0x20 <=? 0x7F) with true. cbv iota.
  replace (0 <=? unicode.ToTitle r) with true by (destruct Ht; lia).
  intros H. apply app_eq_nil in H. destruct H as [H _].
  now apply encode_not_nil in H.
Qed.

Lemma capitalize_safe (t : gostring) :
  titleCaseOfRunes U -> t <> [] -> identifierSafe (capitalize t).
Proof.
  intros HU Ht. unfold capitalize.
  set (t1 := strings.Replace t "." "_" (-1)).
  set (t2 := strings.Replace t1 "[" "_" (-1)).
  set (t3 := strings.Replace t2 "]" "_" (-1)).
  assert (H3 : forall c, In c t3 -> plainByte c).
  { intros c Hc. unfold plainByte. repeat split; intros ->.
    - apply Replace_In in Hc. destruct Hc as [Hc|Hc]; [discriminate|].
      apply Replace_In in Hc. destruct Hc as [Hc|Hc]; [discriminate|].
      revert Hc. apply Replace_all; [lia|discriminate].
    - apply Replace_In in Hc. destruct Hc as [Hc|Hc]; [discriminate|].
      revert Hc. apply Replace_all; [lia|discriminate].
    - revert Hc. apply Replace_all; [lia|discriminate]. }
  assert (Hne : t3 <> []) by (repeat apply Replace_not_nil; exact Ht).
  unfold identifierSafe. split; [now apply Title_not_nil|].
  repeat split; intros Hc; apply (Title_plain t3 HU H3) in Hc;
    unfold plainByte in Hc; tauto.
Qed.

Lemma makeName_safe (t : gostring) :
  titleCaseOfRunes U -> t <> [] -> identifierSafe (makeName t).
Proof.
  intros HU.
  apply (makeName_elim (fun t res => t <> [] -> identifierSafe res)).
  - intros t' E IH _ _. apply IH.
    intros H. apply app_eq_nil in H. destruct H. discriminate.
  - intros t' E _. now apply capitalize_safe.
Qed.

Lemma macros_types (key : gostring) (exp : list gostring) (t : gostring) :
  lookup macros key = Some exp -> In t exp -> t <> [].
Proof.
  unfold macros. cbn [lookup].
  repeat (destruct (gostring_eqb _ key);
          [intros [= <-]; cbn [In]; intros Hin;
           repeat (destruct Hin as [<-|Hin]; [discriminate|]);
           destruct Hin|]).
  discriminate.
Qed.

(** Every element that [expand] returns is a non-empty string. *)
Lemma expand_types (list t : gostring) : In t (expand list) -> t <> [].
Proof.
  rewrite expand_flat_map, in_flat_map. intros [piece [_ Hin]].
  unfold expandPiece in Hin.
  destruct (gostring_eqb (strings.TrimSpace piece) "") eqn:E;
    [destruct Hin|].
  destruct (lookup macros _) as [exp|] eqn:El.
  - rewrite fold_append in Hin. now apply (macros_types _ _ _ El).
  - destruct Hin as [<-|[]]. now apply gostring_eqb_neq in E.
Qed.

(** *** The tree *)

Lemma expand_nil : expand [] = [].
Proof. reflexivity. Qed.

(** The tree that [main] builds is the cartesian product, whether or not
    the Y and Z lists are given. *)
Lemma build_cross (name x y z : gostring) :
  build name x y z
  = {| Tmpl.Top_Name := name; Tmpl.Top_X := xEntries x y z |}.
Proof.
  unfold build, xEntries, yEntries, zEntries.
  destruct (gostring_eqb y "") eqn:Ey; cbn [negb].
  - apply gostring_eqb_eq in Ey. subst y.
    change (go "") with (@nil ascii). rewrite expand_nil. reflexivity.
  - destruct (gostring_eqb z "") eqn:Ez; cbn [negb]; [|reflexivity].
    apply gostring_eqb_eq in Ez. subst z.
    change (go "") with (@nil ascii). rewrite expand_nil. reflexivity.
Qed.

Lemma list_sum_const {A : Type} (f : A -> nat) (l : list A) (k : nat) :
  (forall a, In a l -> f a = k) ->
  list_sum (map f l) = (length l * k)%nat.
Proof.
  induction l as [|a l IH]; intros H; simpl; [reflexivity|].
  rewrite H by now left. rewrite IH; [reflexivity|].
  intros b Hb. apply H. now right.
Qed.

(** C1. For X, Y and Z lists of [m], [n] and [p] types, none of them
    empty, the tree has [m] X entries, every X entry carries the same
    sequence of [n] Y entries and every Y entry the same sequence of [p] Z
    entries: [m * n * p] Z entries along the branches of a tree that is
    the cartesian product. *)
Theorem cross_product_cardinality (name x y z : gostring) (m n p : nat) :
  length (expand x) = m -> length (expand y) = n ->
  length (expand z) = p ->
  (0 < m)%nat -> (0 < n)%nat -> (0 < p)%nat ->
  let top := build name x y z in
  length (Tmpl.Top_X top) = m
  /\ (forall xe, In xe (Tmpl.Top_X top) -> Tmpl.X_Y xe = yEntries y z)
  /\ length (yEntries y z) = n
  /\ (forall xe ye, In xe (Tmpl.Top_X top) -> In ye (Tmpl.X_Y xe) ->
        Tmpl.Y_Z ye = zEntries z)
  /\ length (zEntries z) = p
  /\ zLeaves top = (m * n * p)%nat.
Proof.
  intros Hm Hn Hp _ _ _ top. subst top. rewrite build_cross.
  cbn [Tmpl.Top_X].
  assert (HX : forall xe, In xe (xEntries x y z) ->
                 Tmpl.X_Y xe = yEntries y z).
  { unfold xEntries. intros xe Hin. apply in_map_iff in Hin.
    destruct Hin as [xt [<- _]]. reflexivity. }
  assert (HY : forall ye, In ye (yEntries y z) ->
                 Tmpl.Y_Z ye = zEntries z).
  { unfold yEntries. intros ye Hin. apply in_map_iff in Hin.
    destruct Hin as [yt [<- _]]. reflexivity. }
  assert (Lx : length (xEntries x y z) = m)
    by (unfold xEntries; now rewrite length_map).
  assert (Ly : length (yEntries y z) = n)
    by (unfold yEntries; now rewrite length_map).
  assert (Lz : length (zEntries z) = p)
    by (unfold zEntries; now rewrite length_map).
  repeat split; try assumption.
  - intros xe ye Hxe Hye. rewrite (HX xe Hxe) in Hye. now apply HY.
  - unfold zLeaves. cbn [Tmpl.Top_X].
    rewrite (list_sum_const _ _ (n * p)%nat); [rewrite Lx; lia|].
    intros xe Hxe. rewrite (HX xe Hxe).
    rewrite (list_sum_const _ _ p); [now rewrite Ly|].
    intros ye Hye. now rewrite (HY ye Hye).
Qed.

(** C6. When the Y list is empty and the Z list is not, every X entry has
    an empty sequence of Y entries and there is no Z entry anywhere in
    the tree, which is the tree built without the Z list; [main] goes on
    to the template, it does not stop with an error. *)
Theorem z_without_y_is_ignored (flags : Flags) :
  expand (y flags) = [] -> expand (z flags) <> [] ->
  input flags <> [] -> x flags <> [] ->
  exists output top,
    main flags = Execute output top
    /\ (forall xe, In xe (Tmpl.Top_X top) -> Tmpl.X_Y xe = [])
    /\ zLeaves top = 0%nat
    /\ top = build (baseName (input flags)) (x flags) (y flags) "".
Proof.
  intros Hy Hz Hi Hx. unfold main.
  apply gostring_eqb_neq in Hi, Hx.
  change (go "") with (@nil ascii). rewrite Hi, Hx.
  eexists. eexists. split; [reflexivity|].
  rewrite !build_cross. cbn [Tmpl.Top_X].
  assert (HY : forall z', yEntries (y flags) z' = [])
    by (intros; unfold yEntries; now rewrite Hy).
  assert (HX : forall xe, In xe (xEntries (x flags) (y flags) (z flags)) ->
                 Tmpl.X_Y xe = []).
  { unfold xEntries. intros xe Hin. apply in_map_iff in Hin.
    destruct Hin as [xt [<- _]]. apply HY. }
  split; [exact HX|split].
  - unfold zLeaves. cbn [Tmpl.Top_X].
    rewrite (list_sum_const _ _ 0%nat); [lia|].
    intros xe Hxe. now rewrite (HX xe Hxe).
  - unfold xEntries. now rewrite !HY.
Qed.

(** C7. The types that [expand] returns are non-empty strings, and the
    name derived for every X, Y and Z entry of the tree is non-empty and
    has no ['.'], ['['] or [']'] in it. *)
Theorem names_are_identifiers :
  titleCaseOfRunes U ->
  (forall list t : gostring,
     In t (expand list) -> t <> [] /\ identifierSafe (makeName t))
  /\ forall name x y z : gostring,
       let top := build name x y z in
       forall xe, In xe (Tmpl.Top_X top) ->
         In (Tmpl.X_Type xe) (expand x)
         /\ identifierSafe (Tmpl.X_Name xe)
         /\ forall ye, In ye (Tmpl.X_Y xe) ->
              In (Tmpl.Y_Type ye) (expand y)
              /\ identifierSafe (Tmpl.Y_Name ye)
              /\ forall ze, In ze (Tmpl.Y_Z ye) ->
                   In (Tmpl.Z_Type ze) (expand z)
                   /\ identifierSafe (Tmpl.Z_Name ze).
Proof.
  intros HU.
  assert (Hname : forall list t : gostring,
            In t (expand list) -> t <> [] /\ identifierSafe (makeName t)).
  { intros list t Hin. pose proof (expand_types _ _ Hin) as Ht.
    split; [exact Ht|now apply makeName_safe]. }
  split; [exact Hname|].
  intros name x y z top xe Hxe. subst top. rewrite build_cross in Hxe.
  cbn [Tmpl.Top_X] in Hxe. unfold xEntries in Hxe.
  apply in_map_iff in Hxe. destruct Hxe as [xt [<- Hxt]].
  cbn [Tmpl.X_Type Tmpl.X_Name Tmpl.X_Y].
  split; [exact Hxt|]. split; [now apply (Hname x)|].
  intros ye Hye. unfold yEntries in Hye.
  apply in_map_iff in Hye. destruct Hye as [yt [<- Hyt]].
  cbn [Tmpl.Y_Type Tmpl.Y_Name Tmpl.Y_Z].
  split; [exact Hyt|]. split; [now apply (Hname y)|].
  intros ze Hze. unfold zEntries in Hze.
  apply in_map_iff in Hze. destruct Hze as [zt [<- Hzt]].
  cbn [Tmpl.Z_Type Tmpl.Z_Name].
  split; [exact Hzt|now apply (Hname z)].
Qed.

(** *** Termination of makeName *)

Lemma slicePrefixes_Slice (t : gostring) :
  slicePrefixes (t ++ go "Slice") = slicePrefixes t.
Proof.
  assert (H : forall n (u : gostring), (length u <= n)%nat ->
            slicePrefixes (u ++ go "Slice") = slicePrefixes u).
  { induction n as [|n IH]; intros u Hu.
    - destruct u; [reflexivity|simpl in Hu; lia].
    - destruct u as [|c1 [|c2 u]]; [reflexivity| |].
      + simpl. now rewrite andb_false_r.
      + simpl in *. destruct (_ && _); [|reflexivity].
        f_equal. apply IH. lia. }
  now apply (H (length t)).
Qed.

Lemma HasPrefix_slice (t : gostring) :
  strings.HasPrefix t "[]" = true ->
  exists t', t = "["%char :: "]"%char :: t'.
Proof.
  unfold strings.HasPrefix. destruct t as [|c1 [|c2 t']]; try discriminate.
  simpl. rewrite andb_true_r, andb_true_iff, !Ascii.eqb_eq.
  intros [-> ->]. now exists t'.
Qed.

(** C8. [makeName] returns on every string. The ["Slice"] put at the
    end of a string adds no ["[]"] at its front, so a call on a string
    with a leading ["[]"] recurses on a string with one leading ["[]"]
    less; the [return] of the last line is reached after as many
    recursive calls as the string has leading ["[]"], and its value is
    [makeName t]. *)
Theorem makeName_terminates (t : gostring) :
  slicePrefixes (t ++ go "Slice") = slicePrefixes t
  /\ (strings.HasPrefix t "[]" = true ->
      (slicePrefixes (from 2 t ++ go "Slice") < slicePrefixes t)%nat)
  /\ forall fuel,
       (slicePrefixes t < fuel)%nat ->
       makeNameWithin fuel t = Some (makeName t).
Proof.
  split; [apply slicePrefixes_Slice|split].
  - intros H. apply HasPrefix_slice in H. destruct H as [t' ->].
    unfold from. cbn [skipn]. rewrite slicePrefixes_Slice.
    simpl. lia.
  - intros fuel. revert t.
    induction fuel as [|fuel IH]; intros t Hf; [lia|].
    rewrite makeName_eq. cbn [makeNameWithin].
    destruct (strings.HasPrefix t "[]") eqn:E; [|reflexivity].
    apply IH. apply HasPrefix_slice in E. destruct E as [t' ->].
    unfold from. cbn [skipn]. rewrite slicePrefixes_Slice.
    simpl in Hf. lia.
Qed.

(** *** The base name and the default output path *)

Lemma Index_stripExtensions (name : gostring) :
  (strings.Index name "." = -1 /\ stripExtensions name = name)
  \/ (0 <= strings.Index name "."
      /\ upto (Z.to_nat (strings.Index name ".")) name
         = stripExtensions name).
Proof.
  induction name as [|b s IH]; [now left|]. cbn [strings.Index stripExtensions].
  destruct (Ascii.eqb b ".") eqn:E; [right; split; [lia|reflexivity]|].
  destruct IH as [[-> ->]|[Hi Hs]]; [now left|right].
  replace (strings.Index s "." <? 0) with false by lia.
  split; [lia|].
  replace (Z.to_nat (strings.Index s "." + 1))
    with (S (Z.to_nat (strings.Index s "."))) by lia.
  unfold upto in *. cbn [firstn]. now rewrite Hs.
Qed.

Lemma baseName_stripExtensions (input : gostring) :
  strings.Index (filepath.Base input) "." <> 0 ->
  baseName input = stripExtensions (filepath.Base input).
Proof.
  intros H. unfold baseName.
  destruct (Index_stripExtensions (filepath.Base input))
    as [[Hi Hs]|[Hi Hs]].
  - rewrite Hi, Hs. reflexivity.
  - replace (0 <? strings.Index (filepath.Base input) ".") with true by lia.
    exact Hs.
Qed.


Lemma main_runs (flags : Flags) :
  input flags <> [] -> x flags <> [] ->
  main flags =
  Execute
    (if gostring_eqb (output flags) ""
     then filepath.Join [filepath.Dir (input flags);
                         baseName (input flags) ++ go ".go"]
     else output flags)
    (build (baseName (input flags)) (x flags) (y flags) (z flags)).
Proof.
  intros Hi Hx. unfold main. apply gostring_eqb_neq in Hi, Hx.
  change (go "") with (@nil ascii). now rewrite Hi, Hx.
Qed.

(** C9, as the code has it. When no [--output] is given and the base
    name of the input does not begin with a dot, the default output path
    is the directory of the input joined with the base name stripped at
    its extensions plus ".go"; for [--input=pkg/foo.go.tmpl] it is
    [pkg/foo.go]. *)
Theorem default_output_path :
  (forall flags : Flags,
     input flags <> [] -> x flags <> [] -> output flags = [] ->
     strings.Index (filepath.Base (input flags)) "." <> 0 ->
     outputPath (main flags)
     = Some (filepath.Join
               [filepath.Dir (input flags);
                stripExtensions (filepath.Base (input flags)) ++ go ".go"]))
  /\ (forall x y z : gostring,
        x <> [] ->
        outputPath (main {| x := x; y := y; z := z;
                            input := "pkg/foo.go.tmpl"; output := "" |})
        = Some ("pkg/foo.go" : gostring)).
Proof.
  split.
  - intros flags Hi Hx Ho Hdot. rewrite main_runs by assumption.
    rewrite Ho. cbn [outputPath gostring_eqb go list_ascii_of_string].
    now rewrite baseName_stripExtensions.
  - intros x y z Hx. rewrite main_runs by (cbn; congruence).
    reflexivity.
Qed.

Lemma Index_zero (s : gostring) (c : ascii) :
  strings.Index s c = 0 -> exists rest, s = c :: rest.
Proof.
  destruct s as [|b s]; cbn [strings.Index]; [discriminate|].
  destruct (Ascii.eqb_spec b c) as [->|_]; [now exists s|].
  destruct (strings.Index s c <? 0) eqn:E; lia.
Qed.



End SpecializeProperties.

(** ** The statements at concrete inputs *)

Lemma latin1_titleCaseOfRunes : titleCaseOfRunes latin1Tables.
Proof.
  intros r Hr. unfold plainRune, utf8.MaxRune in *.
  cbn [unicode.To latin1Tables].
  repeat match goal with
  | |- context [if ?c then _ else _] => destruct c eqn:?
  end; bool_hyps; lia.
Qed.

(** C3, as the specification has it, fails: the identifier derived from
    ["a.b.c"] is not ["A_B_C"]. *)
Lemma makeName_qualified_counterexample :
  makeName (U := latin1Tables) "a.b.c" <> ("A_B_C" : gostring).
Proof. vm_compute. discriminate. Qed.

Lemma makeName_qualified_witness :
  identByte "f" = true
  /\ makeName (U := latin1Tables) "foo.Baz" = ("Foo_Baz" : gostring).
Proof.
  split; [reflexivity|].
  apply (proj1 (makeName_qualified (U := latin1Tables)) "f"%char "oo.Baz");
    [reflexivity|].
  cbn. intuition (subst; auto).
Defined.

(** C9, as the specification has it, fails for an input whose base name
    begins with a dot: nothing is stripped from [.foo.go.tmpl]. The
    default output path is [.foo.go.tmpl.go]; it is not the base name
    stripped at its extensions plus ".go", be that [.go] (the name cut at
    its first dot) or [.foo.go] (the leading dot kept). *)
Lemma default_output_path_counterexample :
  outputPath (main (U := latin1Tables)
                {| x := "int"; y := ""; z := "";
                   input := ".foo.go.tmpl"; output := "" |})
  = Some (".foo.go.tmpl.go" : gostring)
  /\ outputPath (main (U := latin1Tables)
                   {| x := "int"; y := ""; z := "";
                      input := ".foo.go.tmpl"; output := "" |})
     <> Some (filepath.Join
                [filepath.Dir ".foo.go.tmpl";
                 stripExtensions (filepath.Base ".foo.go.tmpl")
                 ++ go ".go"])
  /\ outputPath (main (U := latin1Tables)
                   {| x := "int"; y := ""; z := "";
                      input := ".foo.go.tmpl"; output := "" |})
     <> Some (".foo.go" : gostring).
Proof. repeat split; vm_compute; congruence. Qed.

Lemma cross_product_cardinality_witness :
  length (expand (U := latin1Tables) "int,float32") = 2%nat
  /\ length (expand (U := latin1Tables) "integers") = 10%nat
  /\ length (expand (U := latin1Tables) "floats") = 2%nat
  /\ zLeaves (build (U := latin1Tables) "foo" "int,float32" "integers"
                    "floats") = (2 * 10 * 2)%nat.
Proof.
  pose proof (cross_product_cardinality (U := latin1Tables)
                "foo" "int,float32" "integers" "floats" 2 10 2
                eq_refl eq_refl eq_refl
                ltac:(lia) ltac:(lia) ltac:(lia)) as H.
  split; [reflexivity|split; [reflexivity|split; [reflexivity|]]].
  apply H.
Defined.

Lemma z_without_y_is_ignored_witness :
  expand (U := latin1Tables) " , " = []
  /\ expand (U := latin1Tables) "floats" <> []
  /\ exists output top,
       main (U := latin1Tables)
         {| x := "int"; y := " , "; z := "floats";
            input := "foo.go.tmpl"; output := "" |}
       = Execute output top
       /\ (forall xe, In xe (Tmpl.Top_X top) -> Tmpl.X_Y xe = [])
       /\ zLeaves top = 0%nat.
Proof.
  split; [reflexivity|split; [vm_compute; discriminate|]].
  destruct (z_without_y_is_ignored (U := latin1Tables)
              {| x := "int"; y := " , "; z := "floats";
                 input := "foo.go.tmpl"; output := "" |}
              eq_refl ltac:(vm_compute; discriminate)
              ltac:(discriminate) ltac:(discriminate))
    as [output [top [Hm [Hy [Hz _]]]]].
  exists output, top. repeat split; assumption.
Defined.

Lemma names_are_identifiers_witness :
  titleCaseOfRunes latin1Tables
  /\ In ("[]foo.Baz" : gostring)
        (expand (U := latin1Tables) " []foo.Baz , int")
  /\ identifierSafe (makeName (U := latin1Tables) "[]foo.Baz").
Proof.
  split; [exact latin1_titleCaseOfRunes|].
  assert (Hin : In ("[]foo.Baz" : gostring)
                   (expand (U := latin1Tables) " []foo.Baz , int"))
    by (vm_compute; left; reflexivity).
  split; [exact Hin|].
  apply (proj1 (names_are_identifiers (U := latin1Tables)
                  latin1_titleCaseOfRunes) " []foo.Baz , int").
  exact Hin.
Defined.

Lemma makeName_terminates_witness :
  strings.HasPrefix "[][]int" "[]" = true
  /\ (slicePrefixes (from 2 (go "[][]int") ++ go "Slice")
      < slicePrefixes "[][]int")%nat
  /\ (slicePrefixes "[][]int" < 3)%nat
  /\ makeNameWithin (U := latin1Tables) 3 "[][]int"
     = Some (makeName (U := latin1Tables) "[][]int").
Proof.
  pose proof (makeName_terminates (U := latin1Tables) "[][]int")
    as [_ [Hless Hfuel]].
  split; [reflexivity|]. split; [apply Hless; reflexivity|].
  assert (H3 : (slicePrefixes "[][]int" < 3)%nat) by (vm_compute; lia).
  split; [exact H3|apply Hfuel; exact H3].
Defined.

Lemma default_output_path_witness :
  strings.Index (filepath.Base "pkg/foo.go.tmpl") "." <> 0
  /\ outputPath (main (U := latin1Tables)
                   {| x := "int"; y := ""; z := "";
                      input := "pkg/foo.go.tmpl"; output := "" |})
     = Some (filepath.Join
               [filepath.Dir "pkg/foo.go.tmpl";
                stripExtensions (filepath.Base "pkg/foo.go.tmpl")
                ++ go ".go"]).
Proof.
  assert (H : strings.Index (filepath.Base "pkg/foo.go.tmpl") "." <> 0)
    by (vm_compute; discriminate).
  split; [exact H|].
  apply (proj1 (default_output_path (U := latin1Tables))
           {| x := "int"; y := ""; z := "";
              input := "pkg/foo.go.tmpl"; output := "" |});
    [discriminate|discriminate|reflexivity|exact H].
Defined.


(** * Further properties *)

(** ** The library *)

(** *** Lists and slices *)

Lemma flat_map_ext_in {A B : Type} (f g : A -> list B) (l : list A) :
  (forall a, In a l -> f a = g a) -> flat_map f l = flat_map g l.
Proof.
  induction l as [|a l IH]; intros H; [reflexivity|]. cbn [flat_map].
  rewrite (H a) by now left. rewrite IH; [reflexivity|].
  intros b Hb. apply H. now right.
Qed.

Lemma flat_map_single {A : Type} (f : A -> list A) (l : list A) :
  (forall a, In a l -> f a = [a]) -> flat_map f l = l.
Proof.
  induction l as [|a l IH]; intros H; [reflexivity|]. cbn [flat_map].
  rewrite (H a) by now left. rewrite IH; [reflexivity|].
  intros b Hb. apply H. now right.
Qed.

Lemma upto_app (p q : gostring) : upto (length p) (p ++ q) = p.
Proof.
  unfold upto. rewrite firstn_app, Nat.sub_diag, firstn_all.
  cbn [firstn]. apply app_nil_r.
Qed.

Lemma upto_In (s : gostring) (k : nat) (c : ascii) :
  In c (upto k s) -> In c s.
Proof.
  unfold upto. revert s. induction k as [|k IH]; intros s; [intros []|].
  destruct s as [|b s]; [intros []|]. cbn [firstn].
  intros [<-|H]; [now left|right; now apply IH].
Qed.

Lemma at_upto (s : gostring) (n k : nat) :
  (k < n)%nat -> at_ (upto n s) (Z.of_nat k) = at_ s (Z.of_nat k).
Proof.
  intros Hk. unfold at_, upto. rewrite !Nat2Z.id.
  revert s k Hk. induction n as [|n IH]; intros s k Hk; [lia|].
  destruct s as [|b s]; [now destruct k|].
  destruct k as [|k]; [reflexivity|]. cbn [firstn nth]. apply IH. lia.
Qed.

Lemma In_from_In (t : gostring) (i : nat) (d : ascii) :
  In d (from i t) -> In d t.
Proof.
  unfold from. revert t. induction i as [|i IH]; intros t; [easy|].
  destruct t as [|b t]; [easy|]. cbn [skipn]. intros H. right. now apply IH.
Qed.

(** *** strings.Split, strings.Replace and strings.Index *)

Lemma Split_not_nil (s : gostring) (c : ascii) : strings.Split s c <> [].
Proof.
  destruct s as [|b s]; cbn [strings.Split]; [discriminate|].
  destruct (Ascii.eqb b c); [discriminate|].
  destruct (strings.Split s c); discriminate.
Qed.

Lemma Split_concat (a b : gostring) (c : ascii) :
  strings.Split (a ++ c :: b) c = strings.Split a c ++ strings.Split b c.
Proof.
  induction a as [|d a IH]; cbn [app strings.Split].
  - now rewrite Ascii.eqb_refl.
  - destruct (Ascii.eqb d c); [now rewrite IH|].
    rewrite IH. pose proof (Split_not_nil a c) as Hne.
    destruct (strings.Split a c) as [|piece pieces]; [congruence|].
    reflexivity.
Qed.

Lemma Split_bytes (s : gostring) (c : ascii) (piece : gostring) (d : ascii) :
  In piece (strings.Split s c) -> In d piece -> In d s.
Proof.
  revert piece. induction s as [|b s IH]; intros piece; cbn [strings.Split].
  - intros [<-|[]] [].
  - destruct (Ascii.eqb b c).
    + intros [<-|Hin] Hd; [destruct Hd|]. right. now apply (IH piece).
    + pose proof (Split_not_nil s c) as Hne.
      destruct (strings.Split s c) as [|p ps]; [congruence|].
      intros [<-|Hin] Hd.
      * destruct Hd as [<-|Hd]; [now left|].
        right. apply (IH p); [now left|exact Hd].
      * right. apply (IH piece); [now right|exact Hd].
Qed.

Lemma Split_first (s : gostring) (c : ascii) :
  exists piece pieces,
    strings.Split s c = piece :: pieces
    /\ (exists q, s = piece ++ q)
    /\ forall piece', In piece' pieces -> exists p q, s = p ++ piece' ++ q.
Proof.
  induction s as [|b s IH]; cbn [strings.Split].
  - exists [], []. split; [reflexivity|]. split; [now exists []|].
    intros piece' [].
  - destruct IH as [piece [pieces [E [[q0 Hq0] Hrest]]]].
    destruct (Ascii.eqb b c).
    + exists [], (strings.Split s c). split; [reflexivity|].
      split; [now exists (b :: s)|].
      rewrite E. intros piece' [<-|Hin].
      * exists [b], q0. cbn [app]. now rewrite <- Hq0.
      * destruct (Hrest piece' Hin) as [p [q Hpq]].
        exists (b :: p), q. cbn [app]. now rewrite <- Hpq.
    + rewrite E. exists (b :: piece), pieces. split; [reflexivity|].
      split; [exists q0; cbn [app]; now rewrite <- Hq0|].
      intros piece' Hin. destruct (Hrest piece' Hin) as [p [q Hpq]].
      exists (b :: p), q. cbn [app]. now rewrite <- Hpq.
Qed.

Lemma Split_infix (s : gostring) (c : ascii) (piece : gostring) :
  In piece (strings.Split s c) -> exists p q, s = p ++ piece ++ q.
Proof.
  destruct (Split_first s c) as [p0 [pieces [-> [[q0 Hq0] Hrest]]]].
  intros [<-|Hin]; [now exists [], q0|now apply Hrest].
Qed.

Lemma Replace_map (s : gostring) (old new : ascii) (n : Z) :
  n < 0 ->
  strings.Replace s old new n
  = map (fun b => if Ascii.eqb b old then new else b) s.
Proof.
  revert n. induction s as [|b s IH]; intros n Hn; [reflexivity|].
  cbn [strings.Replace map]. replace (n =? 0) with false by lia.
  destruct (Ascii.eqb b old); f_equal; apply IH; lia.
Qed.

Lemma Index_app (a b : gostring) (c : ascii) :
  ~ In c a -> strings.Index (a ++ c :: b) c = Z.of_nat (length a).
Proof.
  induction a as [|d a IH]; intros Hnot; cbn [app strings.Index length].
  - now rewrite Ascii.eqb_refl.
  - destruct (Ascii.eqb_spec d c) as [->|_]; [exfalso; apply Hnot; now left|].
    rewrite IH by (intros H; apply Hnot; now right).
    replace (Z.of_nat (length a) <? 0) with false by lia. lia.
Qed.

Lemma Index_upto (s : gostring) (c : ascii) :
  0 <= strings.Index s c ->
  ~ In c (upto (Z.to_nat (strings.Index s c)) s)
  /\ exists rest,
       s = upto (Z.to_nat (strings.Index s c)) s ++ c :: rest.
Proof.
  induction s as [|b s IH]; cbn [strings.Index]; [lia|].
  destruct (Ascii.eqb_spec b c) as [->|Hne].
  - intros _. split; [intros []|now exists s].
  - destruct (strings.Index s c <? 0) eqn:E; [lia|]. intros _.
    apply Z.ltb_ge in E. destruct (IH E) as [Hnot [rest Hrest]].
    replace (Z.to_nat (strings.Index s c + 1))
      with (S (Z.to_nat (strings.Index s c))) by lia.
    unfold upto in *. cbn [firstn]. split.
    + intros [H|H]; [congruence|now apply Hnot].
    + exists rest. cbn [app]. now rewrite <- Hrest.
Qed.

Lemma Index_absent (s : gostring) (c : ascii) :
  strings.Index s c < 0 -> ~ In c s.
Proof.
  induction s as [|b s IH]; cbn [strings.Index]; [intros _ []|].
  destruct (Ascii.eqb_spec b c) as [->|Hne]; [lia|].
  destruct (strings.Index s c <? 0) eqn:E; [|lia].
  apply Z.ltb_lt in E. intros _ [H|H]; [congruence|now apply IH].
Qed.

(** *** UTF-8 and strings.TrimSpace *)

(** The bytes of a multi-byte sequence after the first are continuation
    bytes. *)
Lemma decode_tail (s : gostring) (r : Z) (w : nat) :
  utf8.DecodeRuneInString s = (r, w) ->
  forall k, (1 <= k < w)%nat -> 0x80 <= byteZ (at_ s (Z.of_nat k)).
Proof.
  destruct s as [|c0 rest]; [intros [= <- <-]; lia|].
  decode_cases c0 rest; split_ifs; intros [= <- <-] k Hk; bool_hyps;
    try lia.
  all: destruct k as [|[|[|[|k]]]]; try lia.
  all: cbn [Z.of_nat Pos.of_succ_nat Pos.succ]; lia.
Qed.

Lemma indexFunc_spaces (s : gostring) :
  (forall c, In c s -> asciiSpace c = true) ->
  forall i, strings.indexFunc_from unicode.IsSpace false 0 i s = -1.
Proof.
  induction s as [|b s IH]; intros Hs i; [reflexivity|].
  cbn [strings.indexFunc_from].
  assert (Hb : asciiSpace b = true) by (apply Hs; now left).
  unfold asciiSpace in Hb. cbv zeta in Hb.
  pose proof (byteZ_range b) as Hr.
  rewrite decode_ascii by (bool_hyps; lia).
  assert (Hsp : unicode.IsSpace (byteZ b) = true).
  { unfold unicode.IsSpace, unicode.MaxLatin1.
    replace ((0 <=? byteZ b) && (byteZ b <=? 0xFF)) with true
      by (symmetry; apply andb_true_iff; lia).
    apply orb_true_iff in Hb. destruct Hb as [Hb| ->];
      [rewrite Hb; reflexivity|].
    now rewrite !orb_true_r. }
  rewrite Hsp. cbn [Bool.eqb Nat.sub]. apply IH.
  intros; apply Hs; now right.
Qed.

Lemma TrimSpace_spaces (s : gostring) :
  (forall c, In c s -> asciiSpace c = true) -> strings.TrimSpace s = [].
Proof.
  intros Hs. unfold strings.TrimSpace, strings.TrimFunc.
  assert (H : strings.TrimLeftFunc s unicode.IsSpace = []).
  { unfold strings.TrimLeftFunc, strings.indexFunc.
    now rewrite indexFunc_spaces. }
  rewrite H. reflexivity.
Qed.

(** *** filepath.Base and filepath.Join *)

Lemma stripTrailingSeparators_spec (path : gostring) (n : nat) :
  (filepath.stripTrailingSeparators path n <= n)%nat
  /\ (forall j, (filepath.stripTrailingSeparators path n <= j < n)%nat ->
        filepath.IsPathSeparator (at_ path (Z.of_nat j)) = true)
  /\ (forall k, filepath.stripTrailingSeparators path n = S k ->
        filepath.IsPathSeparator (at_ path (Z.of_nat k)) = false).
Proof.
  induction n as [|n IH]; cbn [filepath.stripTrailingSeparators].
  - split; [lia|split; [intros; lia|discriminate]].
  - destruct (filepath.IsPathSeparator (at_ path (Z.of_nat n))) eqn:E.
    + destruct IH as [Hle [Hsep Hlast]]. split; [lia|]. split; [|exact Hlast].
      intros j Hj. destruct (Nat.eq_dec j n) as [->|Hne]; [exact E|].
      apply Hsep. lia.
    + split; [lia|]. split; [intros; lia|].
      intros k [= <-]. exact E.
Qed.

Lemma afterLastSeparator_le (path : gostring) (n : nat) :
  (filepath.afterLastSeparator path n <= n)%nat.
Proof.
  induction n as [|n IH]; cbn [filepath.afterLastSeparator]; [lia|].
  destruct (filepath.IsPathSeparator _); lia.
Qed.

(** Only a path of separators has the root for its base name. *)
Lemma Base_root (path : gostring) :
  filepath.Base path = [filepath.Separator] ->
  forall c, In c path -> c = filepath.Separator.
Proof.
  unfold filepath.Base.
  destruct (gostring_eqb path "") eqn:E0; [discriminate|].
  remember (filepath.stripTrailingSeparators path (length path)) as n eqn:En.
  remember (upto n path) as p1 eqn:Ep1.
  destruct (stripTrailingSeparators_spec path (length path))
    as [Hle [Hsep Hlast]]. rewrite <- En in Hle, Hsep, Hlast.
  assert (Hlen : length p1 = n)
    by (subst p1; unfold upto; rewrite length_firstn; lia).
  destruct (gostring_eqb (from _ p1) "") eqn:E1.
  - intros _ c Hc. apply gostring_eqb_eq in E1.
    assert (Hn : n = 0%nat).
    { destruct n as [|k]; [reflexivity|exfalso].
      specialize (Hlast k eq_refl).
      assert (Hat : at_ p1 (Z.of_nat k) = at_ path (Z.of_nat k))
        by (subst p1; apply at_upto; lia).
      rewrite Hlen in E1. cbn [filepath.afterLastSeparator] in E1.
      rewrite Hat, Hlast in E1.
      pose proof (afterLastSeparator_le p1 k) as Hk.
      unfold from in E1.
      apply (f_equal (@length ascii)) in E1.
      rewrite length_skipn, Hlen in E1.
      change (length (go "")) with 0%nat in E1. lia. }
    apply (In_nth _ _ zero) in Hc. destruct Hc as [j [Hj <-]].
    specialize (Hsep j ltac:(lia)).
    unfold at_ in Hsep. rewrite Nat2Z.id in Hsep.
    unfold filepath.IsPathSeparator in Hsep. now apply Ascii.eqb_eq in Hsep.
  - intros H c Hc. exfalso.
    assert (Hin : In filepath.Separator (from
              (filepath.afterLastSeparator p1 (length p1)) p1))
      by (rewrite H; now left).
    apply In_from in Hin. destruct Hin as [j [Hj Hat]].
    assert (Hj' : (filepath.afterLastSeparator p1 (length p1) <= j
                   < length p1)%nat) by lia.
    pose proof (afterLastSeparator_spec p1 (length p1) j Hj') as Hns.
    rewrite Hat in Hns. discriminate.
Qed.

Lemma Join_dot_element (name : gostring) :
  pathElement name -> filepath.Join ["." : gostring; name] = name.
Proof.
  intros Hname.
  change (filepath.Join ["." : gostring; name])
    with (filepath.Clean ("."%char :: "/"%char :: name)).
  rewrite Clean_dot_slash, cleanLoop_element by exact Hname.
  cbn [withSeparator app andb orb negb length Nat.eqb].
  destruct Hname as [Hne _]. destruct name; [congruence|reflexivity].
Qed.

(** *** The buffer of filepath.Clean *)

Lemma cleanState_facts (rooted : bool) (out : gostring) (dotdot : nat) :
  cleanState rooted out dotdot ->
  (dotdot <= length out)%nat
  /\ rootedBuffer rooted out dotdot
  /\ (rooted = false ->
      (out = [] /\ dotdot = 0%nat)
      \/ exists c o, out = c :: o /\ c <> filepath.Separator).
Proof.
  induction 1 as [| |out H IH|rooted out dotdot name H IH Hname].
  - split; [cbn; lia|]. split; [|discriminate].
    intros _. split; [reflexivity|now exists []].
  - split; [cbn; lia|]. split; [intros H; discriminate|]. now left.
  - split; [lia|]. split; [intros H'; discriminate|].
    intros _. right. destruct IH as [_ [_ IH]].
    destruct (IH eq_refl) as [[-> _]|[c [o [-> Hc]]]].
    + exists "."%char, ["."%char]. split; [reflexivity|discriminate].
    + cbn [length Nat.ltb Nat.leb app]. eexists. eexists.
      split; [reflexivity|exact Hc].
  - destruct IH as [Hle [Hroot Hhead]]. split; [|split].
    + rewrite length_app. unfold withSeparator.
      destruct (_ || _); [rewrite length_app|]; lia.
    + now apply rootedBuffer_app, rootedBuffer_withSeparator.
    + intros Hr. right. destruct (Hhead Hr) as [[-> _]|[c [o [-> Hc]]]].
      * subst rooted. cbn. destruct Hname as [Hne [Hsep _]].
        destruct name as [|c name]; [congruence|].
        exists c, name. split; [reflexivity|]. apply Hsep. now left.
      * unfold withSeparator. destruct (_ || _); cbn [app];
          eexists; eexists; (split; [reflexivity|exact Hc]).
Qed.

(** What [withSeparator] puts before an element, and when. *)
Lemma withSeparator_cases (rooted : bool) (out : gostring) (dotdot : nat) :
  cleanState rooted out dotdot ->
  (withSeparator rooted out = out ++ [filepath.Separator]
   /\ out <> cleanStart rooted)
  \/ (withSeparator rooted out = out /\ out = cleanStart rooted
      /\ dotdot = length out).
Proof.
  intros H. destruct (cleanState_facts _ _ _ H) as [Hle [Hroot Hhead]].
  unfold withSeparator, cleanStart. destruct rooted; cbn [andb orb negb].
  - destruct (Hroot eq_refl) as [-> [o ->]].
    destruct o as [|c o]; cbn [length Nat.eqb negb].
    + right. repeat split.
    + left. split; [reflexivity|discriminate].
  - destruct (Hhead eq_refl) as [[-> ->]|[c [o [-> Hc]]]].
    + right. repeat split.
    + left. split; [reflexivity|discriminate].
Qed.

Lemma cleanState_last (rooted : bool) (out : gostring) (dotdot : nat) :
  cleanState rooted out dotdot -> (dotdot < length out)%nat ->
  exists prev name,
    cleanState rooted prev dotdot /\ pathElement name
    /\ out = withSeparator rooted prev ++ name.
Proof.
  intros H. destruct H as [| |out H|rooted out dotdot name H Hname];
    cbn [length]; try lia.
  intros _. now exists out, name.
Qed.

Lemma backtrack_name (p name : gostring) (dotdot : nat) :
  (forall c, In c name -> c <> filepath.Separator) ->
  (dotdot <= length p)%nat ->
  forall j, (j < length name)%nat ->
    filepath.backtrack (p ++ name) dotdot (length p + j)
    = filepath.backtrack (p ++ name) dotdot (length p).
Proof.
  intros Hname Hdd. induction j as [|j IH]; intros Hj.
  - now rewrite Nat.add_0_r.
  - replace (length p + S j)%nat with (S (length p + j)) by lia.
    cbn [filepath.backtrack].
    replace (dotdot <? S (length p + j))%nat with true
      by (symmetry; apply Nat.ltb_lt; lia).
    replace (Z.of_nat (S (length p + j)))
      with (Z.of_nat (length p + S j)) by lia.
    rewrite at_app_r.
    assert (Hc : filepath.IsPathSeparator (nth (S j) name zero) = false).
    { apply Ascii.eqb_neq, Hname, nth_In. lia. }
    rewrite Hc. cbn [andb negb]. apply IH. lia.
Qed.

(** Going back over the last element gives the buffer before it. *)
Lemma backtrack_element (rooted : bool) (prev : gostring) (dotdot : nat)
  (name : gostring) :
  cleanState rooted prev dotdot -> pathElement name ->
  let out := withSeparator rooted prev ++ name in
  upto (filepath.backtrack out dotdot (length out - 1)) out = prev.
Proof.
  intros Hprev [Hne [Hsep _]] out. subst out.
  destruct (cleanState_facts _ _ _ Hprev) as [Hle _].
  assert (Hlen : (1 <= length name)%nat)
    by (destruct name; [congruence|cbn [length]; lia]).
  destruct (withSeparator_cases _ _ _ Hprev) as [[-> _]|[-> [_ Hdd]]].
  - rewrite length_app.
    replace (length (prev ++ [filepath.Separator]) + length name - 1)%nat
      with (length (prev ++ [filepath.Separator]) + (length name - 1))%nat
      by lia.
    rewrite backtrack_name
      by (try assumption; rewrite ?length_app; cbn [length]; lia).
    rewrite length_app. cbn [length].
    replace (length prev + 1)%nat with (S (length prev)) by lia.
    cbn [filepath.backtrack].
    replace (dotdot <? S (length prev))%nat with true
      by (symmetry; apply Nat.ltb_lt; lia).
    replace (Z.of_nat (S (length prev)))
      with (Z.of_nat (length (prev ++ [filepath.Separator]) + 0)).
    2:{ rewrite length_app. cbn [length]. lia. }
    rewrite at_app_r.
    assert (Hc : filepath.IsPathSeparator (nth 0 name zero) = false).
    { apply Ascii.eqb_neq, Hsep, nth_In. lia. }
    rewrite Hc. cbn [andb negb].
    assert (Hback : filepath.backtrack
                      ((prev ++ [filepath.Separator]) ++ name) dotdot
                      (length prev) = length prev).
    { destruct (length prev) as [|w] eqn:Ew; [reflexivity|].
      cbn [filepath.backtrack].
      assert (Hat : at_ ((prev ++ [filepath.Separator]) ++ name)
                        (Z.of_nat (S w)) = filepath.Separator).
      { unfold at_. rewrite Nat2Z.id, <- Ew, <- !app_assoc. cbn [app].
        apply nth_middle. }
      rewrite Hat. change (filepath.IsPathSeparator filepath.Separator)
        with true.
      now rewrite andb_false_r. }
    rewrite Hback, <- app_assoc. apply upto_app.
  - rewrite length_app.
    replace (length prev + length name - 1)%nat
      with (length prev + (length name - 1))%nat by lia.
    rewrite backtrack_name by (try assumption; lia).
    assert (Hback : filepath.backtrack (prev ++ name) dotdot (length prev)
                    = length prev).
    { destruct (length prev) as [|w] eqn:Ew; [reflexivity|].
      cbn [filepath.backtrack].
      replace (dotdot <? S w)%nat with false
        by (symmetry; apply Nat.ltb_ge; lia).
      reflexivity. }
    rewrite Hback. apply upto_app.
Qed.

Lemma cleanDotDot_state (rooted : bool) (out : gostring) (dotdot : nat) :
  cleanState rooted out dotdot ->
  cleanState rooted (fst (filepath.cleanDotDot rooted out dotdot))
             (snd (filepath.cleanDotDot rooted out dotdot)).
Proof.
  intros H. destruct (cleanState_facts _ _ _ H) as [Hle _].
  unfold filepath.cleanDotDot.
  destruct (Nat.ltb_spec dotdot (length out)) as [Hlt|Hge]; cbn [fst snd].
  - destruct (cleanState_last _ _ _ H Hlt) as [prev [name [Hp [Hn ->]]]].
    now rewrite (backtrack_element rooted prev dotdot name Hp Hn).
  - assert (Hdd : dotdot = length out) by lia. subst dotdot.
    destruct rooted; cbn [negb fst snd]; [exact H|].
    now apply cleanState_dotdot.
Qed.

(** The loop of [Clean], one path element at a time. *)

Lemma cleanLoop_separator (rooted : bool) (out : gostring) (dotdot : nat)
  (rest : gostring) :
  filepath.cleanLoop rooted false out dotdot (filepath.Separator :: rest)
  = filepath.cleanLoop rooted false out dotdot rest.
Proof. reflexivity. Qed.

Lemma cleanLoop_copying_end (rooted : bool) (dotdot : nat) (s : gostring) :
  forall (out rest : gostring),
    (forall c, In c s -> c <> filepath.Separator) ->
    atElementEnd rest ->
    filepath.cleanLoop rooted true out dotdot (s ++ rest)
    = filepath.cleanLoop rooted false (out ++ s) dotdot rest.
Proof.
  induction s as [|c s IH]; intros out rest Hs Hrest; cbn [app].
  - rewrite app_nil_r. destruct Hrest as [->|[rest' ->]]; reflexivity.
  - cbn [filepath.cleanLoop]. unfold filepath.IsPathSeparator.
    destruct (Ascii.eqb_spec c filepath.Separator) as [E|E].
    + exfalso. apply (Hs c); [now left|exact E].
    + rewrite IH by (try assumption; intros; apply Hs; now right).
      now rewrite <- app_assoc.
Qed.

Lemma cleanLoop_name (rooted : bool) (out : gostring) (dotdot : nat)
  (name rest : gostring) :
  pathElement name -> atElementEnd rest ->
  filepath.cleanLoop rooted false out dotdot (name ++ rest)
  = filepath.cleanLoop rooted false (withSeparator rooted out ++ name)
                       dotdot rest.
Proof.
  intros [Hne [Hsep [Hdot Hdotdot]]] Hend.
  destruct name as [|c name']; [congruence|].
  assert (Hc : filepath.IsPathSeparator c = false).
  { apply Ascii.eqb_neq, Hsep. now left. }
  assert (Hrest : forall c', In c' name' -> c' <> filepath.Separator)
    by (intros; apply Hsep; now right).
  assert (Helem : filepath.cleanLoop rooted true
                    (withSeparator rooted out ++ [c]) dotdot (name' ++ rest)
                  = filepath.cleanLoop rooted false
                      (withSeparator rooted out ++ c :: name') dotdot rest).
  { rewrite cleanLoop_copying_end by assumption.
    now rewrite <- app_assoc. }
  cbn [app filepath.cleanLoop]. rewrite Hc. fold (withSeparator rooted out).
  destruct (Ascii.eqb_spec c ".") as [->|_]; [|exact Helem].
  destruct name' as [|c1 name'']; [now elim Hdot|]. cbn [app].
  assert (Hc1 : filepath.IsPathSeparator c1 = false).
  { apply Ascii.eqb_neq, Hrest. now left. }
  rewrite Hc1.
  destruct (Ascii.eqb_spec c1 ".") as [->|_]; [|exact Helem].
  destruct name'' as [|c2 name3]; [now elim Hdotdot|]. cbn [app].
  assert (Hc2 : filepath.IsPathSeparator c2 = false).
  { apply Ascii.eqb_neq, Hrest. right. now left. }
  rewrite Hc2. exact Helem.
Qed.

Lemma cleanLoop_dot (rooted : bool) (out : gostring) (dotdot : nat)
  (rest : gostring) :
  atElementEnd rest ->
  filepath.cleanLoop rooted false out dotdot ("."%char :: rest)
  = filepath.cleanLoop rooted false out dotdot rest.
Proof.
  intros [->|[rest' ->]]; reflexivity.
Qed.

Lemma cleanLoop_dotdot (rooted : bool) (out : gostring) (dotdot : nat)
  (rest : gostring) :
  atElementEnd rest ->
  filepath.cleanLoop rooted false out dotdot ("."%char :: "."%char :: rest)
  = filepath.cleanLoop rooted false
      (fst (filepath.cleanDotDot rooted out dotdot))
      (snd (filepath.cleanDotDot rooted out dotdot)) rest.
Proof.
  intros [->|[rest' ->]]; cbn [filepath.cleanLoop];
    change (filepath.IsPathSeparator "."%char) with false;
    change (filepath.IsPathSeparator filepath.Separator) with true;
    change (Ascii.eqb "."%char ".") with true; cbn [andb];
    now destruct (filepath.cleanDotDot rooted out dotdot).
Qed.

(** A path that does not begin with a separator begins with an element,
    which is [.], [..] or a name. *)
Lemma first_element (s : gostring) (c : ascii) :
  c <> filepath.Separator ->
  exists name rest,
    c :: s = name ++ rest /\ atElementEnd rest
    /\ (length rest <= length s)%nat
    /\ (name = ["."%char] \/ name = ["."%char; "."%char]
        \/ pathElement name).
Proof.
  intros Hc.
  assert (H : exists name rest,
            c :: s = name ++ rest /\ atElementEnd rest
            /\ (length rest <= length s)%nat
            /\ name <> []
            /\ forall d, In d name -> d <> filepath.Separator).
  { revert c Hc. induction s as [|d s IH]; intros c Hc.
    - exists [c], []. split; [reflexivity|]. split; [now left|].
      split; [cbn; lia|]. split; [discriminate|].
      intros d [<-|[]]. exact Hc.
    - destruct (Ascii.eqb_spec d filepath.Separator) as [->|Hd].
      + exists [c], (filepath.Separator :: s). split; [reflexivity|].
        split; [right; now exists s|]. split; [cbn; lia|].
        split; [discriminate|]. intros d [<-|[]]. exact Hc.
      + destruct (IH d Hd) as [name [rest [E [Hend [Hlen [_ Hsep]]]]]].
        exists (c :: name), rest. split; [cbn [app]; now rewrite E|].
        split; [exact Hend|]. split; [cbn [length]; lia|].
        split; [discriminate|].
        intros e [<-|He]; [exact Hc|now apply Hsep]. }
  destruct H as [name [rest [E [Hend [Hlen [Hne Hsep]]]]]].
  exists name, rest. split; [exact E|]. split; [exact Hend|].
  split; [exact Hlen|].
  destruct (list_eq_dec ascii_dec name ["."%char]) as [H1|H1];
    [now left|].
  destruct (list_eq_dec ascii_dec name ["."%char; "."%char]) as [H2|H2];
    [right; now left|].
  right. right. repeat split; assumption.
Qed.

(** The buffer stays in one of its states to the end of the path. *)
Lemma cleanLoop_state (rooted : bool) :
  forall (k : nat) (rest out : gostring) (dotdot : nat),
    (length rest <= k)%nat ->
    cleanState rooted out dotdot ->
    exists dotdot',
      cleanState rooted (filepath.cleanLoop rooted false out dotdot rest)
                 dotdot'.
Proof.
  induction k as [|k IH]; intros rest out dotdot Hk Hst.
  { destruct rest; [now exists dotdot|simpl in Hk; lia]. }
  destruct rest as [|c s]; [now exists dotdot|]. simpl in Hk.
  destruct (Ascii.eqb_spec c filepath.Separator) as [->|Hc].
  { rewrite cleanLoop_separator. apply IH; [lia|exact Hst]. }
  destruct (first_element s c Hc)
    as [name [rest [-> [Hend [Hlen [->|[->|Hname]]]]]]].
  - cbn [app]. rewrite cleanLoop_dot by exact Hend.
    apply IH; [lia|exact Hst].
  - cbn [app]. rewrite cleanLoop_dotdot by exact Hend.
    apply IH; [lia|now apply cleanDotDot_state].
  - rewrite cleanLoop_name by assumption.
    apply IH; [lia|now apply cleanState_element].
Qed.

Lemma cleanBody_app (rooted : bool) (out t : gostring) (dotdot : nat) :
  cleanState rooted out dotdot ->
  cleanBody rooted (out ++ t) = cleanBody rooted out ++ t.
Proof.
  intros H. destruct (cleanState_facts _ _ _ H) as [_ [Hroot _]].
  unfold cleanBody. destruct rooted; [|reflexivity].
  destruct (Hroot eq_refl) as [_ [o ->]]. reflexivity.
Qed.

(** Reading a state of the buffer again leads to that state. *)
Lemma cleanLoop_replay (rooted : bool) (out : gostring) (dotdot : nat) :
  cleanState rooted out dotdot ->
  forall rest, atElementEnd rest ->
    filepath.cleanLoop rooted false (cleanStart rooted)
      (length (cleanStart rooted)) (cleanBody rooted out ++ rest)
    = filepath.cleanLoop rooted false out dotdot rest.
Proof.
  induction 1 as [| |out H IH|rooted out dotdot name H IH Hname];
    intros rest Hend.
  - reflexivity.
  - reflexivity.
  - unfold cleanBody, cleanStart in *. cbn [length] in *.
    destruct out as [|c o].
    + cbn [length Nat.ltb Nat.leb app].
      now rewrite cleanLoop_dotdot.
    + cbn [length Nat.ltb Nat.leb]. rewrite <- !app_assoc.
      rewrite IH by (right; now eexists).
      cbn [app]. rewrite cleanLoop_separator, cleanLoop_dotdot by exact Hend.
      unfold filepath.cleanDotDot.
      rewrite Nat.ltb_irrefl. cbn [negb fst snd length Nat.ltb Nat.leb].
      now rewrite <- !app_assoc.
  - destruct (withSeparator_cases _ _ _ H) as [[E _]|[E [Hstart Hdd]]].
    + rewrite E, <- !app_assoc.
      rewrite (cleanBody_app _ _ _ _ H), <- app_assoc.
      rewrite IH by (right; now eexists).
      cbn [app]. rewrite cleanLoop_separator, cleanLoop_name by assumption.
      now rewrite E, <- !app_assoc.
    + rewrite E. rewrite (cleanBody_app _ _ _ _ H), <- app_assoc.
      assert (Hbody : cleanBody rooted out = []).
      { rewrite Hstart. now destruct rooted. }
      rewrite Hbody. cbn [app]. rewrite cleanLoop_name by assumption.
      rewrite <- Hstart, <- Hdd. now rewrite E.
Qed.

(** *** filepath.Clean on its own results *)

Lemma Clean_start (c : ascii) (s : gostring) :
  filepath.Clean (c :: s)
  = let rooted := filepath.IsPathSeparator c in
    let out := filepath.cleanLoop rooted false (cleanStart rooted)
                 (length (cleanStart rooted)) (cleanBody rooted (c :: s)) in
    if (length out =? 0)%nat then "." else out.
Proof.
  unfold filepath.Clean. now destruct (filepath.IsPathSeparator c).
Qed.

Lemma cleanState_start (rooted : bool) :
  cleanState rooted (cleanStart rooted) (length (cleanStart rooted)).
Proof.
  destruct rooted; [apply cleanState_root|apply cleanState_empty].
Qed.

(** [Clean] returns the last state of its buffer, or [.] when that is
    empty. *)
Lemma Clean_state (path : gostring) :
  exists rooted out dotdot,
    cleanState rooted out dotdot
    /\ filepath.Clean path = if (length out =? 0)%nat then "." else out.
Proof.
  destruct path as [|c s].
  - exists false, [], 0%nat. split; [apply cleanState_empty|reflexivity].
  - rewrite Clean_start. cbv zeta.
    set (rooted := filepath.IsPathSeparator c).
    destruct (cleanLoop_state rooted (length (cleanBody rooted (c :: s)))
                (cleanBody rooted (c :: s)) (cleanStart rooted)
                (length (cleanStart rooted)) (le_n _)
                (cleanState_start rooted)) as [dotdot' H].
    now exists rooted, (filepath.cleanLoop rooted false (cleanStart rooted)
                          (length (cleanStart rooted))
                          (cleanBody rooted (c :: s))), dotdot'.
Qed.

(** [Clean] on a state of its buffer followed by more of a path goes on
    from that state. *)
Lemma Clean_resume (rooted : bool) (out : gostring) (dotdot : nat)
  (rest : gostring) :
  cleanState rooted out dotdot -> out <> [] -> atElementEnd rest ->
  filepath.Clean (out ++ rest)
  = let out' := filepath.cleanLoop rooted false out dotdot rest in
    if (length out' =? 0)%nat then "." else out'.
Proof.
  intros H Hne Hend.
  destruct (cleanState_facts _ _ _ H) as [_ [Hroot Hhead]].
  destruct out as [|c o]; [congruence|]. cbn [app].
  rewrite Clean_start. cbv zeta.
  assert (Hr : filepath.IsPathSeparator c = rooted).
  { destruct rooted.
    - destruct (Hroot eq_refl) as [_ [o' [= -> _]]]. reflexivity.
    - destruct (Hhead eq_refl) as [[E _]|[c' [o' [[= <- _] Hc]]]];
        [discriminate|].
      now apply Ascii.eqb_neq. }
  rewrite Hr. change (c :: o ++ rest) with ((c :: o) ++ rest).
  rewrite (cleanBody_app _ _ _ _ H).
  now rewrite (cleanLoop_replay _ _ _ H).
Qed.

Lemma Clean_fixed (rooted : bool) (out : gostring) (dotdot : nat) :
  cleanState rooted out dotdot -> out <> [] -> filepath.Clean out = out.
Proof.
  intros H Hne. rewrite <- (app_nil_r out) at 1.
  rewrite (Clean_resume _ _ _ [] H Hne) by now left.
  cbn [filepath.cleanLoop]. cbv zeta.
  destruct out; [congruence|reflexivity].
Qed.

(** [Clean] is idempotent. *)
Lemma Clean_idempotent (path : gostring) :
  filepath.Clean (filepath.Clean path) = filepath.Clean path.
Proof.
  destruct (Clean_state path) as [rooted [out [dotdot [H ->]]]].
  destruct out as [|c o]; [reflexivity|]. cbn [length Nat.eqb].
  apply (Clean_fixed _ _ _ H). discriminate.
Qed.

(** A name joined to a state of the buffer. *)
Lemma Join_state (rooted : bool) (d : gostring) (dotdot : nat)
  (name : gostring) :
  cleanState rooted d dotdot -> d <> [] -> pathElement name ->
  filepath.Join [d; name] = withSeparator rooted d ++ name.
Proof.
  intros H Hd Hname. cbn [filepath.Join].
  pose proof Hd as Hd'. apply gostring_eqb_neq in Hd'.
  change (go "") with (@nil ascii). rewrite Hd'.
  change (strings.Join [d; name] [filepath.Separator])
    with (d ++ filepath.Separator :: name).
  rewrite (Clean_resume _ _ _ _ H Hd) by (right; now eexists).
  cbv zeta. rewrite cleanLoop_separator, cleanLoop_element by exact Hname.
  destruct (Nat.eqb_spec (length (withSeparator rooted d ++ name)) 0)
    as [E0|_]; [|reflexivity].
  rewrite length_app in E0. destruct Hname as [Hne _].
  destruct name; [congruence|simpl in E0; lia].
Qed.

(** The directory of a file in a directory that is a state of the
    buffer. *)
Lemma Dir_state (rooted : bool) (d : gostring) (dotdot : nat)
  (name : gostring) :
  cleanState rooted d dotdot -> d <> [] ->
  (forall c, In c name -> c <> filepath.Separator) ->
  filepath.Dir (d ++ filepath.Separator :: name) = d.
Proof.
  intros H Hd Hname. unfold filepath.Dir.
  change (d ++ filepath.Separator :: name)
    with (d ++ [filepath.Separator] ++ name).
  rewrite app_assoc, length_app.
  rewrite afterLastSeparator_last;
    [|exact Hname|right; now exists d|lia].
  rewrite upto_app.
  rewrite (Clean_resume _ _ _ _ H Hd) by (right; now exists []).
  cbv zeta. rewrite cleanLoop_separator. cbn [filepath.cleanLoop].
  destruct d; [congruence|reflexivity].
Qed.

(** A path that [Clean] leaves as it is, other than [.], is a state of
    the buffer. *)
Lemma Clean_fixed_state (d : gostring) :
  filepath.Clean d = d -> d <> go "." ->
  exists rooted dotdot, cleanState rooted d dotdot /\ d <> [].
Proof.
  intros Hfix Hdot.
  destruct (Clean_state d) as [rooted [out [dotdot [H E]]]].
  rewrite Hfix in E. destruct out as [|c o].
  - cbn [length Nat.eqb] in E. congruence.
  - cbn [length Nat.eqb] in E. subst d.
    exists rooted, dotdot. split; [exact H|discriminate].
Qed.

(** A name joined to a clean directory: the path is clean and its
    directory is the directory joined to. *)
Lemma Join_clean (path name : gostring) :
  pathElement name ->
  let joined := filepath.Join [filepath.Clean path; name] in
  filepath.Dir joined = filepath.Clean path
  /\ filepath.Clean joined = joined.
Proof.
  intros Hname joined. subst joined.
  pose proof Hname as [Hne [Hsep _]].
  destruct (Clean_state path) as [rooted [out [dotdot [H E]]]].
  destruct out as [|c o].
  - cbn [length Nat.eqb] in E. rewrite E.
    rewrite Join_dot_element by exact Hname. split.
    + now apply Dir_plain.
    + destruct (cleanState_facts _ _ _ H) as [_ [Hroot _]].
      assert (Hr : rooted = false).
      { destruct rooted; [|reflexivity].
        destruct (Hroot eq_refl) as [_ [o' Ho]]. discriminate. }
      subst rooted.
      pose proof (cleanState_element _ _ _ name H Hname) as Hst.
      now apply (Clean_fixed _ _ _ Hst).
  - cbn [length Nat.eqb] in E. rewrite E.
    set (d := c :: o) in *.
    assert (Hd : d <> []) by discriminate.
    match goal with |- context [filepath.Join ?l] =>
      assert (Hjoin : filepath.Join l = withSeparator rooted d ++ name)
        by (now apply (Join_state _ _ dotdot))
    end.
    rewrite Hjoin. split.
    + unfold filepath.Dir. rewrite length_app.
      destruct (cleanState_facts _ _ _ H) as [_ [Hroot _]].
      assert (Hroot' : rooted = true -> exists o', d = filepath.Separator :: o')
        by (intros Hr; now destruct (Hroot Hr)).
      rewrite afterLastSeparator_last;
        [|exact Hsep|now apply withSeparator_end|lia].
      rewrite upto_app.
      destruct (withSeparator_cases _ _ _ H) as [[-> _]|[-> [Hs _]]].
      * rewrite (Clean_resume _ _ _ _ H Hd) by (right; now exists []).
        cbv zeta. rewrite cleanLoop_separator. cbn [filepath.cleanLoop].
        subst d. reflexivity.
      * now apply (Clean_fixed _ _ _ H).
    + apply (Clean_fixed rooted _ dotdot).
      * now apply cleanState_element.
      * intros E0. apply app_eq_nil in E0. now destruct E0.
Qed.

(** ** The program *)

Section FurtherProperties.

Context {U : unicode.Tables}.

(** *** More on expand *)

(** The types of a macro are plain: each is trimmed, has no comma, names
    no macro, and stands for itself. *)
Lemma macros_plain (key : gostring) (exp : list gostring) (t : gostring) :
  lookup macros key = Some exp -> In t exp ->
  strings.TrimSpace t = t /\ ~ In ","%char t /\ t <> []
  /\ lookup macros (strings.ToLower t) = None.
Proof.
  unfold macros. cbn [lookup].
  repeat (destruct (gostring_eqb _ key);
          [intros [= <-]; cbn [In]; intros Hin;
           repeat (destruct Hin as [<-|Hin];
                   [split; [reflexivity|split; [|split]];
                    [cbn; intuition discriminate
                    |discriminate
                    |reflexivity]|]);
           destruct Hin|]).
  discriminate.
Qed.

Lemma macros_not_nil (key : gostring) (exp : list gostring) :
  lookup macros key = Some exp -> exp <> [].
Proof.
  unfold macros. cbn [lookup].
  repeat (destruct (gostring_eqb _ key); [intros [= <-]; discriminate|]).
  discriminate.
Qed.

(** What one round of the loop appends for a piece that is trimmed and
    not empty. *)
Lemma expandPiece_clean (piece : gostring) :
  strings.TrimSpace piece = piece -> piece <> [] ->
  expandPiece [] piece = macroOrType piece.
Proof.
  intros Ht Hne. unfold expandPiece, macroOrType. rewrite Ht.
  apply gostring_eqb_neq in Hne. change (go "") with (@nil ascii).
  rewrite Hne. destruct (lookup macros _); [|reflexivity].
  now rewrite fold_append.
Qed.

Lemma expand_cleanPieces (list : gostring) :
  expand list = flat_map macroOrType (cleanPieces list).
Proof.
  rewrite expand_flat_map.
  transitivity (flat_map (expandPiece []) (cleanPieces list)).
  { unfold cleanPieces. now rewrite flat_map_clean. }
  apply flat_map_ext_in. intros piece Hin.
  apply cleanPieces_clean in Hin. destruct Hin as [Ht [Hne _]].
  now apply expandPiece_clean.
Qed.

(** Every type that [expand] returns is trimmed, has no comma in it, is
    not empty and names no macro. *)
Lemma expand_plain (list t : gostring) :
  In t (expand list) ->
  strings.TrimSpace t = t /\ ~ In ","%char t /\ t <> []
  /\ lookup macros (strings.ToLower t) = None.
Proof.
  rewrite expand_cleanPieces, in_flat_map. intros [piece [Hp Hin]].
  apply cleanPieces_clean in Hp. destruct Hp as [Ht [Hne Hc]].
  unfold macroOrType in Hin.
  destruct (lookup macros (strings.ToLower piece)) as [exp|] eqn:El.
  - now apply (macros_plain _ _ _ El).
  - destruct Hin as [<-|[]]. tauto.
Qed.

Lemma macroOrType_plain (t : gostring) :
  lookup macros (strings.ToLower t) = None -> macroOrType t = [t].
Proof.
  unfold macroOrType. now intros ->.
Qed.

Lemma cleanPieces_plain (pieces : list gostring) :
  (forall t, In t pieces ->
     strings.TrimSpace t = t /\ ~ In ","%char t /\ t <> []) ->
  cleanPieces (strings.Join pieces ",") = pieces.
Proof.
  intros H. destruct pieces as [|p ps] eqn:E; [reflexivity|].
  rewrite <- E in *. unfold cleanPieces.
  change (go ",") with [","%char].
  rewrite Split_Join; [|subst; discriminate|intros t Ht; now apply H].
  clear E. induction pieces as [|t pieces IH]; [reflexivity|].
  cbn [map filter].
  destruct (H t ltac:(now left)) as [Ht [_ Hne]].
  rewrite Ht. apply gostring_eqb_neq in Hne.
  change (go "") with (@nil ascii). rewrite Hne. cbn [negb].
  f_equal. apply IH. intros; apply H; now right.
Qed.

(** X1. Two lists joined by a comma expand to the types of the first
    followed by the types of the second: the order of the pieces is kept
    and a type given twice comes out twice. *)
Theorem expand_comma (a b : gostring) :
  expand (a ++ go "," ++ b) = expand a ++ expand b.
Proof.
  rewrite !expand_flat_map. change (go "," ++ b) with (","%char :: b).
  now rewrite Split_concat, flat_map_app.
Qed.

Lemma expand_nil_iff (list : gostring) :
  expand list = [] <-> cleanPieces list = [].
Proof.
  rewrite expand_cleanPieces. split.
  - destruct (cleanPieces list) as [|p ps]; [reflexivity|].
    cbn [flat_map]. intros H. apply app_eq_nil in H. destruct H as [H _].
    unfold macroOrType in H.
    destruct (lookup macros _) as [exp|] eqn:El; [|discriminate].
    now apply macros_not_nil in El.
  - now intros ->.
Qed.

Lemma expand_spaces (list : gostring) :
  (forall c, In c list -> c = ","%char \/ asciiSpace c = true) ->
  expand list = [].
Proof.
  intros Hs. apply expand_nil_iff. unfold cleanPieces.
  assert (H : forall pieces : Datatypes.list gostring,
            (forall piece, In piece pieces -> strings.TrimSpace piece = []) ->
            filter (fun piece => negb (gostring_eqb piece ""))
                   (map strings.TrimSpace pieces) = []).
  { induction pieces as [|p ps IH]; intros Hp; [reflexivity|].
    cbn [map filter]. rewrite (Hp p) by now left.
    cbn. apply IH. intros; apply Hp; now right. }
  apply H. intros piece Hin. apply TrimSpace_spaces. intros c Hc.
  destruct (Hs c (Split_bytes _ _ _ _ Hin Hc)) as [->|Hsp]; [|exact Hsp].
  now apply Split_pieces in Hin.
Qed.

(** X2. [expand] returns no type exactly when every piece of the list is
    empty once trimmed; that is so for the empty list and for any list
    made of commas and ASCII white space only. *)
Theorem expand_blank (list : gostring) :
  (expand list = [] <-> cleanPieces list = [])
  /\ ((forall c, In c list -> c = ","%char \/ asciiSpace c = true) ->
      expand list = []).
Proof.
  split; [apply expand_nil_iff|apply expand_spaces].
Qed.

Lemma expand_plain_list (types : Datatypes.list gostring) :
  (forall t, In t types ->
     strings.TrimSpace t = t /\ ~ In ","%char t /\ t <> []
     /\ lookup macros (strings.ToLower t) = None) ->
  expand (strings.Join types ",") = types.
Proof.
  intros H. rewrite expand_cleanPieces, cleanPieces_plain.
  - apply flat_map_single. intros t Ht.
    apply macroOrType_plain. now apply H in Ht.
  - intros t Ht. apply H in Ht. tauto.
Qed.

(** X3. [expand] reads back a list of types that was written with
    [strings.Join]: types that are trimmed, have no comma, are not empty
    and name no macro, joined by commas, expand to themselves. The types
    that [expand] returns are such types, so that expanding is
    idempotent. *)
Theorem expand_idempotent :
  (forall types : Datatypes.list gostring,
     (forall t, In t types ->
        strings.TrimSpace t = t /\ ~ In ","%char t /\ t <> []
        /\ lookup macros (strings.ToLower t) = None) ->
     expand (strings.Join types ",") = types)
  /\ forall list : gostring,
       expand (strings.Join (expand list) ",") = expand list.
Proof.
  split; [exact expand_plain_list|].
  intros list. apply expand_plain_list.
  intros t Ht. now apply expand_plain in Ht.
Qed.

(** X4. No type that [expand] returns has white space around it, a comma
    in it or the name of a macro, in any case, for its text; each one
    expands to itself. *)
Theorem expand_types_plain (list t : gostring) :
  In t (expand list) ->
  strings.TrimSpace t = t
  /\ ~ In ","%char t
  /\ lookup macros (strings.ToLower t) = None
  /\ expand t = [t].
Proof.
  intros Hin. apply expand_plain in Hin.
  destruct Hin as [Ht [Hc [Hne Hl]]].
  split; [exact Ht|]. split; [exact Hc|]. split; [exact Hl|].
  rewrite expand_flat_map, Split_whole by exact Hc.
  cbn [flat_map]. rewrite app_nil_r, expandPiece_clean by assumption.
  now apply macroOrType_plain.
Qed.

(** X5. [expand] is the substitution of the macros in the trimmed,
    non-empty pieces of the list, in their order; a list that names no
    macro expands to these pieces as they are, in the case they are
    written in. *)
Theorem expand_substitutes (list : gostring) :
  expand list = flat_map macroOrType (cleanPieces list)
  /\ ((forall piece, In piece (cleanPieces list) ->
         lookup macros (strings.ToLower piece) = None) ->
      expand list = cleanPieces list).
Proof.
  split; [apply expand_cleanPieces|].
  intros H. rewrite expand_cleanPieces. apply flat_map_single.
  intros piece Hin. now apply macroOrType_plain, H.
Qed.

Lemma lookup_In (m : list (gostring * list gostring)) (key : gostring)
  (exp : list gostring) :
  lookup m key = Some exp -> In (key, exp) m.
Proof.
  induction m as [|[k v] m IH]; cbn [lookup]; [discriminate|].
  destruct (gostring_eqb k key) eqn:E.
  - apply gostring_eqb_eq in E. intros [= <-]. left. now rewrite E.
  - intros H. right. now apply IH.
Qed.

(** X6. [expand] invents no type: each type it returns is one of the
    types of a macro of the table or is written in the list, as a run of
    its bytes. *)
Theorem expand_sources (list t : gostring) :
  In t (expand list) ->
  (exists key exp, In (key, exp) macros /\ In t exp)
  \/ exists p q, list = p ++ t ++ q.
Proof.
  rewrite expand_cleanPieces, in_flat_map. intros [piece [Hp Hin]].
  unfold macroOrType in Hin.
  destruct (lookup macros (strings.ToLower piece)) as [exp|] eqn:El.
  - left. apply lookup_In in El. exists (strings.ToLower piece), exp.
    now split.
  - right. destruct Hin as [<-|[]].
    unfold cleanPieces in Hp. apply filter_In in Hp. destruct Hp as [Hp _].
    apply in_map_iff in Hp. destruct Hp as [xt [<- Hxt]].
    destruct (Split_infix _ _ _ Hxt) as [p [q ->]].
    destruct (TrimSpace_infix xt) as [p' [q' E]].
    exists (p ++ p'), (q' ++ q). rewrite E at 1.
    now rewrite <- !app_assoc.
Qed.

(** *** More on makeName *)

Lemma slicePrefixes_zero (t : gostring) :
  slicePrefixes t = 0%nat -> strings.HasPrefix t "[]" = false.
Proof.
  destruct t as [|c1 [|c2 t]]; try reflexivity.
  unfold strings.HasPrefix. cbn. rewrite andb_true_r.
  destruct (Ascii.eqb c1 "[" && Ascii.eqb c2 "]"); [discriminate|reflexivity].
Qed.

Lemma slicePrefixes_succ (t : gostring) (n : nat) :
  slicePrefixes t = S n ->
  exists t', t = "["%char :: "]"%char :: t' /\ slicePrefixes t' = n.
Proof.
  destruct t as [|c1 [|c2 t]]; try discriminate. cbn [slicePrefixes].
  destruct (Ascii.eqb_spec c1 "[") as [->|]; [|discriminate].
  destruct (Ascii.eqb_spec c2 "]") as [->|]; [|discriminate].
  cbn [andb]. intros [= H]. now exists t.
Qed.

Lemma slicePrefixes_length (t : gostring) :
  (2 * slicePrefixes t <= length t)%nat.
Proof.
  remember (slicePrefixes t) as n eqn:E. symmetry in E. revert t E.
  induction n as [|n IH]; intros t E; [lia|].
  apply slicePrefixes_succ in E. destruct E as [t' [-> E]].
  specialize (IH t' E). cbn [length]. lia.
Qed.

Lemma makeName_slice (t : gostring) :
  makeName ("["%char :: "]"%char :: t) = makeName (t ++ go "Slice").
Proof.
  rewrite makeName_eq at 1. reflexivity.
Qed.

(** [makeName] takes all the leading ["[]"] off and puts as many
    ["Slice"] at the end before it replaces and capitalizes. *)
Lemma makeName_form (t : gostring) :
  makeName t
  = capitalize (from (2 * slicePrefixes t) t ++ slices (slicePrefixes t)).
Proof.
  remember (slicePrefixes t) as n eqn:E. symmetry in E. revert t E.
  induction n as [|n IH]; intros t E.
  - rewrite makeName_eq, slicePrefixes_zero by exact E.
    cbn [Nat.mul slices from skipn]. now rewrite app_nil_r.
  - apply slicePrefixes_succ in E. destruct E as [t' [-> E]].
    rewrite makeName_slice, IH by (now rewrite slicePrefixes_Slice).
    f_equal. replace (2 * S n)%nat with (S (S (2 * n))) by lia.
    unfold from. cbn [skipn slices].
    pose proof (slicePrefixes_length t') as Hl. rewrite E in Hl.
    rewrite skipn_app.
    replace (2 * n - length t')%nat with 0%nat by lia.
    cbn [skipn]. now rewrite <- app_assoc.
Qed.

Lemma capitalize_underscore (t : gostring) :
  capitalize t = strings.Title (map underscore t).
Proof.
  unfold capitalize. f_equal. rewrite !Replace_map by lia.
  rewrite !map_map. apply map_ext. intros b. unfold underscore.
  destruct (Ascii.eqb_spec b ".") as [->|]; [reflexivity|].
  destruct (Ascii.eqb_spec b "[") as [->|]; [reflexivity|].
  destruct (Ascii.eqb_spec b "]") as [->|]; reflexivity.
Qed.

(** X7. [makeName] in closed form: a type with [n] leading ["[]"] is
    named as the type without them followed by [n] times ["Slice"], with
    every ['.'], ['['] and [']'] of it replaced by ['_'] and the result
    put in title case. *)
Theorem makeName_closed_form (t : gostring) :
  makeName t
  = strings.Title
      (map underscore
           (from (2 * slicePrefixes t) t ++ slices (slicePrefixes t))).
Proof.
  rewrite makeName_form. apply capitalize_underscore.
Qed.

Lemma slicePrefixes_map (f : ascii -> ascii) (t : gostring) :
  (forall b, Ascii.eqb (f b) "[" = Ascii.eqb b "[") ->
  (forall b, Ascii.eqb (f b) "]" = Ascii.eqb b "]") ->
  slicePrefixes (map f t) = slicePrefixes t.
Proof.
  intros H1 H2.
  assert (H : forall k (u : gostring), (length u <= k)%nat ->
            slicePrefixes (map f u) = slicePrefixes u).
  { induction k as [|k IH]; intros u Hu.
    - destruct u; [reflexivity|simpl in Hu; lia].
    - destruct u as [|c1 [|c2 u]]; try reflexivity.
      cbn [map slicePrefixes]. rewrite H1, H2.
      destruct (_ && _); [|reflexivity].
      f_equal. apply IH. simpl in Hu. lia. }
  now apply (H (length t)).
Qed.

Lemma slicePrefixes_dots (t : gostring) :
  slicePrefixes (strings.Replace t "." "_" (-1)) = slicePrefixes t.
Proof.
  rewrite Replace_map by lia.
  apply slicePrefixes_map; intros b;
    destruct (Ascii.eqb_spec b ".") as [->|]; reflexivity.
Qed.

Lemma map_underscore_dots (t : gostring) :
  map underscore (strings.Replace t "." "_" (-1)) = map underscore t.
Proof.
  rewrite Replace_map, map_map by lia. apply map_ext. intros b.
  destruct (Ascii.eqb_spec b ".") as [->|]; reflexivity.
Qed.

(** X8. [makeName] does not tell a dot from an underscore: a type and
    the type with its dots replaced by underscores get the same name. *)
Theorem makeName_dots (t : gostring) :
  makeName (strings.Replace t "." "_" (-1)) = makeName t.
Proof.
  rewrite (makeName_form t), makeName_form, slicePrefixes_dots.
  rewrite !capitalize_underscore. f_equal.
  rewrite !map_app. f_equal.
  rewrite Replace_map by lia. unfold from. rewrite skipn_map.
  rewrite <- (Replace_map _ "." "_" (-1)) by lia.
  apply map_underscore_dots.
Qed.

Lemma underscore_ident (c : ascii) :
  typeByte c = true -> identByte (underscore c) = true.
Proof.
  unfold typeByte, underscore.
  destruct (Ascii.eqb c "."); [reflexivity|].
  destruct (Ascii.eqb c "["); [reflexivity|].
  destruct (Ascii.eqb c "]"); [reflexivity|].
  now rewrite !orb_false_r.
Qed.

Lemma upperByte_ident (c : ascii) :
  identByte c = true ->
  identByte (upperByte c) = true /\ upperByte (upperByte c) = upperByte c.
Proof.
  intros Hc. unfold upperByte. cbv zeta.
  destruct ((0x61 <=? byteZ c) && (byteZ c <=? 0x7A)) eqn:E.
  - bool_hyps.
    assert (Hb : byteZ (byte (byteZ c - 0x20)) = byteZ c - 0x20)
      by (rewrite byteZ_byte; apply Z.mod_small; lia).
    unfold identByte. cbv zeta. rewrite Hb. split.
    + replace ((0x41 <=? byteZ c - 0x20) && (byteZ c - 0x20 <=? 0x5A))
        with true by (symmetry; apply andb_true_iff; lia).
      now rewrite !orb_true_r.
    + replace ((0x61 <=? byteZ c - 0x20) && (byteZ c - 0x20 <=? 0x7A))
        with false by (symmetry; apply andb_false_iff; lia).
      reflexivity.
  - rewrite E. now split.
Qed.

Lemma slices_ident (n : nat) (d : ascii) :
  In d (slices n) -> identByte d = true.
Proof.
  induction n as [|n IH]; cbn [slices]; [intros []|].
  intros H. apply in_app_or in H. destruct H as [H|H]; [|now apply IH].
  cbn in H. intuition (subst; reflexivity).
Qed.

(** The name of a word of letters, digits and underscores: the word with
    its first byte in upper case. *)
Lemma makeName_word (c : ascii) (s : gostring) :
  identByte c = true -> (forall d, In d s -> identByte d = true) ->
  makeName (c :: s) = upperByte c :: s.
Proof.
  intros Hc Hs. rewrite makeName_eq.
  assert (Hpre : strings.HasPrefix (c :: s) "[]" = false).
  { unfold strings.HasPrefix. destruct s as [|c1 s']; [reflexivity|].
    cbn. destruct (Ascii.eqb_spec c "[") as [->|_]; [discriminate|].
    reflexivity. }
  rewrite Hpre, capitalize_underscore.
  assert (Hall : forall d, In d (c :: s) -> identByte d = true)
    by (intros d [<-|Hd]; [exact Hc|now apply Hs]).
  assert (Hid : map underscore (c :: s) = c :: s).
  { rewrite <- (map_id (c :: s)) at 2. apply map_ext_in.
    intros d Hd. apply Hall in Hd. unfold underscore.
    destruct (Ascii.eqb_spec d ".") as [->|_]; [discriminate|].
    destruct (Ascii.eqb_spec d "[") as [->|_]; [discriminate|].
    destruct (Ascii.eqb_spec d "]") as [->|_]; [discriminate|].
    reflexivity. }
  rewrite Hid. now apply Title_word.
Qed.

Lemma makeName_ascii_form (t : gostring) :
  t <> [] -> (forall d, In d t -> typeByte d = true) ->
  exists (c : ascii) (s : gostring),
    map underscore
        (from (2 * slicePrefixes t) t ++ slices (slicePrefixes t))
    = c :: s
    /\ (forall d, In d (c :: s) -> identByte d = true)
    /\ makeName t = upperByte c :: s.
Proof.
  intros Hne Ht.
  set (u := from (2 * slicePrefixes t) t ++ slices (slicePrefixes t)).
  assert (Hu : forall d, In d (map underscore u) -> identByte d = true).
  { intros d Hd. apply in_map_iff in Hd. destruct Hd as [b [<- Hb]].
    apply underscore_ident. subst u. apply in_app_or in Hb.
    destruct Hb as [Hb|Hb].
    - apply Ht. now apply In_from_In in Hb.
    - apply slices_ident in Hb. unfold typeByte. now rewrite Hb. }
  assert (Hune : map underscore u <> []).
  { subst u. destruct (slicePrefixes t) as [|n].
    - destruct t; [congruence|discriminate].
    - rewrite map_app. cbn [slices].
      intros H. apply app_eq_nil in H. destruct H as [_ H]. discriminate. }
  destruct (map underscore u) as [|c s] eqn:E; [congruence|].
  exists c, s. split; [reflexivity|]. split; [exact Hu|].
  rewrite makeName_form, capitalize_underscore. fold u. rewrite E.
  apply Title_word; [apply Hu; now left|].
  intros d Hd. apply Hu. now right.
Qed.

(** X9. For a type written with ASCII letters, digits, ['_'], ['.'],
    ['['] and [']'], [makeName] works on bytes: the leading ["[]"] go, as
    many ["Slice"] come at the end, every ['.'], ['['] and [']'] becomes
    ['_'] and the first byte is put in upper case. The name consists of
    letters, digits and ['_'] only, and is three bytes longer than the
    type for each leading ["[]"]. *)
Theorem makeName_ascii (t : gostring) :
  t <> [] -> (forall d, In d t -> typeByte d = true) ->
  makeName t
  = match map underscore
              (from (2 * slicePrefixes t) t ++ slices (slicePrefixes t))
    with
    | [] => []
    | c :: s => upperByte c :: s
    end
  /\ (forall d, In d (makeName t) -> identByte d = true)
  /\ length (makeName t) = (length t + 3 * slicePrefixes t)%nat.
Proof.
  intros Hne Ht.
  destruct (makeName_ascii_form t Hne Ht) as [c [s [E [Hid Hm]]]].
  rewrite E. split; [exact Hm|]. split.
  - rewrite Hm. intros d [<-|Hd].
    + apply upperByte_ident, Hid. now left.
    + apply Hid. now right.
  - rewrite Hm. change (length (upperByte c :: s)) with (length (c :: s)).
    rewrite <- E, length_map, length_app. unfold from.
    rewrite length_skipn.
    pose proof (slicePrefixes_length t) as Hl.
    assert (Hs : forall n, length (slices n) = (5 * n)%nat).
    { induction n as [|n IH]; [reflexivity|].
      cbn [slices]. rewrite length_app, IH. simpl. lia. }
    rewrite Hs. lia.
Qed.

(** X10. On such types [makeName] is idempotent: the name of a name is
    the name. *)
Theorem makeName_idempotent (t : gostring) :
  t <> [] -> (forall d, In d t -> typeByte d = true) ->
  makeName (makeName t) = makeName t.
Proof.
  intros Hne Ht.
  destruct (makeName_ascii_form t Hne Ht) as [c [s [_ [Hid Hm]]]].
  rewrite Hm.
  destruct (upperByte_ident c (Hid c ltac:(now left))) as [Hu Huu].
  rewrite makeName_word, Huu; [reflexivity|exact Hu|].
  intros d Hd. apply Hid. now right.
Qed.

Lemma keptByte_facts (c : ascii) :
  keptByte c = true ->
  byteZ c < 0x80 /\ unicode.ToTitle (byteZ c) = byteZ c
  /\ underscore c = c /\ c <> "["%char /\ c <> "]"%char.
Proof.
  unfold keptByte. cbv zeta. intros H.
  apply andb_true_iff in H. destruct H as [H H3].
  apply andb_true_iff in H. destruct H as [H1 H2].
  apply negb_true_iff in H2, H3. apply Z.ltb_lt in H1.
  split; [exact H1|]. split; [|split].
  - unfold unicode.ToTitle, unicode.MaxASCII.
    replace (byteZ c <=? 0x7F) with true by lia. now rewrite H2.
  - unfold underscore. now rewrite H3.
  - apply orb_false_elim in H3. destruct H3 as [H3 H5].
    apply orb_false_elim in H3. destruct H3 as [H3 H4].
    split; intros ->; discriminate.
Qed.

(** [strings.Title] writes a kept byte where it reads one. *)
Lemma Title_keeps (c : ascii) :
  keptByte c = true ->
  forall (s : gostring) (prev : Z) (skip : nat),
    (forall k, (k < skip)%nat -> (k < length s)%nat ->
       0x80 <= byteZ (at_ s (Z.of_nat k))) ->
    In c s ->
    In c (strings.MapState
            (fun prev r =>
               if strings.isSeparator prev then (r, unicode.ToTitle r)
               else (r, r))
            prev skip s).
Proof.
  intros Hc. destruct (keptByte_facts c Hc) as [Ha [Ht _]].
  pose proof (byteZ_range c) as Hr.
  induction s as [|b s IH]; intros prev skip Hskip Hin; [destruct Hin|].
  cbn [strings.MapState].
  assert (Hshift : forall k, at_ (b :: s) (Z.of_nat (S k))
                             = at_ s (Z.of_nat k)).
  { intros k. unfold at_. now rewrite !Nat2Z.id. }
  destruct skip as [|skip].
  - destruct (utf8.DecodeRuneInString (b :: s)) as [r w] eqn:Hd.
    assert (Htail : forall st, In c s ->
              In c (strings.MapState
                      (fun prev r =>
                         if strings.isSeparator prev
                         then (r, unicode.ToTitle r) else (r, r))
                      st (w - 1) s)).
    { intros st Hs. apply IH; [|exact Hs].
      intros k Hk Hlen. rewrite <- Hshift.
      apply (decode_tail _ _ _ Hd). lia. }
    destruct Hin as [->|Hin].
    + rewrite decode_ascii in Hd by exact Ha.
      injection Hd as <- <-.
      destruct (strings.isSeparator prev).
      * rewrite Ht. replace (0 <=? byteZ c) with true by lia.
        rewrite encode_ascii, byte_byteZ by lia. now left.
      * replace (0 <=? byteZ c) with true by lia.
        rewrite encode_ascii, byte_byteZ by lia. now left.
    + destruct (strings.isSeparator prev); apply in_or_app; right;
        now apply Htail.
  - destruct Hin as [->|Hin].
    + specialize (Hskip 0%nat ltac:(lia) ltac:(cbn [length]; lia)).
      change (at_ (c :: s) (Z.of_nat 0)) with c in Hskip. lia.
    + apply IH; [|exact Hin].
      intros k Hk Hlen. rewrite <- Hshift.
      apply Hskip; cbn [length]; lia.
Qed.

Lemma In_after_slices (t : gostring) (c : ascii) :
  c <> "["%char -> c <> "]"%char -> In c t ->
  In c (from (2 * slicePrefixes t) t).
Proof.
  intros H1 H2.
  remember (slicePrefixes t) as n eqn:E. symmetry in E. revert t E.
  induction n as [|n IH]; intros t E Hin; [exact Hin|].
  apply slicePrefixes_succ in E. destruct E as [t' [-> E]].
  replace (2 * S n)%nat with (S (S (2 * n))) by lia.
  unfold from. cbn [skipn]. apply (IH t' E).
  destruct Hin as [Hin|[Hin|Hin]]; congruence.
Qed.

(** X11. [makeName] replaces three characters and no other: an ASCII
    byte of the type that is none of ['.'], ['['] and [']'] and no
    lower-case letter, be it a ['*'], a space or a parenthesis, is still
    in the name. *)
Theorem makeName_keeps (t : gostring) (c : ascii) :
  keptByte c = true -> In c t -> In c (makeName t).
Proof.
  intros Hc Hin. destruct (keptByte_facts c Hc) as [_ [_ [Hu [H1 H2]]]].
  rewrite makeName_form, capitalize_underscore. unfold strings.Title.
  apply Title_keeps; [exact Hc|intros k Hk; lia|].
  rewrite <- Hu. apply in_map, in_or_app. left.
  now apply In_after_slices.
Qed.

Lemma isSeparator_ascii (c : ascii) :
  byteZ c < 0x80 -> strings.isSeparator (byteZ c) = negb (identByte c).
Proof.
  intros Ha. unfold strings.isSeparator, identByte. cbv zeta.
  replace (byteZ c <=? 0x7F) with true by lia.
  destruct ((0x30 <=? byteZ c) && (byteZ c <=? 0x39)); [reflexivity|].
  destruct ((0x61 <=? byteZ c) && (byteZ c <=? 0x7A));
    [now rewrite orb_true_r|].
  destruct ((0x41 <=? byteZ c) && (byteZ c <=? 0x5A)); [reflexivity|].
  now destruct (byteZ c =? 0x5F).
Qed.

(** [strings.Title] on a string of ASCII bytes. *)
Lemma Title_ascii (s : gostring) :
  (forall d, In d s -> byteZ d < 0x80) ->
  forall prev,
    strings.MapState
      (fun prev r =>
         if strings.isSeparator prev then (r, unicode.ToTitle r) else (r, r))
      prev 0 s
    = titleBytes (strings.isSeparator prev) s.
Proof.
  induction s as [|c s IH]; intros Hs prev; [reflexivity|].
  cbn [strings.MapState titleBytes].
  assert (Ha : byteZ c < 0x80) by (apply Hs; now left).
  pose proof (byteZ_range c) as Hr.
  rewrite decode_ascii by exact Ha.
  assert (IH' : forall prev',
            strings.MapState
              (fun prev r =>
                 if strings.isSeparator prev then (r, unicode.ToTitle r)
                 else (r, r))
              prev' 0 s
            = titleBytes (strings.isSeparator prev') s)
    by (apply IH; intros; apply Hs; now right).
  destruct (strings.isSeparator prev).
  - unfold unicode.ToTitle, unicode.MaxASCII, upperByte. cbv zeta.
    replace (byteZ c <=? 0x7F) with true by lia.
    destruct ((0x61 <=? byteZ c) && (byteZ c <=? 0x7A)) eqn:E.
    + bool_hyps. replace (0 <=? byteZ c - (0x61 - 0x41)) with true by lia.
      rewrite encode_ascii by lia. cbn [app Nat.sub]. f_equal.
      rewrite IH'. now rewrite isSeparator_ascii.
    + replace (0 <=? byteZ c) with true by lia.
      rewrite encode_ascii, byte_byteZ by lia. cbn [app Nat.sub]. f_equal.
      rewrite IH'. now rewrite isSeparator_ascii.
  - replace (0 <=? byteZ c) with true by lia.
    rewrite encode_ascii, byte_byteZ by lia. cbn [app Nat.sub]. f_equal.
    rewrite IH'. now rewrite isSeparator_ascii.
Qed.

(** X12. What [makeName] does to any type written in ASCII: the
    leading ["[]"] go, as many ["Slice"] come at the end, every ['.'],
    ['['] and [']'] becomes ['_'], and the first letter of every word is
    put in upper case, a word being a run of letters, digits and
    underscores; ["chan int"] is named ["Chan Int"] and
    ["map[string]int"] is named ["Map_string_int"]. *)
Theorem makeName_ascii_words (t : gostring) :
  (forall d, In d t -> byteZ d < 0x80) ->
  makeName t
  = titleBytes true
      (map underscore
           (from (2 * slicePrefixes t) t ++ slices (slicePrefixes t))).
Proof.
  intros Ht. rewrite makeName_form, capitalize_underscore.
  unfold strings.Title. rewrite Title_ascii; [reflexivity|].
  intros d Hd. apply in_map_iff in Hd. destruct Hd as [b [<- Hb]].
  assert (Hb' : byteZ b < 0x80).
  { apply in_app_or in Hb. destruct Hb as [Hb|Hb].
    - apply Ht. now apply In_from_In in Hb.
    - apply slices_ident in Hb. now apply identByte_ascii. }
  unfold underscore. destruct (_ || _); [reflexivity|exact Hb'].
Qed.

(** *** More on main *)

Lemma build_types (name x y z : gostring) :
  let top := build name x y z in
  map Tmpl.X_Type (Tmpl.Top_X top) = expand x
  /\ map Tmpl.X_Name (Tmpl.Top_X top) = map makeName (expand x)
  /\ forall xe, In xe (Tmpl.Top_X top) ->
       map Tmpl.Y_Type (Tmpl.X_Y xe) = expand y
       /\ map Tmpl.Y_Name (Tmpl.X_Y xe) = map makeName (expand y)
       /\ forall ye, In ye (Tmpl.X_Y xe) ->
            map Tmpl.Z_Type (Tmpl.Y_Z ye) = expand z
            /\ map Tmpl.Z_Name (Tmpl.Y_Z ye) = map makeName (expand z).
Proof.
  intros top. subst top. rewrite build_cross. cbn [Tmpl.Top_X].
  unfold xEntries. rewrite !map_map. cbn [Tmpl.X_Type Tmpl.X_Name].
  split; [apply map_id|]. split; [reflexivity|].
  intros xe Hxe. apply in_map_iff in Hxe. destruct Hxe as [xt [<- _]].
  cbn [Tmpl.X_Y]. unfold yEntries. rewrite !map_map.
  cbn [Tmpl.Y_Type Tmpl.Y_Name].
  split; [apply map_id|]. split; [reflexivity|].
  intros ye Hye. apply in_map_iff in Hye. destruct Hye as [yt [<- _]].
  cbn [Tmpl.Y_Z]. unfold zEntries. rewrite !map_map.
  cbn [Tmpl.Z_Type Tmpl.Z_Name].
  split; [apply map_id|reflexivity].
Qed.

(** X13. At every level of the tree the entries are the types of the
    flag in the order [expand] returns them, a type given twice being
    there twice, each with the name [makeName] derives from it; the
    number of Z entries along the branches is the product of the three
    numbers of types, also when a list is empty or not given. *)
Theorem tree_in_flag_order (name x y z : gostring) :
  let top := build name x y z in
  (map Tmpl.X_Type (Tmpl.Top_X top) = expand x
   /\ map Tmpl.X_Name (Tmpl.Top_X top) = map makeName (expand x)
   /\ forall xe, In xe (Tmpl.Top_X top) ->
        map Tmpl.Y_Type (Tmpl.X_Y xe) = expand y
        /\ map Tmpl.Y_Name (Tmpl.X_Y xe) = map makeName (expand y)
        /\ forall ye, In ye (Tmpl.X_Y xe) ->
             map Tmpl.Z_Type (Tmpl.Y_Z ye) = expand z
             /\ map Tmpl.Z_Name (Tmpl.Y_Z ye) = map makeName (expand z))
  /\ zLeaves top
     = (length (expand x) * length (expand y) * length (expand z))%nat.
Proof.
  intros top. split; [apply build_types|].
  destruct (build_types name x y z) as [Hx [_ Hy]]. fold top in Hx, Hy.
  unfold zLeaves.
  rewrite (list_sum_const _ _ (length (expand y) * length (expand z))%nat).
  - rewrite <- Hx, length_map. lia.
  - intros xe Hxe. destruct (Hy xe Hxe) as [Hyt [_ Hz]].
    rewrite (list_sum_const _ _ (length (expand z))).
    + now rewrite <- Hyt, length_map.
    + intros ye Hye. destruct (Hz ye Hye) as [Hzt _].
      now rewrite <- Hzt, length_map.
Qed.

(** X14. The test for a missing X list is on the flag as it is written:
    a flag made of commas and white space is accepted, and the template
    is executed with no X entry at all. *)
Theorem blank_x_runs (flags : Flags) :
  input flags <> [] -> x flags <> [] ->
  (forall c, In c (x flags) -> c = ","%char \/ asciiSpace c = true) ->
  exists output top,
    main flags = Execute output top /\ Tmpl.Top_X top = [].
Proof.
  intros Hi Hx Hblank. rewrite main_runs by assumption.
  eexists. eexists. split; [reflexivity|].
  rewrite build_cross. cbn [Tmpl.Top_X]. unfold xEntries.
  now rewrite expand_spaces.
Qed.

(** The name that [main] passes to the template. *)
Lemma baseName_cases (input : gostring) :
  baseName input <> []
  /\ (exists rest, filepath.Base input = baseName input ++ rest)
  /\ (~ In "."%char (baseName input)
      \/ (baseName input = filepath.Base input
          /\ exists rest, filepath.Base input = "."%char :: rest)).
Proof.
  unfold baseName. cbv zeta.
  assert (Hne : filepath.Base input <> []).
  { destruct (Base_element input) as [H|[H _]]; [|exact H].
    rewrite H. discriminate. }
  destruct (Z.ltb_spec 0 (strings.Index (filepath.Base input) ".")) as [H|H].
  - destruct (Index_upto (filepath.Base input) "." ltac:(lia))
      as [Hnot [rest Hrest]].
    split; [|split; [|now left]].
    + destruct (filepath.Base input) as [|b s]; [congruence|].
      destruct (Z.to_nat _) eqn:E; [lia|discriminate].
    + now exists ("."%char :: rest).
  - split; [exact Hne|]. split; [exists []; now rewrite app_nil_r|].
    destruct (Z.eq_dec (strings.Index (filepath.Base input) ".") 0)
      as [H0|H0].
    + right. split; [reflexivity|]. now apply Index_zero.
    + left. apply Index_absent. lia.
Qed.

(** X15. The name passed to the template is never empty. It is the
    start of the base name of the input; it has no dot in it, unless the
    base name begins with one and is kept whole; and it has no path
    separator in it, unless it is the root ["/"] itself. *)
Theorem top_name (flags : Flags) :
  input flags <> [] -> x flags <> [] ->
  exists output top,
    main flags = Execute output top
    /\ Tmpl.Top_Name top <> []
    /\ (exists rest,
          filepath.Base (input flags) = Tmpl.Top_Name top ++ rest)
    /\ (~ In "."%char (Tmpl.Top_Name top)
        \/ (Tmpl.Top_Name top = filepath.Base (input flags)
            /\ exists rest,
                 filepath.Base (input flags) = "."%char :: rest))
    /\ (Tmpl.Top_Name top = [filepath.Separator]
        \/ forall c, In c (Tmpl.Top_Name top) -> c <> filepath.Separator).
Proof.
  intros Hi Hx. rewrite main_runs by assumption.
  eexists. eexists. split; [reflexivity|].
  rewrite build_cross. cbn [Tmpl.Top_Name].
  destruct (baseName_cases (input flags)) as [Hne [[rest Hrest] Hdot]].
  split; [exact Hne|]. split; [now exists rest|]. split; [exact Hdot|].
  destruct (Base_element (input flags)) as [Hroot|[_ Hsep]].
  - left. rewrite Hroot in Hrest.
    destruct (baseName (input flags)) as [|b [|b' s]]; [congruence| |].
    + now injection Hrest as ->.
    + discriminate.
  - right. intros c Hc. apply Hsep. rewrite Hrest.
    apply in_or_app. now left.
Qed.

Lemma baseName_element (input : gostring) :
  filepath.Base input <> [filepath.Separator] ->
  pathElement (baseName input ++ go ".go").
Proof.
  intros Hroot.
  destruct (baseName_cases input) as [Hne [[rest Hrest] _]].
  destruct (Base_element input) as [H|[_ Hsep]]; [congruence|].
  repeat split.
  - intros H. apply app_eq_nil in H. now destruct H.
  - intros c Hc. apply in_app_or in Hc. destruct Hc as [Hc|Hc].
    + apply Hsep. rewrite Hrest. apply in_or_app. now left.
    + cbn in Hc. intuition (subst; discriminate).
  - intros H. apply (f_equal (@length ascii)) in H.
    rewrite length_app in H. cbn in H. lia.
  - intros H. apply (f_equal (@length ascii)) in H.
    rewrite length_app in H. cbn in H.
    destruct (baseName input); [congruence|cbn [length] in H; lia].
Qed.

(** X16. Unless the input is a path of separators only, the default
    output path ends with the name passed to the template plus ".go",
    and that is the file it names; for an input without a directory part
    the path is that file name alone, in the current directory. *)
Theorem default_output_file (flags : Flags) :
  x flags <> [] -> output flags = [] ->
  (exists c, In c (input flags) /\ c <> filepath.Separator) ->
  exists output top,
    main flags = Execute output top
    /\ filepath.Base output = Tmpl.Top_Name top ++ go ".go"
    /\ (exists p, output = p ++ Tmpl.Top_Name top ++ go ".go")
    /\ ((forall c, In c (input flags) -> c <> filepath.Separator) ->
        output = Tmpl.Top_Name top ++ go ".go").
Proof.
  intros Hx Ho [c [Hc Hsep]].
  assert (Hi : input flags <> []) by (intros H; rewrite H in Hc; destruct Hc).
  assert (Hel : pathElement (baseName (input flags) ++ go ".go")).
  { apply baseName_element. intros H. apply Hsep.
    now apply (Base_root _ H). }
  rewrite main_runs, Ho by assumption.
  cbn [gostring_eqb go list_ascii_of_string].
  eexists. eexists. split; [reflexivity|].
  rewrite build_cross. cbn [Tmpl.Top_Name]. split; [|split].
  - apply Base_Join; [apply Clean_not_nil|exact Hel].
  - cbn [filepath.Join].
    pose proof (Clean_not_nil
                  (upto (filepath.afterLastSeparator (input flags)
                           (length (input flags))) (input flags))) as Hd.
    fold (filepath.Dir (input flags)) in Hd.
    pose proof Hd as Hd'. apply gostring_eqb_neq in Hd'.
    change (go "") with (@nil ascii). rewrite Hd'.
    match goal with |- context [strings.Join ?l ?sep] =>
      change (strings.Join l sep)
        with (filepath.Dir (input flags)
              ++ filepath.Separator :: baseName (input flags) ++ go ".go")
    end.
    destruct (Clean_last _ _ Hd Hel) as [p [-> _]]. now exists p.
  - intros Hplain. rewrite Dir_plain by exact Hplain.
    now rewrite Join_dot_element by exact Hel.
Qed.

(** The base form of a file name [name.ext]. *)
Lemma baseName_stem (input name ext : gostring) :
  filepath.Base input = name ++ go "." ++ ext ->
  name <> [] -> (forall c, In c name -> c <> "."%char) ->
  baseName input = name.
Proof.
  intros Hbase Hne Hname. unfold baseName. rewrite Hbase. cbv zeta.
  change (go "." ++ ext) with ("."%char :: ext).
  rewrite Index_app by (intros H; now apply Hname in H).
  destruct name as [|b name]; [congruence|].
  replace (0 <? Z.of_nat (length (b :: name))) with true
    by (symmetry; apply Z.ltb_lt; cbn [length]; lia).
  rewrite Nat2Z.id. apply upto_app.
Qed.

Lemma file_element (name ext : gostring) :
  name <> [] ->
  (forall c, In c name -> c <> "."%char /\ c <> filepath.Separator) ->
  (forall c, In c ext -> c <> filepath.Separator) ->
  pathElement (name ++ go "." ++ ext).
Proof.
  intros Hne Hname Hext.
  destruct name as [|b name]; [congruence|].
  destruct (Hname b ltac:(now left)) as [Hb _].
  split; [discriminate|]. split; [|split; intros [= H _]; congruence].
  intros c Hc. apply in_app_or in Hc.
  destruct Hc as [Hc|[<-|Hc]]; [now apply Hname|discriminate|].
  now apply Hext.
Qed.

(** X17. For an input [dir/name.ext], or [name.ext] without directory,
    where [name] is not empty and has no dot in it, the name passed to
    the template is [name]: the directory and everything from the first
    dot on are dropped, as for ["foo/bar.go.templ"] and ["bar"]. *)
Theorem template_name (flags : Flags) (dir name ext : gostring) :
  input flags = dir ++ go "/" ++ name ++ go "." ++ ext
  \/ input flags = name ++ go "." ++ ext ->
  name <> [] ->
  (forall c, In c name -> c <> "."%char /\ c <> filepath.Separator) ->
  (forall c, In c ext -> c <> filepath.Separator) ->
  x flags <> [] ->
  exists output top,
    main flags = Execute output top /\ Tmpl.Top_Name top = name.
Proof.
  intros Hin Hne Hname Hext Hx.
  pose proof (file_element name ext Hne Hname Hext) as Hel.
  assert (Hbase : filepath.Base (input flags) = name ++ go "." ++ ext).
  { destruct Hin as [-> | ->].
    - rewrite app_assoc. apply Base_last; [exact Hel|].
      right. now exists dir.
    - destruct Hel as [Hne' [Hsep _]]. now apply Base_plain. }
  assert (Hi : input flags <> []).
  { intros H. rewrite H in Hbase. destruct Hel as [_ [_ [Hdot _]]].
    apply Hdot. now rewrite <- Hbase. }
  rewrite main_runs by assumption.
  eexists. eexists. split; [reflexivity|].
  rewrite build_cross. cbn [Tmpl.Top_Name].
  apply (baseName_stem _ _ ext Hbase Hne).
  intros c Hc. now apply Hname.
Qed.

(** X18. A template named [name.go] is replaced by what is generated
    from it: for such an input without a directory part, the name passed
    to the template is [name] and the default output path is the input
    itself. *)
Theorem go_template_overwritten (flags : Flags) (name : gostring) :
  input flags = name ++ go ".go" ->
  name <> [] ->
  (forall c, In c name -> c <> "."%char /\ c <> filepath.Separator) ->
  x flags <> [] -> output flags = [] ->
  exists top,
    main flags = Execute (input flags) top /\ Tmpl.Top_Name top = name.
Proof.
  intros Hin Hne Hname Hx Ho.
  assert (Hext : forall c, In c (go "go") -> c <> filepath.Separator).
  { intros c Hc. cbn in Hc. intuition (subst; discriminate). }
  pose proof (file_element name "go" Hne Hname Hext) as Hel.
  change (name ++ go "." ++ go "go") with (name ++ go ".go") in Hel.
  pose proof Hel as [Hne' [Hsep _]].
  assert (Hi : input flags <> []) by (rewrite Hin; exact Hne').
  assert (Hbase : baseName (input flags) = name).
  { apply (baseName_stem _ _ "go"); [|exact Hne|intros c Hc; now apply Hname].
    rewrite Hin. now apply Base_plain. }
  assert (Hmain : main flags
                  = Execute (input flags)
                      (build name (x flags) (y flags) (z flags))).
  { rewrite main_runs, Ho, Hbase by assumption.
    cbn [gostring_eqb go list_ascii_of_string].
    rewrite Hin. rewrite Dir_plain by exact Hsep.
    now rewrite Join_dot_element by exact Hel. }
  rewrite Hmain. eexists. split; [reflexivity|].
  now rewrite build_cross.
Qed.

(** X19. The default output is a file next to the input: unless the
    input is a path of separators only, the directory of the default
    output path is the directory of the input, and the path is a clean
    one, which [filepath.Clean] leaves as it is. *)
Theorem default_output_dir (flags : Flags) :
  x flags <> [] -> output flags = [] ->
  (exists c, In c (input flags) /\ c <> filepath.Separator) ->
  exists output top,
    main flags = Execute output top
    /\ filepath.Dir output = filepath.Dir (input flags)
    /\ filepath.Clean output = output.
Proof.
  intros Hx Ho [c [Hc Hsep]].
  assert (Hi : input flags <> []) by (intros H; rewrite H in Hc; destruct Hc).
  assert (Hel : pathElement (baseName (input flags) ++ go ".go")).
  { apply baseName_element. intros H. apply Hsep.
    now apply (Base_root _ H). }
  rewrite main_runs, Ho by assumption.
  cbn [gostring_eqb go list_ascii_of_string].
  eexists. eexists. split; [reflexivity|].
  unfold filepath.Dir at 1 3 4.
  apply (Join_clean _ _ Hel).
Qed.

(** X20. For a template [name.ext] in a directory that is written as a
    clean path, the default output path is spelled out: [name.go] in
    that directory, which is [dir/name.go], or [/name.go] in the root and
    [name.go] in the current directory, as [pkg/foo.go] for
    [pkg/foo.go.tmpl]. *)
Theorem default_output_in_directory (flags : Flags)
  (dir name ext : gostring) :
  input flags = dir ++ go "/" ++ name ++ go "." ++ ext ->
  filepath.Clean dir = dir ->
  name <> [] ->
  (forall c, In c name -> c <> "."%char /\ c <> filepath.Separator) ->
  (forall c, In c ext -> c <> filepath.Separator) ->
  x flags <> [] -> output flags = [] ->
  outputPath (main flags)
  = Some ((if gostring_eqb dir "." then go ""
           else if gostring_eqb dir "/" then go "/"
           else dir ++ go "/")
          ++ name ++ go ".go").
Proof.
  intros Hin Hclean Hne Hname Hext Hx Ho.
  pose proof (file_element name ext Hne Hname Hext) as Hfile.
  assert (Hgo : forall c, In c (go "go") -> c <> filepath.Separator).
  { intros c Hc. cbn in Hc. intuition (subst; discriminate). }
  pose proof (file_element name "go" Hne Hname Hgo) as Hel.
  change (name ++ go "." ++ go "go") with (name ++ go ".go") in Hel.
  assert (Hbase : filepath.Base (input flags) = name ++ go "." ++ ext).
  { rewrite Hin, app_assoc. apply Base_last; [exact Hfile|].
    right. now exists dir. }
  assert (Hi : input flags <> []).
  { intros H. rewrite H in Hbase. destruct Hfile as [_ [_ [Hdot _]]].
    apply Hdot. now rewrite <- Hbase. }
  assert (Hstem : baseName (input flags) = name).
  { apply (baseName_stem _ _ ext Hbase Hne). intros c Hc. now apply Hname. }
  rewrite main_runs, Ho, Hstem by assumption.
  change (gostring_eqb [] (go "")) with true. cbv iota.
  cbn [outputPath]. f_equal.
  destruct (gostring_eqb dir ".") eqn:Edot.
  - apply gostring_eqb_eq in Edot. subst dir.
    assert (Hdir : filepath.Dir (input flags) = go ".").
    { rewrite Hin. unfold filepath.Dir.
      change (go "." ++ go "/" ++ name ++ go "." ++ ext)
        with ((go "." ++ [filepath.Separator]) ++ name ++ go "." ++ ext).
      rewrite length_app.
      rewrite afterLastSeparator_last;
        [reflexivity|now destruct Hfile as [_ [H _]]
        |right; now exists (go ".")|lia]. }
    rewrite Hdir. now apply Join_dot_element.
  - apply gostring_eqb_neq in Edot.
    destruct (Clean_fixed_state dir Hclean Edot)
      as [rooted [dotdot [Hst Hd]]].
    assert (Hdir : filepath.Dir (input flags) = dir).
    { rewrite Hin. apply (Dir_state _ _ _ _ Hst Hd).
      now destruct Hfile as [_ [H _]]. }
    rewrite Hdir.
    transitivity (withSeparator rooted dir ++ name ++ go ".go");
      [exact (Join_state _ _ _ _ Hst Hd Hel)|].
    f_equal.
    destruct (withSeparator_cases _ _ _ Hst) as [[-> Hstart]|[-> [Hstart _]]].
    + destruct (gostring_eqb dir "/") eqn:Eroot; [|reflexivity].
      apply gostring_eqb_eq in Eroot. exfalso.
      destruct (cleanState_facts _ _ _ Hst) as [_ [_ Hhead]].
      destruct rooted; [now apply Hstart|].
      destruct (Hhead eq_refl) as [[E _]|[c [o [E Hc]]]]; [congruence|].
      rewrite Eroot in E. change (go "/") with [filepath.Separator] in E.
      injection E as <- _. now apply Hc.
    + destruct rooted; [|now elim Hd]. rewrite Hstart. reflexivity.
Qed.

(** *** The effects of main *)


(** X21. Without a template file the program prints its usage and
    stops with ["no template file"], whatever the other flags; with a
    template file and no X list it prints its usage and stops with
    ["no specialization types"]. In both cases the status is 1, the
    usage names the program by the base name of [os.Args[0]], and no file
    is written. *)
Theorem missing_flags_stop (w : World) (flags : Flags) :
  input flags = [] \/ x flags = [] ->
  run w flags
  = {| Stderr :=
         go "Usage: " ++ filepath.Base (Args0 w)
         ++ go " [options] --input=<filename.tmpl --x=<types>"
         ++ [newline] ++ Defaults w
         ++ go "specialize: "
         ++ (if gostring_eqb (input flags) ""
             then go "no template file"
             else go "no specialization types")
         ++ [newline];
       Writes := [];
       Status := 1 |}.
Proof.
  intros H. unfold run, main.
  destruct (gostring_eqb (input flags) "") eqn:Ei.
  - unfold fatal, usage. now rewrite <- !app_assoc.
  - destruct H as [H|H]; [rewrite H in Ei; discriminate|].
    rewrite H. cbn [gostring_eqb go list_ascii_of_string].
    unfold fatal, usage. now rewrite <- !app_assoc.
Qed.



(** *** The table of macros *)

(** X24. Every name of the table of macros is in lower case, so that
    [expand] finds it, and expands to its list of types as it is; the
    types of a macro are distinct, and so are the names that [makeName]
    derives from them. *)
Theorem macros_table (key : gostring) (exp : list gostring) :
  In (key, exp) macros ->
  strings.ToLower key = key
  /\ expand key = exp
  /\ NoDup exp
  /\ NoDup (map makeName exp).
Proof.
  assert (Hnodup : forall l : list gostring,
            (fix distinct (l : list gostring) : bool :=
               match l with
               | [] => true
               | t :: l' =>
                 negb (existsb (gostring_eqb t) l') && distinct l'
               end) l = true -> NoDup l).
  { induction l as [|t l IH]; intros H; [constructor|].
    apply andb_true_iff in H. destruct H as [H1 H2].
    constructor; [|now apply IH].
    intros Hin. apply negb_true_iff in H1.
    assert (Hex : existsb (gostring_eqb t) l = true).
    { apply existsb_exists. exists t. split; [exact Hin|].
      now apply gostring_eqb_eq. }
    congruence. }
  intros [[= <- <-]|[[= <- <-]|[]]];
    (split; [reflexivity|split; [reflexivity|split]]);
    apply Hnodup; reflexivity.
Qed.

End FurtherProperties.

(** ** The further properties at concrete inputs *)

Lemma expand_blank_witness :
  (forall c, In c (go " , ") -> c = ","%char \/ asciiSpace c = true)
  /\ expand (U := latin1Tables) " , " = [].
Proof.
  assert (H : forall c, In c (go " , ") ->
                c = ","%char \/ asciiSpace c = true).
  { cbn. intuition (subst; auto). }
  split; [exact H|].
  apply (proj2 (expand_blank (U := latin1Tables) " , ")). exact H.
Defined.

Lemma expand_idempotent_witness :
  expand (U := latin1Tables) "foo.Bar,[]byte"
  = ["foo.Bar" : gostring; "[]byte" : gostring].
Proof.
  apply (proj1 (expand_idempotent (U := latin1Tables))
           ["foo.Bar" : gostring; "[]byte" : gostring]).
  intros t [<-|[<-|[]]]; (split; [reflexivity|split; [|split]]);
    [cbn; intuition discriminate|discriminate|reflexivity
    |cbn; intuition discriminate|discriminate|reflexivity].
Defined.

Lemma expand_types_plain_witness :
  In ("uint8" : gostring) (expand (U := latin1Tables) "foo.Bar, Integers")
  /\ expand (U := latin1Tables) "uint8" = ["uint8" : gostring].
Proof.
  assert (H : In ("uint8" : gostring)
                 (expand (U := latin1Tables) "foo.Bar, Integers")).
  { vm_compute. intuition. }
  split; [exact H|].
  apply (expand_types_plain (U := latin1Tables) "foo.Bar, Integers").
  exact H.
Defined.

Lemma expand_substitutes_witness :
  (forall piece, In piece (cleanPieces " foo.Bar ,, Int") ->
     lookup macros (@strings.ToLower latin1Tables piece) = None)
  /\ expand (U := latin1Tables) " foo.Bar ,, Int"
     = ["foo.Bar" : gostring; "Int" : gostring].
Proof.
  assert (H : forall piece, In piece (cleanPieces " foo.Bar ,, Int") ->
                lookup macros (@strings.ToLower latin1Tables piece)
                = None).
  { intros piece Hin. vm_compute in Hin.
    destruct Hin as [<-|[<-|[]]]; reflexivity. }
  split; [exact H|].
  rewrite (proj2 (expand_substitutes (U := latin1Tables) " foo.Bar ,, Int") H).
  reflexivity.
Defined.

Lemma expand_sources_witness :
  In ("foo.Bar" : gostring) (expand (U := latin1Tables) " foo.Bar ,floats")
  /\ exists p q, go " foo.Bar ,floats" = p ++ go "foo.Bar" ++ q.
Proof.
  assert (H : In ("foo.Bar" : gostring)
                 (expand (U := latin1Tables) " foo.Bar ,floats")).
  { vm_compute. intuition. }
  split; [exact H|].
  destruct (expand_sources (U := latin1Tables) _ _ H)
    as [[key [exp [Hk Ht]]]|Hi]; [|exact Hi].
  exists (go " "), (go " ,floats"). reflexivity.
Defined.

Lemma makeName_ascii_witness :
  (forall d, In d (go "[]foo.Bar") -> typeByte d = true)
  /\ makeName (U := latin1Tables) "[]foo.Bar" = ("Foo_BarSlice" : gostring)
  /\ length (makeName (U := latin1Tables) "[]foo.Bar")
     = (length (go "[]foo.Bar") + 3 * 1)%nat.
Proof.
  assert (H : forall d, In d (go "[]foo.Bar") -> typeByte d = true).
  { cbn. intuition (subst; reflexivity). }
  split; [exact H|].
  destruct (makeName_ascii (U := latin1Tables) "[]foo.Bar"
              ltac:(discriminate) H) as [Hm [_ Hl]].
  split; [rewrite Hm; reflexivity|exact Hl].
Defined.

Lemma makeName_idempotent_witness :
  (forall d, In d (go "[]foo.Bar") -> typeByte d = true)
  /\ makeName (U := latin1Tables) (makeName (U := latin1Tables) "[]foo.Bar")
     = makeName (U := latin1Tables) "[]foo.Bar".
Proof.
  assert (H : forall d, In d (go "[]foo.Bar") -> typeByte d = true).
  { cbn. intuition (subst; reflexivity). }
  split; [exact H|].
  apply (makeName_idempotent (U := latin1Tables) "[]foo.Bar");
    [discriminate|exact H].
Defined.

Lemma makeName_keeps_witness :
  keptByte "*" = true
  /\ In "*"%char (makeName (U := latin1Tables) "[]*foo.Bar").
Proof.
  split; [reflexivity|].
  apply (makeName_keeps (U := latin1Tables) "[]*foo.Bar" "*");
    [reflexivity|cbn; intuition].
Defined.

Lemma blank_x_runs_witness :
  exists output top,
    main (U := latin1Tables)
      {| x := " , "; y := "int"; z := ""; input := "foo.tmpl";
         output := "" |}
    = Execute output top
    /\ Tmpl.Top_X top = [].
Proof.
  apply (blank_x_runs (U := latin1Tables)
           {| x := " , "; y := "int"; z := ""; input := "foo.tmpl";
              output := "" |});
    [discriminate|discriminate|].
  cbn. intuition (subst; auto).
Defined.

Lemma top_name_witness :
  exists output top,
    main (U := latin1Tables)
      {| x := "int"; y := ""; z := ""; input := "pkg/foo.go.tmpl";
         output := "" |}
    = Execute output top
    /\ Tmpl.Top_Name top <> [].
Proof.
  destruct (top_name (U := latin1Tables)
              {| x := "int"; y := ""; z := ""; input := "pkg/foo.go.tmpl";
                 output := "" |}
              ltac:(discriminate) ltac:(discriminate))
    as [output [top [Hm [Hne _]]]].
  now exists output, top.
Defined.

Lemma default_output_file_witness :
  (exists c, In c (go "pkg/foo.go.tmpl") /\ c <> filepath.Separator)
  /\ exists output top,
       main (U := latin1Tables)
         {| x := "int"; y := ""; z := ""; input := "pkg/foo.go.tmpl";
            output := "" |}
       = Execute output top
       /\ filepath.Base output = Tmpl.Top_Name top ++ go ".go".
Proof.
  assert (H : exists c, In c (go "pkg/foo.go.tmpl")
                        /\ c <> filepath.Separator).
  { exists "p"%char. split; [now left|discriminate]. }
  split; [exact H|].
  destruct (default_output_file (U := latin1Tables)
              {| x := "int"; y := ""; z := ""; input := "pkg/foo.go.tmpl";
                 output := "" |}
              ltac:(discriminate) eq_refl H)
    as [output [top [Hm [Hb _]]]].
  now exists output, top.
Defined.

Lemma template_name_witness :
  exists output top,
    main (U := latin1Tables)
      {| x := "int"; y := ""; z := ""; input := "foo/bar.go.templ";
         output := "" |}
    = Execute output top
    /\ Tmpl.Top_Name top = ("bar" : gostring).
Proof.
  apply (template_name (U := latin1Tables)
           {| x := "int"; y := ""; z := ""; input := "foo/bar.go.templ";
              output := "" |} "foo" "bar" "go.templ").
  - left. reflexivity.
  - discriminate.
  - cbn. intuition (subst; discriminate).
  - cbn. intuition (subst; discriminate).
  - discriminate.
Defined.

Lemma go_template_overwritten_witness :
  exists top,
    main (U := latin1Tables)
      {| x := "int"; y := ""; z := ""; input := "gen.go"; output := "" |}
    = Execute "gen.go" top
    /\ Tmpl.Top_Name top = ("gen" : gostring).
Proof.
  apply (go_template_overwritten (U := latin1Tables)
           {| x := "int"; y := ""; z := ""; input := "gen.go";
              output := "" |} "gen").
  - reflexivity.
  - discriminate.
  - cbn. intuition (subst; discriminate).
  - discriminate.
  - reflexivity.
Defined.

Lemma default_output_dir_witness :
  (exists c, In c (go "a/../pkg//foo.go.tmpl") /\ c <> filepath.Separator)
  /\ exists output top,
       main (U := latin1Tables)
         {| x := "int"; y := ""; z := "";
            input := "a/../pkg//foo.go.tmpl"; output := "" |}
       = Execute output top
       /\ filepath.Dir output = ("pkg" : gostring).
Proof.
  assert (H : exists c, In c (go "a/../pkg//foo.go.tmpl")
                        /\ c <> filepath.Separator).
  { exists "a"%char. split; [now left|discriminate]. }
  split; [exact H|].
  destruct (default_output_dir (U := latin1Tables)
              {| x := "int"; y := ""; z := "";
                 input := "a/../pkg//foo.go.tmpl"; output := "" |}
              ltac:(discriminate) eq_refl H)
    as [output [top [Hm [Hd _]]]].
  exists output, top. split; [exact Hm|]. rewrite Hd. reflexivity.
Defined.

Lemma missing_flags_stop_witness :
  Status (run (U := latin1Tables) noFiles
            {| x := "int"; y := ""; z := ""; input := ""; output := "" |})
  = 1
  /\ Writes (run (U := latin1Tables) noFiles
               {| x := "int"; y := ""; z := ""; input := "";
                  output := "" |})
     = [].
Proof.
  rewrite (missing_flags_stop (U := latin1Tables) noFiles
             {| x := "int"; y := ""; z := ""; input := ""; output := "" |}
             (or_introl eq_refl)).
  split; reflexivity.
Defined.

Lemma macros_table_witness :
  In (go "floats", [go "float32"; go "float64"]) macros
  /\ expand (U := latin1Tables) "floats"
     = ["float32" : gostring; "float64" : gostring]
  /\ NoDup (map (makeName (U := latin1Tables))
                [go "float32"; go "float64"]).
Proof.
  assert (H : In (go "floats", [go "float32"; go "float64"]) macros)
    by (right; now left).
  split; [exact H|].
  destruct (macros_table (U := latin1Tables) _ _ H) as [_ [He [_ Hn]]].
  split; [exact He|exact Hn].
Defined.

Lemma tree_in_flag_order_witness :
  map Tmpl.X_Type
      (Tmpl.Top_X (build (U := latin1Tables) "foo" "int, int" "" "floats"))
  = ["int" : gostring; "int" : gostring]
  /\ zLeaves (build (U := latin1Tables) "foo" "int, int" "" "floats")
     = (2 * 0 * 2)%nat.
Proof.
  destruct (tree_in_flag_order (U := latin1Tables) "foo" "int, int" ""
              "floats") as [[Hx _] Hz].
  split; [rewrite Hx; reflexivity|rewrite Hz; reflexivity].
Defined.



Lemma default_output_in_directory_witness :
  outputPath (main (U := latin1Tables)
                {| x := "int"; y := ""; z := "";
                   input := "pkg/foo.go.tmpl"; output := "" |})
  = Some ("pkg/foo.go" : gostring).
Proof.
  apply (default_output_in_directory (U := latin1Tables)
           {| x := "int"; y := ""; z := ""; input := "pkg/foo.go.tmpl";
              output := "" |} "pkg" "foo" "go.tmpl").
  - reflexivity.
  - reflexivity.
  - discriminate.
  - cbn. intuition (subst; discriminate).
  - cbn. intuition (subst; discriminate).
  - discriminate.
  - reflexivity.
Defined.

Lemma makeName_ascii_words_witness :
  (forall d, In d (go "chan int") -> byteZ d < 0x80)
  /\ makeName (U := latin1Tables) "chan int" = ("Chan Int" : gostring).
Proof.
  assert (H : forall d, In d (go "chan int") -> byteZ d < 0x80).
  { cbn. intuition (subst; reflexivity). }
  split; [exact H|].
  rewrite (makeName_ascii_words (U := latin1Tables) "chan int" H).
  reflexivity.
Defined.
